(** * ImageFilter: a shallow embedding of the filters and quality metrics

    The development follows the repository file by file:

    - [Int]: the 32-bit [int] arithmetic of the C++ sources;
    - [double] and its operations: the [double] arithmetic of the sources;
    - [Tester]: [tester.cpp] (the [RGB]/[Image] filters: bilateral, Gaussian,
      sharpen);
    - [CV]: the part of OpenCV's [cv::Mat] interface that the sources call;
    - [Filters]: [filters.cpp] (Gaussian blur wrapper, unsharp mask,
      composite score);
    - [Psnr], [Ssim]: [psnr.cpp] and [ssim.cpp];
    - [BilateralSpec]: the bilateral formula as the specification words it,
      against which the code is compared.

    Modelling conventions.

    - A C++ [int] is a [Z]; every arithmetic operation that the sources
      perform on [int] wraps around modulo 2^32 ([Int.wrap]).  Signed overflow
      is undefined in C++; the wrap-around is what the usual two's complement
      targets compute.
    - A finite [double] is a real number: rounding error (and with it
      overflow and underflow of the four arithmetic operations) is not
      modelled.  The exceptional values [+inf], [-inf] and [NaN] are kept,
      with the IEEE-754 rules for them, and [exp] and [log10] behave at the
      ends of their range as the C library documents.  There is one zero,
      which divides like [+0].  Where the rounding could change what a
      theorem of Part II concludes (a value truncated to an integer, a
      strict comparison of results), the theorem is worded with room for
      it: see [truncated] and [sigma_min].
    - A [std::vector] or pixel buffer is a [list]; a loop is a fold over the
      list of the values its counter takes, in the order of the source. *)

From Stdlib Require Import ZArith List Bool Lia Reals Lra Psatz.
Import ListNotations.
From Stdlib Require String.
Import String.StringSyntax.
Delimit Scope string_scope with string.

Set Implicit Arguments.

(* ================================================================== *)
(** * Part I: definitions *)
(* ================================================================== *)

(** ** 32-bit [int] *)

Module Int.
Local Open Scope Z_scope.

Definition min_int : Z := -2147483648.
Definition max_int : Z := 2147483647.

(** Reduction of a mathematical integer to the [int] it is stored as. *)
Definition wrap (z : Z) : Z := (z + 2147483648) mod 4294967296 - 2147483648.

Definition in_range (z : Z) : Prop := min_int <= z <= max_int.

Definition add (a b : Z) : Z := wrap (a + b).
Definition sub (a b : Z) : Z := wrap (a - b).
Definition mul (a b : Z) : Z := wrap (a * b).
Definition neg (a : Z) : Z := wrap (- a).
(** [a / b] and [a % b] truncate toward zero. *)
Definition div (a b : Z) : Z := wrap (Z.quot a b).
Definition rem (a b : Z) : Z := Z.rem a b.

(** [std::min] and [std::max] at type [int]. *)
Definition min (a b : Z) : Z := if b <? a then b else a.
Definition max (a b : Z) : Z := if a <? b then b else a.

(** The values of the counter of [for (int i = lo; i <= hi; i++)]. *)
Definition range (lo hi : Z) : list Z :=
  map (fun i => lo + Z.of_nat i) (seq 0 (Z.to_nat (hi - lo + 1))).

(** The values of the counter of [for (int i = 0; i < n; i++)]. *)
Definition upto (n : Z) : list Z := range 0 (n - 1).
End Int.

(** ** [double] *)

Inductive double : Type :=
| Fin (x : R)   (* a finite value *)
| PInf          (* +infinity *)
| NInf          (* -infinity *)
| NaN.

Definition Rltb (x y : R) : bool := if Rlt_dec x y then true else false.
Definition Reqb (x y : R) : bool := if Req_dec_T x y then true else false.

Definition of_int (z : Z) : double := Fin (IZR z).

Definition dneg (a : double) : double :=
  match a with
  | Fin x => Fin (- x)
  | PInf => NInf
  | NInf => PInf
  | NaN => NaN
  end.

Definition dadd (a b : double) : double :=
  match a, b with
  | NaN, _ | _, NaN => NaN
  | Fin x, Fin y => Fin (x + y)
  | PInf, NInf | NInf, PInf => NaN
  | PInf, _ | _, PInf => PInf
  | NInf, _ | _, NInf => NInf
  end.

Definition dsub (a b : double) : double := dadd a (dneg b).

(** An infinity with the sign of [x]; [0 * inf] is [NaN]. *)
Definition inf_signed (x : R) (pos : bool) : double :=
  if Reqb x 0 then NaN
  else if eqb (Rltb 0 x) pos then PInf else NInf.

Definition dmul (a b : double) : double :=
  match a, b with
  | NaN, _ | _, NaN => NaN
  | Fin x, Fin y => Fin (x * y)
  | Fin x, PInf | PInf, Fin x => inf_signed x true
  | Fin x, NInf | NInf, Fin x => inf_signed x false
  | PInf, PInf | NInf, NInf => PInf
  | PInf, NInf | NInf, PInf => NInf
  end.

Definition ddiv (a b : double) : double :=
  match a, b with
  | NaN, _ | _, NaN => NaN
  | Fin x, Fin y =>
      if Reqb y 0 then inf_signed x true   (* x / 0: an infinity, 0 / 0: NaN *)
      else Fin (x / y)
  | Fin _, (PInf | NInf) => Fin 0
  | PInf, Fin y => if Rltb y 0 then NInf else PInf
  | NInf, Fin y => if Rltb y 0 then PInf else NInf
  | (PInf | NInf), (PInf | NInf) => NaN
  end.

(** [a < b] and [a == b]; both are false when an operand is [NaN]. *)
Definition dltb (a b : double) : bool :=
  match a, b with
  | NaN, _ | _, NaN => false
  | Fin x, Fin y => Rltb x y
  | NInf, (Fin _ | PInf) => true
  | Fin _, PInf => true
  | _, _ => false
  end.

Definition deqb (a b : double) : bool :=
  match a, b with
  | Fin x, Fin y => Reqb x y
  | PInf, PInf | NInf, NInf => true
  | _, _ => false
  end.

(** [a <= b], false when an operand is [NaN]. *)
Definition Rleb (x y : R) : bool := if Rle_dec x y then true else false.

Definition dleb (a b : double) : bool :=
  match a, b with
  | NaN, _ | _, NaN => false
  | Fin x, Fin y => Rleb x y
  | NInf, _ | _, PInf => true
  | _, _ => false
  end.

(** [std::min(a, b)] is [(b < a) ? b : a] and [std::max(a, b)] is
    [(a < b) ? b : a]. *)
Definition std_min (a b : double) : double := if dltb b a then b else a.
Definition std_max (a b : double) : double := if dltb a b then b else a.

(** [std::abs] *)
Definition dabs (a : double) : double :=
  match a with
  | Fin x => Fin (Rabs x)
  | PInf | NInf => PInf
  | NaN => NaN
  end.

(** The largest argument at which [exp] is finite in binary64. *)
Definition exp_max : R := 709.782712893384.

(** [exp]: overflows to [+inf] above [exp_max]. *)
Definition dexp (a : double) : double :=
  match a with
  | Fin x => if Rltb exp_max x then PInf else Fin (exp x)
  | PInf => PInf
  | NInf => Fin 0
  | NaN => NaN
  end.

Definition Rlog10 (x : R) : R := ln x / ln 10.

(** [log10]: [-inf] at zero, [NaN] below. *)
Definition dlog10 (a : double) : double :=
  match a with
  | Fin x => if Rltb 0 x then Fin (Rlog10 x)
             else if Reqb x 0 then NInf else NaN
  | PInf => PInf
  | NInf | NaN => NaN
  end.

(** Truncation toward zero. *)
Definition Rtrunc (x : R) : Z :=
  if Rle_dec 0 x then Int_part x else (- Int_part (- x))%Z.

(** [static_cast<unsigned char>(d)].  C++ defines it when the truncated value
    is in [0, 255].  Outside, the model follows x86-64 ([cvttsd2si], then the
    low byte): the truncated value modulo 256 while it fits an [int], and the
    low byte of the "integer indefinite" 0x80000000, which is 0, otherwise
    (too large, infinite or [NaN]). *)
Definition to_uchar (d : double) : Z :=
  match d with
  | Fin x =>
      let t := Rtrunc x in
      if ((Int.min_int <=? t) && (t <=? Int.max_int))%Z then (t mod 256)%Z
      else 0%Z
  | _ => 0%Z
  end.

(** The values on which the cast is defined by the language. *)
Definition uchar_castable (d : double) : Prop :=
  exists x, d = Fin x /\ (-1 < x < 256)%R.

Declare Scope double_scope.
Delimit Scope double_scope with D.
Bind Scope double_scope with double.
Infix "+" := dadd : double_scope.
Infix "-" := dsub : double_scope.
Infix "*" := dmul : double_scope.
Infix "/" := ddiv : double_scope.
Notation "- a" := (dneg a) : double_scope.

(** ** [tester.cpp] *)

Module Tester.
Local Open Scope Z_scope.

(** [struct RGB { unsigned char r, g, b; }] *)
Record RGB : Type := mkRGB { r : Z; g : Z; b : Z }.

(** [class Image]: [pixels] holds [width * height] pixels, row by row. *)
Record Image : Type := mkImage {
  width : Z;
  height : Z;
  pixels : list RGB
}.

Definition black : RGB := mkRGB 0 0 0.

(** [Image::at(x, y)] is [pixels[y * width + x]].  In a well-formed image
    ([Image_wf] below) the index of a pixel fits an [int], so it is computed
    without wrap-around; an index past the buffer, undefined in C++, reads
    [black]. *)
Definition at_ (img : Image) (x y : Z) : RGB :=
  nth (Z.to_nat (y * width img + x)) (pixels img) black.

(** The loops [for (y < height) for (x < width)], whose body stores one
    pixel at [output.at(x, y)]: every pixel of the output is written exactly
    once, so the output buffer is the list of the stored pixels in row
    order. *)
Definition for_each_pixel (w h : Z) (f : Z -> Z -> RGB) : Image :=
  mkImage w h
    (flat_map (fun y => map (fun x => f x y) (Int.upto w)) (Int.upto h)).

(** [n = std::max(0, std::min(n, bound - 1))]: the clamp to the image
    boundary that every filter applies to a neighbour's coordinate. *)
Definition clamp_coord (n bound : Z) : Z :=
  Int.max 0 (Int.min n (Int.sub bound 1)).

Definition spatialWeight (dx dy : Z) (sigmaSpatial : double) : double :=
  dexp (of_int (Int.neg (Int.add (Int.mul dx dx) (Int.mul dy dy)))
        / (Fin 2 * sigmaSpatial * sigmaSpatial))%D.

Definition rangeWeight (diff : Z) (sigmaRange : double) : double :=
  dexp (of_int (Int.neg (Int.mul diff diff))
        / (Fin 2 * sigmaRange * sigmaRange))%D.

Definition colorDifference (p1 p2 : RGB) : Z :=
  let dr := Int.sub (r p1) (r p2) in
  let dg := Int.sub (g p1) (g p2) in
  let db := Int.sub (b p1) (b p2) in
  Int.add (Int.add (Int.mul dr dr) (Int.mul dg dg)) (Int.mul db db).

(** The accumulators of the neighbourhood loop. *)
Record sums : Type := mkSums {
  sumR : double; sumG : double; sumB : double; sumWeight : double
}.

Definition sums0 : sums := mkSums (Fin 0) (Fin 0) (Fin 0) (Fin 0).

(** The weight the bilateral filter gives the neighbour at offset
    [(kx, ky)] of the pixel [(x, y)]. *)
Definition bilateral_weight (input : Image) (sigmaSpatial sigmaRange : double)
    (x y kx ky : Z) : double :=
  let centerPixel := at_ input x y in
  let nx := clamp_coord (Int.add x kx) (width input) in
  let ny := clamp_coord (Int.add y ky) (height input) in
  let neighborPixel := at_ input nx ny in
  let spatialW := spatialWeight kx ky sigmaSpatial in
  let colorDiff := colorDifference centerPixel neighborPixel in
  let rangeW := rangeWeight colorDiff sigmaRange in
  (spatialW * rangeW)%D.

(** One iteration of the body of the [kx] loop. *)
Definition bilateral_step (input : Image) (sigmaSpatial sigmaRange : double)
    (x y ky : Z) (s : sums) (kx : Z) : sums :=
  let nx := clamp_coord (Int.add x kx) (width input) in
  let ny := clamp_coord (Int.add y ky) (height input) in
  let neighborPixel := at_ input nx ny in
  let weight := bilateral_weight input sigmaSpatial sigmaRange x y kx ky in
  mkSums (sumR s + of_int (r neighborPixel) * weight)%D
         (sumG s + of_int (g neighborPixel) * weight)%D
         (sumB s + of_int (b neighborPixel) * weight)%D
         (sumWeight s + weight)%D.

(** The two neighbourhood loops, [ky] outside and [kx] inside. *)
Definition bilateral_sums (input : Image) (offset : Z)
    (sigmaSpatial sigmaRange : double) (x y : Z) : sums :=
  fold_left
    (fun s ky =>
       fold_left (bilateral_step input sigmaSpatial sigmaRange x y ky)
                 (Int.range (Int.neg offset) offset) s)
    (Int.range (Int.neg offset) offset) sums0.

Definition bilateral_pixel (input : Image) (offset : Z)
    (sigmaSpatial sigmaRange : double) (x y : Z) : RGB :=
  let s := bilateral_sums input offset sigmaSpatial sigmaRange x y in
  mkRGB (to_uchar (sumR s / sumWeight s))
        (to_uchar (sumG s / sumWeight s))
        (to_uchar (sumB s / sumWeight s)).

Definition applyBilateralFilter (input : Image) (kernelSize : Z)
    (sigmaSpatial sigmaRange : double) : Image :=
  let offset := Int.div kernelSize 2 in
  for_each_pixel (width input) (height input)
    (bilateral_pixel input offset sigmaSpatial sigmaRange).

Definition applyBilateralFilterFast (input : Image) (kernelSize : Z)
    (sigmaSpatial sigmaRange : double) : Image :=
  let fastKernelSize := Int.min kernelSize 9 in
  applyBilateralFilter input fastKernelSize sigmaSpatial sigmaRange.

(** *** Gaussian blur *)

(** The first kernel loop: [kernel1D[i] = exp(-(x * x) / (2.0 * sigma * sigma))]
    with [x = i - center]. *)
Definition gaussian_raw (kernelSize : Z) (sigma : double) : list double :=
  let center := Int.div kernelSize 2 in
  map (fun i =>
         let x := Int.sub i center in
         dexp (of_int (Int.neg (Int.mul x x)) / (Fin 2 * sigma * sigma))%D)
      (Int.upto kernelSize).

(** [sum += kernel1D[i]], from [0.0]. *)
Definition dsum (l : list double) : double :=
  fold_left dadd l (Fin 0).

(** The second kernel loop: [kernel1D[i] /= sum]. *)
Definition gaussian_kernel (kernelSize : Z) (sigma : double) : list double :=
  let raw := gaussian_raw kernelSize sigma in
  map (fun w => (w / dsum raw)%D) raw.

Record sums3 : Type := mkSums3 { accR : double; accG : double; accB : double }.

Definition sums3_0 : sums3 := mkSums3 (Fin 0) (Fin 0) (Fin 0).

Definition accumulate (s : sums3) (pixel : RGB) (weight : double) : sums3 :=
  mkSums3 (accR s + of_int (r pixel) * weight)%D
          (accG s + of_int (g pixel) * weight)%D
          (accB s + of_int (b pixel) * weight)%D.

Definition store_sums3 (s : sums3) : RGB :=
  mkRGB (to_uchar (accR s)) (to_uchar (accG s)) (to_uchar (accB s)).

(** One pass of the separable filter; [horizontal] selects the axis the
    kernel runs along. *)
Definition gaussian_pass (horizontal : bool) (src : Image)
    (kernel1D : list double) (kernelSize offset : Z) : Image :=
  for_each_pixel (width src) (height src)
    (fun x y =>
       store_sums3
         (fold_left
            (fun s k =>
               let pixel :=
                 if horizontal
                 then at_ src (clamp_coord (Int.sub (Int.add x k) offset)
                                           (width src)) y
                 else at_ src x (clamp_coord (Int.sub (Int.add y k) offset)
                                             (height src)) in
               accumulate s pixel (nth (Z.to_nat k) kernel1D NaN))
            (Int.upto kernelSize) sums3_0)).

(** [std::vector<double> kernel1D(kernelSize)] throws [std::length_error]
    when [kernelSize] is negative: the function then returns nothing. *)
Definition applyGaussianBlur (input : Image) (kernelSize : Z) (sigma : double)
    : option Image :=
  let offset := Int.div kernelSize 2 in
  if kernelSize <? 0 then None
  else
    let kernel1D := gaussian_kernel kernelSize sigma in
    let temp := gaussian_pass true input kernel1D kernelSize offset in
    Some (gaussian_pass false temp kernel1D kernelSize offset).

(** *** Sharpen *)

(** The kernel after the scaling loop: [kernel[1][1] = 1 + 4 * amount], and
    every entry with [i != 1 || j != 1] is overwritten with [-amount].  No
    entry keeps the value of the initialiser
    [{0,-1,0},{-1,5,-1},{0,-1,0}]. *)
Definition sharpen_kernel (amount : double) (i j : Z) : double :=
  if negb (i =? 1) || negb (j =? 1) then (- amount)%D
  else (of_int 1 + of_int 4 * amount)%D.

Definition sharpen_sums (input : Image) (amount : double) (x y : Z) : sums3 :=
  fold_left
    (fun s ky =>
       fold_left
         (fun s kx =>
            let px := clamp_coord (Int.sub (Int.add x kx) 1) (width input) in
            let py := clamp_coord (Int.sub (Int.add y ky) 1) (height input) in
            accumulate s (at_ input px py) (sharpen_kernel amount ky kx))
         (Int.upto 3) s)
    (Int.upto 3) sums3_0.

Definition clamp255 (d : double) : double :=
  std_min (Fin 255) (std_max (Fin 0) d).

Definition applySharpen (input : Image) (amount : double) : Image :=
  for_each_pixel (width input) (height input)
    (fun x y =>
       let s := sharpen_sums input amount x y in
       mkRGB (to_uchar (clamp255 (accR s)))
             (to_uchar (clamp255 (accG s)))
             (to_uchar (clamp255 (accB s)))).

(** A well-formed image: positive dimensions, a buffer of [width * height]
    pixels whose size fits an [int], and 8-bit channels. *)
Definition byte (z : Z) : Prop := 0 <= z <= 255.

Definition pixel_ok (p : RGB) : Prop := byte (r p) /\ byte (g p) /\ byte (b p).

Definition Image_wf (img : Image) : Prop :=
  0 < width img /\ 0 < height img /\
  width img * height img <= Int.max_int /\
  Z.of_nat (length (pixels img)) = width img * height img /\
  Forall pixel_ok (pixels img).
End Tester.

(** ** The [cv::Mat] interface

    OpenCV is a library the repository links against; what follows models the
    calls the sources make, from OpenCV's documentation.  A matrix holds
    [rows * cols * channels] samples, row by row with the channels of a pixel
    next to one another.  A sample of any depth is kept as the [double] it
    converts to (the conversion to [CV_32F] or [CV_64F] is exact for 8-bit and
    16-bit samples). *)

Module CV.
Local Open Scope Z_scope.

Inductive Depth : Type :=
| CV_8U | CV_8S | CV_16U | CV_16S | CV_32S | CV_32F | CV_64F.

Definition Depth_eqb (a b : Depth) : bool :=
  match a, b with
  | CV_8U, CV_8U | CV_8S, CV_8S | CV_16U, CV_16U | CV_16S, CV_16S
  | CV_32S, CV_32S | CV_32F, CV_32F | CV_64F, CV_64F => true
  | _, _ => false
  end.

Record Mat : Type := mkMat {
  rows : Z;
  cols : Z;
  channels : Z;
  depth : Depth;
  data : list double
}.

(** [cv::Mat()] *)
Definition Mat_empty : Mat := mkMat 0 0 1 CV_8U [].

(** [Mat::total()], [Mat::empty()], equality of [Mat::size()] and of
    [Mat::type()]. *)
Definition total (m : Mat) : Z := rows m * cols m.
Definition empty (m : Mat) : bool := total m =? 0.
Definition size_eqb (a b : Mat) : bool :=
  (rows a =? rows b) && (cols a =? cols b).
Definition type_eqb (a b : Mat) : bool :=
  Depth_eqb (depth a) (depth b) && (channels a =? channels b).

(** A matrix as OpenCV builds one: a buffer of the right size, and between
    one and four channels (the most [cv::sum] and [cv::mean] accept). *)
Definition Mat_wf (m : Mat) : Prop :=
  0 <= rows m /\ 0 <= cols m /\ 1 <= channels m <= 4 /\
  Z.of_nat (length (data m)) = rows m * cols m * channels m.

(** Every sample is a finite number. *)
Definition finite (d : double) : Prop := exists x, d = Fin x.
Definition Mat_finite (m : Mat) : Prop := Forall finite (data m).

(** An 8-bit sample. *)
Definition sample_8U (d : double) : Prop :=
  exists z, d = of_int z /\ 0 <= z <= 255.

Definition with_data (m : Mat) (dep : Depth) (l : list double) : Mat :=
  mkMat (rows m) (cols m) (channels m) dep l.

(** [m.convertTo(dst, depth)] to a floating-point depth. *)
Definition convertTo (m : Mat) (dep : Depth) : Mat :=
  with_data m dep (data m).

Definition map2 (f : double -> double -> double) (a b : list double)
    : list double :=
  map (fun p => f (fst p) (snd p)) (combine a b).

(** [a - b], [a + b], [a.mul(b)], [cv::divide(a, b, dst)]: sample by
    sample. *)
Definition sub (a b : Mat) : Mat := with_data a (depth a) (map2 dsub (data a) (data b)).
Definition add (a b : Mat) : Mat := with_data a (depth a) (map2 dadd (data a) (data b)).
Definition mul (a b : Mat) : Mat := with_data a (depth a) (map2 dmul (data a) (data b)).
Definition divide (a b : Mat) : Mat := with_data a (depth a) (map2 ddiv (data a) (data b)).

(** [s * a] for a number [s]. *)
Definition scale (s : double) (a : Mat) : Mat :=
  with_data a (depth a) (map (dmul s) (data a)).

Fixpoint mapi_from (A B : Type) (f : nat -> A -> B) (i : nat) (l : list A)
    : list B :=
  match l with
  | [] => []
  | x :: t => f i x :: mapi_from f (S i) t
  end.

(** The channel the [i]-th sample of the buffer belongs to. *)
Definition channel_of (m : Mat) (i : nat) : Z := Z.of_nat i mod channels m.

(** [a + s] for a number [s]: the number converts to [cv::Scalar(s, 0, 0, 0)],
    so it is added to the first channel, and zero to the others. *)
Definition add_scalar (a : Mat) (s : double) : Mat :=
  with_data a (depth a)
    (mapi_from (fun i v => if channel_of a i =? 0 then (v + s)%D
                           else (v + Fin 0)%D) 0%nat (data a)).

(** The samples of channel [c], in buffer order. *)
Definition channel (m : Mat) (c : Z) : list double :=
  map snd
    (filter (fun p => channel_of m (fst p) =? c)
            (combine (seq 0 (length (data m))) (data m))).

Definition dsum (l : list double) : double := fold_left dadd l (Fin 0).

(** [cv::sum(m)] and [cv::mean(m)]: a [cv::Scalar], one entry per channel
    and zero in the entries past the last channel. *)
Definition sum (m : Mat) : list double :=
  map (fun c => if c <? channels m then dsum (channel m c) else Fin 0)
      (Int.upto 4).

Definition mean (m : Mat) : list double :=
  map (fun c => if c <? channels m
                then (dsum (channel m c) / of_int (total m))%D
                else Fin 0)
      (Int.upto 4).

(** [s[i]] of a [cv::Scalar]. *)
Definition scalar_at (s : list double) (i : Z) : double :=
  nth (Z.to_nat i) s NaN.

(** [cv::Mat::zeros(size, type)] *)
Definition zeros (r c cn : Z) (dep : Depth) : Mat :=
  mkMat r c cn dep (repeat (Fin 0) (Z.to_nat (r * c * cn))).

(** *** [cv::GaussianBlur] on a floating-point matrix *)

Definition Rsum (l : list R) : R := fold_right Rplus 0%R l.

(** [cv::getGaussianKernel(n, sigma)] for odd [n] and positive [sigma]: the
    weights [exp(-(i - (n-1)/2)^2 / (2 sigma^2))], scaled to sum to one. *)
Definition getGaussianKernel (n : Z) (sigma : R) : list R :=
  let raw :=
    map (fun i => exp (- (IZR (i - (n - 1) / 2) * IZR (i - (n - 1) / 2))
                       / (2 * sigma * sigma))%R)
        (Int.upto n) in
  map (fun e => (e / Rsum raw)%R) raw.

(** [cv::borderInterpolate(p, len, BORDER_REFLECT_101)], the default border
    of [cv::GaussianBlur]: [gfedcb|abcdefgh|gfedcba]. *)
Definition reflect101 (p len : Z) : Z :=
  if len <=? 1 then 0
  else
    let period := 2 * (len - 1) in
    let q := p mod period in
    if q <? len then q else period - q.

(** The taps of the blur at pixel [(y, x)], channel [c]: a weight and the
    index in the buffer of the sample it multiplies. *)
Definition taps (m : Mat) (n : Z) (sigma : R) (y x c : Z) : list (R * nat) :=
  let k := getGaussianKernel n sigma in
  flat_map
    (fun dy =>
       map (fun dx =>
              let sy := reflect101 (y + dy - n / 2) (rows m) in
              let sx := reflect101 (x + dx - n / 2) (cols m) in
              ((nth (Z.to_nat dy) k 0 * nth (Z.to_nat dx) k 0)%R,
               Z.to_nat ((sy * cols m + sx) * channels m + c)))
           (Int.upto n))
    (Int.upto n).

(** The weighted sum of the samples a list of taps selects. *)
Definition apply_taps (src : list double) (t : list (R * nat)) : double :=
  fold_left (fun s wi => (s + Fin (fst wi) * nth (snd wi) src NaN)%D)
            t (Fin 0).

(** [cv::GaussianBlur(src, dst, cv::Size(n, n), sigma)]: each sample of
    [dst] is the Gaussian-weighted average of the [n] x [n] neighbourhood
    of the sample in its own channel. *)
Definition GaussianBlur (src : Mat) (n : Z) (sigma : R) : Mat :=
  with_data src (depth src)
    (mapi_from
       (fun i _ =>
          let c := Z.of_nat i mod channels src in
          let x := (Z.of_nat i / channels src) mod cols src in
          let y := Z.of_nat i / channels src / cols src in
          apply_taps (data src) (taps src n sigma y x c))
       0%nat (data src)).

(** *** [Mat::at<cv::Vec3b>(y, x)[c]]

    The accessor addresses the byte at [y * step + x * 3 + c], where [step]
    is the length of a row in bytes.  For an 8-bit matrix a byte is a
    sample and [step] is [cols * channels]; matrices of another depth are
    outside this model of the accessor.  The accessor does no bounds check
    in a release build: an access past the buffer is undefined behaviour,
    which the model renders as reading [NaN] and as a write that is
    dropped. *)
Definition Vec3b_offset (m : Mat) (y x c : Z) : nat :=
  Z.to_nat (y * (cols m * channels m) + x * 3 + c).

Definition at_Vec3b (m : Mat) (y x c : Z) : double :=
  nth (Vec3b_offset m y x c) (data m) NaN.

Fixpoint list_set (A : Type) (l : list A) (n : nat) (v : A) : list A :=
  match l, n with
  | [], _ => []
  | _ :: t, O => v :: t
  | h :: t, S n' => h :: list_set t n' v
  end.

Definition set_Vec3b (m : Mat) (y x c : Z) (v : double) : Mat :=
  with_data m (depth m) (list_set (data m) (Vec3b_offset m y x c) v).
End CV.

(** ** [filters.cpp] *)

Module Filters.
Import CV.
Local Open Scope Z_scope.

Section GaussianBlur.
(** [cv::GaussianBlur(input, output, cv::Size(w, h), sigmaX, sigmaY)] for
    arbitrary arguments: the library call, which either fills [output] or
    throws. *)
Variable cv_GaussianBlur : Mat -> Z -> Z -> double -> double -> option Mat.

Definition applyGaussianBlur (input : Mat) (kernelSize : Z) (sigma : double)
    : option Mat :=
  let kernelSize :=
    if Int.rem kernelSize 2 =? 0 then Int.add kernelSize 1 else kernelSize in
  cv_GaussianBlur input kernelSize kernelSize sigma sigma.
End GaussianBlur.

(** The body of the innermost loop of [applyUnsharpMask]: the value stored
    for a sample. *)
Definition unsharp_sample (orig_val blur_val amount threshold : double)
    : double :=
  let detail := (orig_val - blur_val)%D in
  let detail := if dltb (dabs detail) threshold then Fin 0 else detail in
  let sharpened := (orig_val + amount * detail)%D in
  let sharpened := std_min (Fin 255) (std_max (Fin 0) sharpened) in
  of_int (to_uchar sharpened).

Definition unsharp_store (original blurred : Mat) (amount threshold : double)
    (y x : Z) (output : Mat) (c : Z) : Mat :=
  set_Vec3b output y x c
    (unsharp_sample (at_Vec3b original y x c) (at_Vec3b blurred y x c)
                    amount threshold).

Definition applyUnsharpMask (original blurred : Mat)
    (amount threshold : double) : Mat :=
  if empty original || empty blurred then Mat_empty
  else if negb (size_eqb original blurred) then Mat_empty
  else if negb (channels original =? channels blurred) then Mat_empty
  else
    let output :=
      zeros (rows original) (cols original) (channels original)
            (depth original) in
    fold_left
      (fun out y =>
         fold_left
           (fun out x =>
              fold_left (unsharp_store original blurred amount threshold y x)
                        (Int.upto (channels original)) out)
           (Int.upto (cols original)) out)
      (Int.upto (rows original)) output.

Definition calculateCompositeScore (psnr ssim : double) : double :=
  if dltb psnr (Fin 0) || dltb ssim (Fin 0) then Fin (-1)
  else
    let normalized_psnr := std_min (psnr / Fin 50)%D (Fin 1) in
    (Fin 0.5 * normalized_psnr + Fin 0.5 * ssim)%D.
End Filters.

(** ** [psnr.cpp] *)

Module Psnr.
Import CV.
Local Open Scope Z_scope.

(** [sse], the sum of [sum_squared_error[i]] over the channels. *)
Definition sum_of_squared_errors (original compressed : Mat) : double :=
  let orig_float := convertTo original CV_64F in
  let comp_float := convertTo compressed CV_64F in
  let diff := sub orig_float comp_float in
  let diff := mul diff diff in
  let sum_squared_error := sum diff in
  fold_left (fun sse i => (sse + scalar_at sum_squared_error i)%D)
            (Int.upto (channels original)) (Fin 0).

(** [mse = sse / total_pixels] *)
Definition mean_squared_error (original compressed : Mat) : double :=
  let sse := sum_of_squared_errors original compressed in
  let total_pixels := of_int (total original * channels original) in
  (sse / total_pixels)%D.

Definition max_pixel_value (m : Mat) : double :=
  match depth m with
  | CV_8U => Fin 255
  | CV_16U => Fin 65535
  | _ => Fin 1
  end.

Definition calculatePSNR (original compressed : Mat) : double :=
  if empty original || empty compressed then Fin (-1)
  else if negb (size_eqb original compressed) then Fin (-1)
  else if negb (channels original =? channels compressed) then Fin (-1)
  else
    let mse := mean_squared_error original compressed in
    if deqb mse (Fin 0) then PInf
    else
      let max_pixel_value := max_pixel_value original in
      (Fin 10 * dlog10 (max_pixel_value * max_pixel_value / mse))%D.
End Psnr.

(** ** [ssim.cpp] *)

Module Ssim.
Import CV.
Local Open Scope Z_scope.

Definition C1 : double := (Fin 0.01 * Fin 255 * (Fin 0.01 * Fin 255))%D.
Definition C2 : double := (Fin 0.03 * Fin 255 * (Fin 0.03 * Fin 255))%D.

(** Parts 3 to 8 of [computeSSIM]: the map of the SSIM of each sample. *)
Definition ssimMap (imageA imageB : Mat) : Mat :=
  let floatImageA := convertTo imageA CV_32F in
  let floatImageB := convertTo imageB CV_32F in
  let imageA_squared := mul floatImageA floatImageA in
  let imageB_squared := mul floatImageB floatImageB in
  let imageA_times_B := mul floatImageA floatImageB in
  let meanA := GaussianBlur floatImageA 11 1.5 in
  let meanB := GaussianBlur floatImageB 11 1.5 in
  let meanA_squared := mul meanA meanA in
  let meanB_squared := mul meanB meanB in
  let meanA_times_meanB := mul meanA meanB in
  let varianceA := sub (GaussianBlur imageA_squared 11 1.5) meanA_squared in
  let varianceB := sub (GaussianBlur imageB_squared 11 1.5) meanB_squared in
  let covariance :=
    sub (GaussianBlur imageA_times_B 11 1.5) meanA_times_meanB in
  let luminance_numerator :=
    add_scalar (scale (Fin 2) meanA_times_meanB) C1 in
  let structure_numerator := add_scalar (scale (Fin 2) covariance) C2 in
  let numerator := mul luminance_numerator structure_numerator in
  let luminance_denominator :=
    add_scalar (add meanA_squared meanB_squared) C1 in
  let contrast_denominator := add_scalar (add varianceA varianceB) C2 in
  let denominator := mul luminance_denominator contrast_denominator in
  divide numerator denominator.

Definition computeSSIM (imageA imageB : Mat) : double :=
  if empty imageA || empty imageB then Fin (-1)
  else if negb ((rows imageA =? rows imageB) && (cols imageA =? cols imageB))
  then Fin (-1)
  else if negb (type_eqb imageA imageB) then Fin (-1)
  else
    let meanSSIM := mean (ssimMap imageA imageB) in
    scalar_at meanSSIM 0.
End Ssim.

Unset Implicit Arguments.

(** ** Notions the statements use

    Predicates, test buffers and the formula of the specification that
    the theorems of Part II are stated with. *)

(** A sample that is exactly zero. *)
Definition is_zero (d : double) : Prop := d = Fin 0.

(** The shape of a matrix: what [Vec3b_offset] and the loop bounds read. *)
Definition same_shape (a b : CV.Mat) : Prop :=
  CV.rows a = CV.rows b /\ CV.cols a = CV.cols b
  /\ CV.channels a = CV.channels b /\ CV.depth a = CV.depth b.

(** The matrix [m] has the dimensions of [A] and a buffer of its length. *)
Definition like (A m : CV.Mat) : Prop :=
  CV.rows m = CV.rows A /\ CV.cols m = CV.cols A
  /\ CV.channels m = CV.channels A
  /\ length (CV.data m) = length (CV.data A).

(** The iterations of the three loops, in order. *)
Definition unsharp_iterations (A : CV.Mat) : list (Z * Z * Z) :=
  flat_map
    (fun y => flat_map (fun x => map (fun c => (y, x, c))
                                     (Int.upto (CV.channels A)))
                       (Int.upto (CV.cols A)))
    (Int.upto (CV.rows A)).

(** The value of a finite sample. *)
Definition to_R (d : double) : R :=
  match d with Fin x => x | _ => 0%R end.

(** The weighted sum, over the taps [t], of the values [v] gives the
    samples. *)
Definition tap_sum (v : nat -> R) (t : list (R * nat)) : R :=
  CV.Rsum (map (fun wi => (fst wi * v (snd wi))%R) t).

(** *** Room for rounding

    The model computes on real numbers; the code rounds the result of every
    operation to a [double].  A statement about a value that the code
    truncates to an integer leaves room for that: [truncated n s v] says
    that the integer [s] is what [n] truncations leave of a value that is
    [v] up to [slack], at most [v] and less than [n] below it. *)
Definition slack : R := (1 / 1000)%R.

Definition truncated (n : Z) (s : Z) (v : R) : Prop :=
  (v - IZR n - slack < IZR s <= v + slack)%R.

(** The smallest spread that the statements about the Gaussian weights
    cover.  In [double] arithmetic the product [2 * sigma * sigma] is zero
    for a spread below about 1.5e-162, and the weight of the offset 0 is
    then [exp (0 / 0)]; the products of the model are never rounded to
    zero. *)
Definition sigma_min : R := (/ 10 ^ 100)%R.

(** The buffer of the scenarios: 4 x 4, one 8-bit channel, every sample
    equal to [v]. *)
Definition uniform_4x4 (v : Z) : CV.Mat :=
  CV.mkMat 4 4 1 CV.CV_8U (repeat (of_int v) 16).

(** Small test buffers and images. *)
Definition bgr_1x1 : CV.Mat :=
  CV.mkMat 1 1 3 CV.CV_8U [of_int 10; of_int 20; of_int 30].

Definition gray_1x2 : CV.Mat :=
  CV.mkMat 1 2 1 CV.CV_8U [of_int 10; of_int 20].

Definition two_tone : Tester.Image :=
  Tester.mkImage 2 1 [Tester.mkRGB 10 20 30; Tester.mkRGB 12 22 32].

Definition grey_3x3 : Tester.Image :=
  Tester.mkImage 3 3 (repeat (Tester.mkRGB 100 100 100) 9).

Definition dark_bright : Tester.Image :=
  Tester.mkImage 2 1 [Tester.mkRGB 1 1 1; Tester.mkRGB 255 255 255].

(** Three pixels in a row: two black, one light. *)
Definition dark_dark_light : Tester.Image :=
  Tester.mkImage 3 1
    [Tester.mkRGB 0 0 0; Tester.mkRGB 0 0 0; Tester.mkRGB 120 120 120].

(** *** The formula of the specification for the bilateral filter

    The weighted mean that the specification gives for the bilateral filter,
    on real numbers and unbounded integers: the neighbourhood of offsets
    [-o .. o] on both axes, clamped to the image, with the weight
    [exp(-|p-q|^2 / (2 sigma_s^2)) * exp(-colorDist(p,q)^2 / (2 sigma_r^2))]. *)
Module BilateralSpec.
Import Tester.
Local Open Scope Z_scope.

Definition color_dist (p q : RGB) : Z :=
  (r p - r q) * (r p - r q) + (g p - g q) * (g p - g q)
  + (b p - b q) * (b p - b q).

Definition clamp (n bound : Z) : Z := Z.max 0 (Z.min n (bound - 1)).

Definition neighbour (img : Image) (x y : Z) (k : Z * Z) : RGB :=
  at_ img (clamp (x + fst k) (width img)) (clamp (y + snd k) (height img)).

(** The offsets [(kx, ky)] of the neighbourhood, [ky] outside. *)
Definition window (o : Z) : list (Z * Z) :=
  flat_map (fun ky => map (fun kx => (kx, ky)) (Int.range (- o) o))
           (Int.range (- o) o).

Definition weight (img : Image) (ss sr : R) (x y : Z) (k : Z * Z) : R :=
  let d := color_dist (at_ img x y) (neighbour img x y k) in
  (exp (- IZR (fst k * fst k + snd k * snd k) / (2 * ss * ss))
   * exp (- IZR (d * d) / (2 * sr * sr)))%R.

(** [sum w(p,q) * q / sum w(p,q)] for the channel [ch]. *)
Definition weighted_mean (img : Image) (o : Z) (ss sr : R) (x y : Z)
    (ch : RGB -> Z) : R :=
  (CV.Rsum (map (fun k => weight img ss sr x y k * IZR (ch (neighbour img x y k)))
                (window o))
   / CV.Rsum (map (weight img ss sr x y) (window o)))%R.

(** The offsets of a square of [k] by [k] pixels that starts at the offsets
    [lx] and [ly]. *)
Definition square (lx ly k : Z) : list (Z * Z) :=
  flat_map (fun ky => map (fun kx => (kx, ky)) (Int.range lx (lx + k - 1)))
           (Int.range ly (ly + k - 1)).

(** [sum w(p,q) * q / sum w(p,q)] over the offsets [T]. *)
Definition mean_over (img : Image) (T : list (Z * Z)) (ss sr : R) (x y : Z)
    (ch : RGB -> Z) : R :=
  (CV.Rsum (map (fun k => weight img ss sr x y k * IZR (ch (neighbour img x y k)))
                T)
   / CV.Rsum (map (weight img ss sr x y) T))%R.

(** The colour distances whose square fits an [int]. *)
Definition square_fits_int (d : Z) : Prop := d <= 46340.
End BilateralSpec.

(** *** The formula of the sharpen filter

    What the loops of [applySharpen] add up for a pixel, on real numbers:
    the centre weighs [1 + 4 a], each of its eight clamped neighbours
    [-a]. *)
Module SharpenSpec.
Import Tester.
Local Open Scope Z_scope.

(** The offsets of the eight neighbours of a pixel. *)
Definition ring : list (Z * Z) :=
  [(-1, -1); (0, -1); (1, -1); (-1, 0); (1, 0); (-1, 1); (0, 1); (1, 1)].

(** [(1 + 4 a) * centre - a * (sum of the eight clamped neighbours)]. *)
Definition sharpened (img : Image) (a : R) (x y : Z) (ch : RGB -> Z) : R :=
  ((1 + 4 * a) * IZR (ch (at_ img x y))
   - a * CV.Rsum (map (fun k => IZR (ch (BilateralSpec.neighbour img x y k)))
                      ring))%R.

(** [min(255, max(0, v))] on real numbers. *)
Definition clamped (v : R) : R := (Rmin 255 (Rmax 0 v))%R.
End SharpenSpec.

(** Every pixel of the image is [p]. *)
Definition flat (img : Tester.Image) (p : Tester.RGB) : Prop :=
  Forall (fun q => q = p) (Tester.pixels img).

(** *** The formula of the Gaussian blur of [tester.cpp]

    A pass of the separable filter as a weighted mean over real numbers,
    truncated when it is stored. *)
Module GaussianSpec.
Import Tester.
Local Open Scope Z_scope.

(** The weight of the tap [j] of a kernel of [k] taps, before scaling. *)
Definition tap_weight (k : Z) (sigma : R) (j : Z) : R :=
  exp (- IZR ((j - k / 2) * (j - k / 2)) / (2 * sigma * sigma)).

(** The pixel the tap [j] reads at [(x, y)]: along the row in the
    horizontal pass, along the column in the vertical one. *)
Definition tap (horizontal : bool) (img : Image) (k x y j : Z) : RGB :=
  BilateralSpec.neighbour img x y
    (if horizontal then (j - k / 2, 0) else (0, j - k / 2)).

(** The weighted mean of the taps of a pass at [(x, y)]. *)
Definition blurred (horizontal : bool) (img : Image) (k : Z) (sigma : R)
    (x y : Z) (ch : RGB -> Z) : R :=
  (CV.Rsum (map (fun j => tap_weight k sigma j
                          * IZR (ch (tap horizontal img k x y j)))
                (Int.upto k))
   / CV.Rsum (map (tap_weight k sigma) (Int.upto k)))%R.

(** One pass, each channel the truncated weighted mean. *)
Definition pass (horizontal : bool) (img : Image) (k : Z) (sigma : R) : Image :=
  for_each_pixel (width img) (height img)
    (fun x y =>
       mkRGB (to_uchar (Fin (blurred horizontal img k sigma x y r)))
             (to_uchar (Fin (blurred horizontal img k sigma x y g)))
             (to_uchar (Fin (blurred horizontal img k sigma x y b)))).

(** The weighted mean, along the column, of the weighted means along the
    rows: what the two passes compute when nothing is rounded or
    truncated. *)
Definition ideal (img : Image) (k : Z) (sigma : R) (x y : Z) (ch : RGB -> Z)
    : R :=
  (CV.Rsum
     (map (fun j =>
             tap_weight k sigma j
             * blurred true img k sigma x
                 (BilateralSpec.clamp (y + (j - k / 2)) (height img)) ch)
          (Int.upto k))
   / CV.Rsum (map (tap_weight k sigma) (Int.upto k)))%R.
End GaussianSpec.

(** Two finite samples less than [t] apart. *)
Definition within (t : R) (a b : double) : Prop :=
  exists x y : R, a = Fin x /\ b = Fin y /\ (Rabs (x - y) < t)%R.

(** The squared difference of two samples. *)
Definition sq_err (p : double * double) : R :=
  ((to_R (fst p) - to_R (snd p)) * (to_R (fst p) - to_R (snd p)))%R.

(** *** The structural similarity index

    The index of one window from its five statistics, and the window
    [computeSSIM] uses. *)
Module SsimSpec.
(** The two constants of the index, [(0.01 * 255)^2] and [(0.03 * 255)^2]. *)
Definition c1 : R := 0.01 * 255 * (0.01 * 255).
Definition c2 : R := 0.03 * 255 * (0.03 * 255).

(** The index from the five statistics of a window: the two means and the
    three second moments. *)
Definition index (mu_a mu_b e_aa e_bb e_ab : R) : R :=
  ((2 * (mu_a * mu_b) + c1) * (2 * (e_ab - mu_a * mu_b) + c2)
   / ((mu_a * mu_a + mu_b * mu_b + c1)
      * ((e_aa - mu_a * mu_a) + (e_bb - mu_b * mu_b) + c2)))%R.

(** The taps of the 11 x 11 window, sigma 1.5, of the sample [i]. *)
Definition window_taps (A : CV.Mat) (i : nat) : list (R * nat) :=
  CV.taps A 11 1.5
    (Z.of_nat i / CV.channels A / CV.cols A)
    ((Z.of_nat i / CV.channels A) mod CV.cols A)
    (Z.of_nat i mod CV.channels A).

(** The index of the sample [i] of [A] against [B]. *)
Definition at_sample (A B : CV.Mat) (i : nat) : R :=
  let T := window_taps A i in
  let a := fun j => to_R (nth j (CV.data A) NaN) in
  let b := fun j => to_R (nth j (CV.data B) NaN) in
  index (tap_sum a T) (tap_sum b T)
        (tap_sum (fun j => a j * a j)%R T) (tap_sum (fun j => b j * b j)%R T)
        (tap_sum (fun j => a j * b j)%R T).
End SsimSpec.

(** The indices of the samples of the first channel. *)
Definition first_channel (A : CV.Mat) : list nat :=
  filter (fun i => (CV.channel_of A i =? 0)%Z) (seq 0 (length (CV.data A))).

(** The checks of [computeSSIM] pass. *)
Definition comparable (A B : CV.Mat) : Prop :=
  CV.empty A = false /\ CV.rows A = CV.rows B /\ CV.cols A = CV.cols B
  /\ CV.type_eqb A B = true.

(** More test buffers: a pixel close to [bgr_1x1], a pixel that shares its
    first channel only, and two pixels side by side, dark and bright, with
    the same swapped. *)
Definition bgr_1x1_soft : CV.Mat :=
  CV.mkMat 1 1 3 CV.CV_8U [of_int 12; of_int 18; of_int 30].

Definition bgr_1x1_first : CV.Mat :=
  CV.mkMat 1 1 3 CV.CV_8U [of_int 10; of_int 99; of_int 77].

Definition dark_then_bright : CV.Mat :=
  CV.mkMat 1 2 1 CV.CV_8U [of_int 0; of_int 255].

Definition bright_then_dark : CV.Mat :=
  CV.mkMat 1 2 1 CV.CV_8U [of_int 255; of_int 0].

(** ** [main.cpp]

    The two modes and the dispatch of [main], as functions of what the
    three library calls return: [cv::imread], [cv::GaussianBlur] (through
    [applyGaussianBlur]) and [cv::imwrite].  A mode gives the value it
    returns (and the testing mode the verdict it prints), or nothing when a
    library call throws.  The rest of the text the modes print is left
    out. *)
Module Main.
Import CV.
Local Open Scope Z_scope.
Local Open Scope string_scope.

Inductive Verdict : Type := PASS | FAIL.

Section Program.
(** [cv::imread(path, cv::IMREAD_COLOR)]: empty when the file cannot be
    read. *)
Variable imread : String.string -> Mat.
Variable cv_GaussianBlur : Mat -> Z -> Z -> double -> double -> option Mat.
(** [cv::imwrite(path, img)]: whether the file was written, or nothing when
    the call throws.  Its result is not looked at. *)
Variable imwrite : String.string -> Mat -> option bool.

Definition runTestingMode (cleanImagePath compressedImagePath : String.string)
    : option (Z * option Verdict) :=
  let cleanImage := imread cleanImagePath in
  if empty cleanImage then Some (-1, None)
  else
    let compressedImage := imread compressedImagePath in
    if empty compressedImage then Some (-1, None)
    else if negb (size_eqb cleanImage compressedImage) then Some (-1, None)
    else
      let baselinePSNR := Psnr.calculatePSNR cleanImage compressedImage in
      if dltb baselinePSNR (Fin 0) then Some (-1, None)
      else
        let baselineSSIM := Ssim.computeSSIM cleanImage compressedImage in
        if dltb baselineSSIM (Fin 0) then Some (-1, None)
        else
          let baselineComposite :=
            Filters.calculateCompositeScore baselinePSNR baselineSSIM in
          match Filters.applyGaussianBlur cv_GaussianBlur compressedImage 5
                  (Fin 1) with
          | None => None
          | Some blurredImage =>
              if empty blurredImage then Some (-1, None)
              else
                let enhancedImage :=
                  Filters.applyUnsharpMask compressedImage blurredImage
                    (Fin 1.5) (Fin 0) in
                if empty enhancedImage then Some (-1, None)
                else
                  match imwrite "output_enhanced.jpg" enhancedImage with
                  | None => None
                  | Some _ =>
                  let enhancedPSNR :=
                    Psnr.calculatePSNR cleanImage enhancedImage in
                  if dltb enhancedPSNR (Fin 0) then Some (-1, None)
                  else
                    let enhancedSSIM :=
                      Ssim.computeSSIM cleanImage enhancedImage in
                    if dltb enhancedSSIM (Fin 0) then Some (-1, None)
                    else
                      let enhancedComposite :=
                        Filters.calculateCompositeScore enhancedPSNR
                          enhancedSSIM in
                      Some (0, Some (if dltb baselineComposite enhancedComposite
                                     then PASS else FAIL))
                  end
          end.

Definition runPracticalMode (compressedImagePath : String.string) : option Z :=
  let compressedImage := imread compressedImagePath in
  if empty compressedImage then Some (-1)
  else
    match Filters.applyGaussianBlur cv_GaussianBlur compressedImage 5 (Fin 1) with
    | None => None
    | Some blurredImage =>
        if empty blurredImage then Some (-1)
        else
          let enhancedImage :=
            Filters.applyUnsharpMask compressedImage blurredImage
              (Fin 1.5) (Fin 0) in
          if empty enhancedImage then Some (-1)
          else
            match imwrite "output_blurred.jpg" blurredImage with
            | None => None
            | Some _ =>
                match imwrite "output_enhanced.jpg" enhancedImage with
                | None => None
                | Some _ =>
                    let psnr :=
                      Psnr.calculatePSNR compressedImage enhancedImage in
                    if dltb psnr (Fin 0) then Some (-1)
                    else
                      let ssim :=
                        Ssim.computeSSIM compressedImage enhancedImage in
                      if dltb ssim (Fin 0) then Some (-1) else Some 0
                end
            end
    end.

(** [main(argc, argv)], with [argc] the length of [argv]. *)
Definition main (argv : list String.string) : option Z :=
  let argc := Z.of_nat (length argv) in
  if argc <? 3 then Some (-1)
  else
    let mode := nth 1 argv String.EmptyString in
    if String.eqb mode "--test" || String.eqb mode "-t" then
      if negb (argc =? 4) then Some (-1)
      else
        option_map fst
          (runTestingMode (nth 2 argv String.EmptyString)
                          (nth 3 argv String.EmptyString))
    else if String.eqb mode "--practical" || String.eqb mode "-p" then
      if negb (argc =? 3) then Some (-1)
      else runPracticalMode (nth 2 argv String.EmptyString)
    else Some (-1).
End Program.
End Main.

(** What [cv::imread] returns for a file it can read: a non-empty 8-bit
    matrix of three channels. *)
Definition loaded (img : CV.Mat) : Prop :=
  CV.Mat_wf img /\ CV.empty img = false /\ CV.depth img = CV.CV_8U
  /\ CV.channels img = 3%Z /\ Forall CV.sample_8U (CV.data img).

(** The library blurs [img] to [blurred]: an 8-bit matrix of the size and
    the channels of [img], as [cv::GaussianBlur] documents. *)
Definition blurs_to
    (lib : CV.Mat -> Z -> Z -> double -> double -> option CV.Mat)
    (img blurred : CV.Mat) : Prop :=
  lib img 5%Z 5%Z (Fin 1) (Fin 1) = Some blurred
  /\ CV.empty blurred = false /\ CV.size_eqb img blurred = true
  /\ CV.channels img = CV.channels blurred /\ CV.depth blurred = CV.CV_8U.

(* ================================================================== *)
(** * Part II: properties *)
(* ================================================================== *)

(** ** Arithmetic *)

Lemma Rltb_true (x y : R) : (x < y)%R -> Rltb x y = true.
Proof. intros H. unfold Rltb. destruct (Rlt_dec x y); [reflexivity | contradiction]. Qed.

Lemma Rltb_false (x y : R) : (y <= x)%R -> Rltb x y = false.
Proof. intros H. unfold Rltb. destruct (Rlt_dec x y); [lra | reflexivity]. Qed.

Lemma Rleb_true (x y : R) : (x <= y)%R -> Rleb x y = true.
Proof. intros H. unfold Rleb. destruct (Rle_dec x y); [reflexivity | contradiction]. Qed.

Lemma Reqb_true (x y : R) : x = y -> Reqb x y = true.
Proof. intros H. unfold Reqb. destruct (Req_dec_T x y); [reflexivity | contradiction]. Qed.

Lemma Reqb_false (x y : R) : x <> y -> Reqb x y = false.
Proof. intros H. unfold Reqb. destruct (Req_dec_T x y); [contradiction | reflexivity]. Qed.

Lemma Rleb_spec (x y : R) : Rleb x y = true <-> (x <= y)%R.
Proof. unfold Rleb. destruct (Rle_dec x y); split; intros; (assumption || reflexivity || discriminate || contradiction). Qed.

Lemma Int_part_between (x : R) (z : Z) :
  (IZR z <= x < IZR z + 1)%R -> Int_part x = z.
Proof. intros H. symmetry. apply Int_part_spec. lra. Qed.

Lemma Rtrunc_nonneg (x : R) (z : Z) :
  (0 <= x)%R -> (IZR z <= x < IZR z + 1)%R -> Rtrunc x = z.
Proof.
  intros H0 H. unfold Rtrunc. destruct (Rle_dec 0 x); [|contradiction].
  now apply Int_part_between.
Qed.

Lemma to_uchar_floor (x : R) (z : Z) :
  (0 <= z <= 255)%Z -> (IZR z <= x < IZR z + 1)%R -> to_uchar (Fin x) = z.
Proof.
  intros Hz Hx. unfold to_uchar.
  assert (H0 : (0 <= x)%R) by (pose proof (IZR_le 0 z (proj1 Hz)); lra).
  rewrite (Rtrunc_nonneg x z H0 Hx).
  unfold Int.min_int, Int.max_int.
  replace ((-2147483648 <=? z) && (z <=? 2147483647))%Z with true
    by (symmetry; apply andb_true_iff; split; apply Z.leb_le; lia).
  apply Z.mod_small. lia.
Qed.

Lemma to_uchar_of_int (z : Z) : (0 <= z <= 255)%Z -> to_uchar (of_int z) = z.
Proof. intros Hz. apply to_uchar_floor; [assumption | lra]. Qed.

Lemma to_uchar_Fin_IZR (z : Z) :
  (0 <= z <= 255)%Z -> to_uchar (Fin (IZR z)) = z.
Proof. exact (to_uchar_of_int z). Qed.

Lemma wrap_in_range (z : Z) : Int.in_range z -> Int.wrap z = z.
Proof.
  unfold Int.in_range, Int.min_int, Int.max_int, Int.wrap. intros H.
  rewrite Z.mod_small by lia. lia.
Qed.

Lemma Int_min_spec (a b : Z) : Int.min a b = Z.min a b.
Proof. unfold Int.min. destruct (Z.ltb_spec b a); lia. Qed.

Lemma Int_max_spec (a b : Z) : Int.max a b = Z.max a b.
Proof. unfold Int.max. destruct (Z.ltb_spec a b); lia. Qed.

(** ** The fast bilateral filter *)

(** C8: the fast variant is the bilateral filter run with the kernel size
    [min(k, 9)], whatever the image and the spreads; when [k <= 9] it is the
    bilateral filter itself. *)
Theorem applyBilateralFilterFast_caps_kernel :
  forall (input : Tester.Image) (k : Z) (sigmaSpatial sigmaRange : double),
    Tester.applyBilateralFilterFast input k sigmaSpatial sigmaRange
    = Tester.applyBilateralFilter input (Z.min k 9) sigmaSpatial sigmaRange
    /\ ((k <= 9)%Z ->
        Tester.applyBilateralFilterFast input k sigmaSpatial sigmaRange
        = Tester.applyBilateralFilter input k sigmaSpatial sigmaRange).
Proof.
  intros input k ss sr. unfold Tester.applyBilateralFilterFast.
  rewrite Int_min_spec. split; [reflexivity|].
  intros Hk. now rewrite Z.min_l.
Qed.

Lemma applyBilateralFilterFast_caps_kernel_witness :
  let img := Tester.mkImage 1 1 [Tester.mkRGB 10 20 30] in
  Tester.applyBilateralFilterFast img 5 (Fin 1) (Fin 1)
  = Tester.applyBilateralFilter img 5 (Fin 1) (Fin 1).
Proof.
  intros img.
  apply (proj2 (applyBilateralFilterFast_caps_kernel img 5 (Fin 1) (Fin 1))).
  lia.
Defined.

(** ** The composite score *)

Lemma std_min_Fin (a b : R) : std_min (Fin a) (Fin b) = Fin (Rmin a b).
Proof.
  unfold std_min, dltb, Rltb, Rmin.
  destruct (Rlt_dec b a), (Rle_dec a b); try reflexivity; lra.
Qed.

Lemma std_max_Fin (a b : R) : std_max (Fin a) (Fin b) = Fin (Rmax a b).
Proof.
  unfold std_max, dltb, Rltb, Rmax.
  destruct (Rlt_dec a b), (Rle_dec a b); try reflexivity; try lra.
  f_equal. lra.
Qed.

Lemma ddiv_Fin (a b : R) : b <> 0%R -> (Fin a / Fin b)%D = Fin (a / b).
Proof. intros H. unfold ddiv. now rewrite Reqb_false. Qed.

(** C7: on non-negative inputs the score is
    [0.5 * min(psnr / 50, 1) + 0.5 * ssim], an infinite PSNR included; a
    negative input gives the sentinel [-1]; a PSNR of at least 50 (or
    infinite) with an SSIM of 1 gives exactly 1, and PSNR 0 with SSIM 0 gives
    exactly 0. *)
Theorem calculateCompositeScore_spec :
  (forall psnr ssim : double,
      dleb (Fin 0) psnr = true -> dleb (Fin 0) ssim = true ->
      Filters.calculateCompositeScore psnr ssim
      = (Fin 0.5 * std_min (psnr / Fin 50) (Fin 1) + Fin 0.5 * ssim)%D)
  /\ (forall p s : R,
      (0 <= p)%R -> (0 <= s)%R ->
      Filters.calculateCompositeScore (Fin p) (Fin s)
      = Fin (0.5 * Rmin (p / 50) 1 + 0.5 * s))
  /\ (forall psnr ssim : double,
      dltb psnr (Fin 0) = true \/ dltb ssim (Fin 0) = true ->
      Filters.calculateCompositeScore psnr ssim = Fin (-1))
  /\ (forall psnr : double,
      dleb (Fin 50) psnr = true ->
      Filters.calculateCompositeScore psnr (Fin 1) = Fin 1)
  /\ Filters.calculateCompositeScore (Fin 0) (Fin 0) = Fin 0.
Proof.
  assert (guard : forall psnr ssim,
             dleb (Fin 0) psnr = true -> dleb (Fin 0) ssim = true ->
             dltb psnr (Fin 0) || dltb ssim (Fin 0) = false).
  { intros [p| | |] [s| | |]; simpl; try discriminate; intros Hp Hs;
      try reflexivity.
    - apply Rleb_spec in Hp, Hs. rewrite !Rltb_false by assumption. reflexivity.
    - apply Rleb_spec in Hp. rewrite Rltb_false by assumption. reflexivity.
    - apply Rleb_spec in Hs. rewrite Rltb_false by assumption. reflexivity. }
  assert (finite_case : forall p s : R,
             (0 <= p)%R -> (0 <= s)%R ->
             Filters.calculateCompositeScore (Fin p) (Fin s)
             = Fin (0.5 * Rmin (p / 50) 1 + 0.5 * s)).
  { intros p s Hp Hs. unfold Filters.calculateCompositeScore.
    rewrite guard by (simpl; now apply Rleb_true).
    rewrite ddiv_Fin by lra. rewrite std_min_Fin. reflexivity. }
  split; [|split; [|split; [|split]]].
  - intros psnr ssim Hp Hs. unfold Filters.calculateCompositeScore.
    now rewrite guard.
  - exact finite_case.
  - intros psnr ssim H. unfold Filters.calculateCompositeScore.
    destruct H as [H | H]; rewrite H; [reflexivity | now rewrite orb_true_r].
  - intros [p| | |] H; simpl in H; try discriminate.
    + apply Rleb_spec in H. rewrite finite_case by lra.
      f_equal. unfold Rmin. destruct (Rle_dec (p / 50) 1); lra.
    + unfold Filters.calculateCompositeScore. simpl.
      rewrite (Rltb_false 1 0) by lra. simpl.
      rewrite (Rltb_false 50 0) by lra.
      unfold std_min. simpl. f_equal. lra.
  - rewrite finite_case by lra. f_equal.
    unfold Rmin. destruct (Rle_dec (0 / 50) 1); lra.
Qed.

Lemma calculateCompositeScore_spec_witness :
  Filters.calculateCompositeScore (Fin 25) (Fin 0.5)
  = Fin (0.5 * Rmin (25 / 50) 1 + 0.5 * 0.5).
Proof.
  apply (proj1 (proj2 calculateCompositeScore_spec) 25%R 0.5%R); lra.
Defined.

(** ** Evaluation on concrete images *)

(** Reads of a concrete image are computed; they involve integers only. *)
Ltac eval_at :=
  repeat match goal with
  | |- context [Tester.at_ ?i ?x ?y] =>
      let v := eval vm_compute in (Tester.at_ i x y) in
      change (Tester.at_ i x y) with v
  end.

Ltac eval_sums3 :=
  unfold Tester.accumulate;
  cbn [Tester.accR Tester.accG Tester.accB Tester.sums3_0
       Tester.r Tester.g Tester.b];
  unfold of_int; cbn [dadd dmul dneg].

Lemma clamp255_Fin (x : R) :
  Tester.clamp255 (Fin x) = Fin (Rmin 255 (Rmax 0 x)).
Proof. unfold Tester.clamp255. now rewrite std_max_Fin, std_min_Fin. Qed.

Lemma to_uchar_clamp255_neg (x : R) :
  (x <= 0)%R -> to_uchar (Tester.clamp255 (Fin x)) = 0%Z.
Proof.
  intros H. rewrite clamp255_Fin.
  rewrite Rmax_left by assumption. rewrite Rmin_right by lra.
  apply (to_uchar_of_int 0). lia.
Qed.

(** ** The Gaussian filter *)

Lemma gaussian_kernel_sigma_opp (k : Z) (s : R) :
  Tester.gaussian_kernel k (Fin (- s)) = Tester.gaussian_kernel k (Fin s).
Proof.
  unfold Tester.gaussian_kernel, Tester.gaussian_raw. simpl dmul.
  replace (2 * - s * - s)%R with (2 * s * s)%R by ring. reflexivity.
Qed.

(** The standard deviation enters the filter through its square only. *)
Lemma applyGaussianBlur_sigma_opp (input : Tester.Image) (k : Z) (s : R) :
  Tester.applyGaussianBlur input k (Fin (- s))
  = Tester.applyGaussianBlur input k (Fin s).
Proof.
  unfold Tester.applyGaussianBlur. now rewrite gaussian_kernel_sigma_opp.
Qed.

(** C2, as stated, fails: with the non-positive spread [-1] the filter does
    not reject anything, it returns what it returns for the spread [1]; and
    with the kernel size [0] it returns a buffer too (a black one, both
    kernel loops being empty). *)
Lemma applyGaussianBlur_accepts_nonpositive :
  let px := Tester.mkImage 1 1 [Tester.mkRGB 100 100 100] in
  Tester.applyGaussianBlur px 3 (Fin (-1)) = Tester.applyGaussianBlur px 3 (Fin 1)
  /\ (exists out, Tester.applyGaussianBlur px 3 (Fin (-1)) = Some out)
  /\ Tester.applyGaussianBlur px 0 (Fin 1)
     = Some (Tester.mkImage 1 1 [Tester.black]).
Proof.
  intros px. split; [|split].
  - apply (applyGaussianBlur_sigma_opp px 3 1).
  - unfold Tester.applyGaussianBlur. change (3 <? 0)%Z with false.
    eexists. reflexivity.
  - unfold Tester.applyGaussianBlur. change (0 <? 0)%Z with false.
    unfold Tester.gaussian_pass, Tester.for_each_pixel.
    change (Int.upto 0) with (@nil Z).
    cbn [Tester.width Tester.height px].
    change (Int.upto 1) with [0%Z].
    cbn [flat_map map fold_left app].
    unfold Tester.store_sums3, Tester.sums3_0.
    cbn [Tester.accR Tester.accG Tester.accB].
    rewrite (to_uchar_Fin_IZR 0) by lia.
    reflexivity.
Qed.

(** C2, amended: neither version checks its parameters.  The version of
    [tester.cpp] fails exactly when the kernel size is negative (the kernel
    vector cannot be built); for every kernel size [k >= 0] and every spread,
    positive or not, it returns a buffer of the dimensions of the input.  The
    version of [filters.cpp] makes an even kernel size odd and hands every
    argument to [cv::GaussianBlur]: its outcome is the library's. *)
Theorem applyGaussianBlur_no_validation :
  forall (input : Tester.Image) (k : Z) (sigma : double),
    (if (k <? 0)%Z
     then Tester.applyGaussianBlur input k sigma = None
     else exists out,
         Tester.applyGaussianBlur input k sigma = Some out
         /\ Tester.width out = Tester.width input
         /\ Tester.height out = Tester.height input)
    /\ forall (lib : CV.Mat -> Z -> Z -> double -> double -> option CV.Mat)
              (m : CV.Mat),
        Filters.applyGaussianBlur lib m k sigma
        = let k' := if (Z.rem k 2 =? 0)%Z then Int.wrap (k + 1) else k in
          lib m k' k' sigma sigma.
Proof.
  intros input k sigma. split.
  - unfold Tester.applyGaussianBlur. destruct (k <? 0)%Z; [reflexivity|].
    eexists. split; [reflexivity|]. split; reflexivity.
  - intros lib m. reflexivity.
Qed.

(** ** The sharpen filter *)

(** C1 (the code departs from the claim): after the scaling loop the four
    corners of the kernel hold [-amount], not [0], so the weights sum to
    [1 - 4 * amount]; with the default amount [1.0] a uniform image of value
    100 comes out black, where the kernel of the claim, whose weights sum to
    one, leaves it unchanged. *)
Theorem applySharpen_corners_weigh_minus_amount :
  (forall amount : double,
      Tester.sharpen_kernel amount 0 0 = (- amount)%D
      /\ Tester.sharpen_kernel amount 0 2 = (- amount)%D
      /\ Tester.sharpen_kernel amount 2 0 = (- amount)%D
      /\ Tester.sharpen_kernel amount 2 2 = (- amount)%D)
  /\ (let grey := Tester.mkRGB 100 100 100 in
      let img := Tester.mkImage 3 3 (repeat grey 9) in
      Tester.applySharpen img (Fin 1)
      = Tester.mkImage 3 3 (repeat Tester.black 9)).
Proof.
  split; [intros amount; repeat split|].
  intros grey img.
  unfold Tester.applySharpen, Tester.for_each_pixel, Tester.sharpen_sums.
  change (Int.upto 3) with [0; 1; 2]%Z.
  cbn [Tester.width Tester.height img].
  change (Int.upto 3) with [0; 1; 2]%Z.
  cbn [flat_map map fold_left app].
  eval_at.
  unfold Tester.sharpen_kernel. cbn [Z.eqb negb orb Pos.eqb].
  eval_sums3.
  rewrite !to_uchar_clamp255_neg by lra.
  reflexivity.
Qed.

(** ** Loop counters *)

Lemma In_range (lo hi i : Z) : In i (Int.range lo hi) <-> (lo <= i <= hi)%Z.
Proof.
  unfold Int.range. rewrite in_map_iff. split.
  - intros [n [<- Hn]]. apply in_seq in Hn. lia.
  - intros H. exists (Z.to_nat (i - lo)). split; [lia|]. apply in_seq. lia.
Qed.

Lemma In_upto (n i : Z) : In i (Int.upto n) <-> (0 <= i < n)%Z.
Proof. unfold Int.upto. rewrite In_range. lia. Qed.

Lemma length_range (lo hi : Z) :
  length (Int.range lo hi) = Z.to_nat (hi - lo + 1).
Proof. unfold Int.range. now rewrite length_map, length_seq. Qed.

Lemma length_upto (n : Z) : length (Int.upto n) = Z.to_nat n.
Proof. unfold Int.upto. rewrite length_range. f_equal. lia. Qed.

(** ** PSNR *)

Lemma map2_sub_self (l : list double) :
  Forall CV.finite l -> Forall is_zero (CV.map2 dsub l l).
Proof.
  unfold CV.map2. induction 1 as [|d l [x ->] _ IH]; simpl; constructor; auto.
  unfold is_zero. simpl. f_equal. ring.
Qed.

Lemma map2_mul_zero (l : list double) :
  Forall is_zero l -> Forall is_zero (CV.map2 dmul l l).
Proof.
  unfold CV.map2. induction 1 as [|d l -> _ IH]; simpl; constructor; auto.
  unfold is_zero. simpl. f_equal. ring.
Qed.

Lemma dsum_zero (l : list double) : Forall is_zero l -> CV.dsum l = Fin 0.
Proof.
  unfold CV.dsum. induction 1 as [|d l -> _ IH]; simpl; [reflexivity|].
  replace (0 + 0)%R with 0%R by ring. exact IH.
Qed.

Lemma Forall_channel (P : double -> Prop) (m : CV.Mat) (c : Z) :
  Forall P (CV.data m) -> Forall P (CV.channel m c).
Proof.
  intros H. unfold CV.channel. apply Forall_forall. intros d Hd.
  apply in_map_iff in Hd. destruct Hd as [[i d'] [<- Hin]].
  apply filter_In in Hin. destruct Hin as [Hin _].
  apply in_combine_r in Hin. simpl. now apply (proj1 (Forall_forall _ _) H).
Qed.

Lemma sum_zero (m : CV.Mat) (i : Z) :
  Forall is_zero (CV.data m) -> (0 <= i < 4)%Z ->
  CV.scalar_at (CV.sum m) i = Fin 0.
Proof.
  intros H Hi. unfold CV.scalar_at, CV.sum.
  change (Int.upto 4) with [0; 1; 2; 3]%Z.
  assert (Hc : forall c, (if (c <? CV.channels m)%Z
                          then CV.dsum (CV.channel m c) else Fin 0) = Fin 0).
  { intros c. destruct (c <? CV.channels m)%Z; [|reflexivity].
    apply dsum_zero. now apply Forall_channel. }
  assert (Hi' : i = 0%Z \/ i = 1%Z \/ i = 2%Z \/ i = 3%Z) by lia.
  destruct Hi' as [-> | [-> | [-> | ->]]]; simpl; apply Hc.
Qed.

Lemma fold_add_zero (f : Z -> double) (l : list Z) :
  (forall i, In i l -> f i = Fin 0) ->
  fold_left (fun s i => (s + f i)%D) l (Fin 0) = Fin 0.
Proof.
  induction l as [|i l IH]; intros H; simpl; [reflexivity|].
  rewrite (H i) by now left. simpl.
  replace (0 + 0)%R with 0%R by ring. apply IH. intros j Hj. apply H. now right.
Qed.

(** The error between a matrix of finite samples and itself is zero. *)
Lemma mean_squared_error_self (A : CV.Mat) :
  CV.Mat_wf A -> CV.empty A = false -> CV.Mat_finite A ->
  Psnr.mean_squared_error A A = Fin 0.
Proof.
  intros (Hr & Hc & Hch & Hlen) Hne Hfin.
  unfold Psnr.mean_squared_error, Psnr.sum_of_squared_errors.
  rewrite fold_add_zero.
  - unfold CV.empty in Hne. apply Z.eqb_neq in Hne.
    unfold of_int. rewrite ddiv_Fin.
    + f_equal. unfold Rdiv. ring.
    + apply not_0_IZR. nia.
  - intros i Hi. apply In_upto in Hi. apply sum_zero; [|lia].
    simpl. apply map2_mul_zero. now apply map2_sub_self.
Qed.

(** C3: a non-empty matrix of finite samples compared with itself has mean
    squared error exactly 0, and [calculatePSNR] returns [+infinity], not the
    error sentinel [-1]; more generally it returns [+infinity] for every
    comparable non-empty matrix at mean squared error 0. *)
Theorem calculatePSNR_self_is_infinite :
  forall A : CV.Mat,
    CV.Mat_wf A -> CV.empty A = false -> CV.Mat_finite A ->
    Psnr.mean_squared_error A A = Fin 0
    /\ Psnr.calculatePSNR A A = PInf
    /\ forall B : CV.Mat,
        CV.empty B = false -> CV.size_eqb A B = true ->
        (CV.channels A =? CV.channels B)%Z = true ->
        Psnr.mean_squared_error A B = Fin 0 ->
        Psnr.calculatePSNR A B = PInf.
Proof.
  intros A Hwf Hne Hfin.
  pose proof (mean_squared_error_self A Hwf Hne Hfin) as Hmse.
  assert (Hzero : forall B : CV.Mat,
             CV.empty B = false -> CV.size_eqb A B = true ->
             (CV.channels A =? CV.channels B)%Z = true ->
             Psnr.mean_squared_error A B = Fin 0 ->
             Psnr.calculatePSNR A B = PInf).
  { intros B HB Hsz Hch HmseB. unfold Psnr.calculatePSNR.
    rewrite Hne, HB, Hsz, Hch, HmseB. simpl. now rewrite Reqb_true. }
  split; [exact Hmse|]. split; [|exact Hzero].
  apply Hzero; try assumption.
  - unfold CV.size_eqb. now rewrite !Z.eqb_refl.
  - apply Z.eqb_refl.
Qed.

Lemma uniform_4x4_wf (v : Z) : CV.Mat_wf (uniform_4x4 v).
Proof. unfold CV.Mat_wf. simpl. lia. Qed.

Lemma uniform_4x4_finite (v : Z) : CV.Mat_finite (uniform_4x4 v).
Proof.
  unfold CV.Mat_finite. simpl. repeat constructor; now exists (IZR v).
Qed.

Lemma calculatePSNR_self_is_infinite_witness :
  Psnr.calculatePSNR (uniform_4x4 100) (uniform_4x4 100) = PInf.
Proof.
  apply (proj1 (proj2 (calculatePSNR_self_is_infinite
                         (uniform_4x4 100) (uniform_4x4_wf 100) eq_refl
                         (uniform_4x4_finite 100)))).
Defined.

Lemma map_snd_combine_seq (A : Type) (l : list A) (s : nat) :
  map snd (combine (seq s (length l)) l) = l.
Proof.
  revert s. induction l as [|x l IH]; intros s; simpl; [reflexivity|].
  now rewrite IH.
Qed.

(** With one channel, the sum of the first channel is the sum of the buffer. *)
Lemma sum_single_channel (m : CV.Mat) :
  CV.channels m = 1%Z -> CV.scalar_at (CV.sum m) 0 = CV.dsum (CV.data m).
Proof.
  intros H. unfold CV.scalar_at, CV.sum.
  change (Int.upto 4) with [0; 1; 2; 3]%Z. simpl. rewrite H. simpl.
  f_equal. unfold CV.channel.
  rewrite forallb_filter_id.
  - apply map_snd_combine_seq.
  - apply forallb_forall. intros [i d] _. unfold CV.channel_of. rewrite H.
    simpl. now rewrite Z.mod_1_r.
Qed.

Lemma ln_10_pos : (0 < ln 10)%R.
Proof. rewrite <- ln_1. apply ln_increasing; lra. Qed.

Lemma Rlog10_lower (x : R) (p q : nat) :
  (0 < x)%R -> (0 < q)%nat -> (10 ^ p < x ^ q)%R ->
  (INR p / INR q < Rlog10 x)%R.
Proof.
  intros Hx Hq H.
  assert (H10 : (0 < 10 ^ p)%R) by (apply pow_lt; lra).
  apply ln_increasing in H; [|assumption].
  rewrite !ln_pow in H by lra.
  pose proof ln_10_pos as L. pose proof (lt_0_INR q Hq) as Q.
  unfold Rlog10.
  apply Rmult_lt_reg_r with (INR q * ln 10)%R; [nra|].
  field_simplify; [|lra|lra]. lra.
Qed.

Lemma Rlog10_upper (x : R) (p q : nat) :
  (0 < x)%R -> (0 < q)%nat -> (x ^ q < 10 ^ p)%R ->
  (Rlog10 x < INR p / INR q)%R.
Proof.
  intros Hx Hq H.
  assert (Hxq : (0 < x ^ q)%R) by (apply pow_lt; lra).
  apply ln_increasing in H; [|assumption].
  rewrite !ln_pow in H by lra.
  pose proof ln_10_pos as L. pose proof (lt_0_INR q Hq) as Q.
  unfold Rlog10.
  apply Rmult_lt_reg_r with (INR q * ln 10)%R; [nra|].
  field_simplify; [|lra|lra]. lra.
Qed.

(** [10 * log10(65025 / 100)] lies between 28.13 and 28.14:
    [10^4813 < 65025^1000 < 10^4814]. *)
Lemma psnr_value_bounds :
  (28.13 < 10 * Rlog10 (255 * 255 / 100) < 28.14)%R.
Proof.
  assert (Hx : (0 < 255 * 255 / 100)%R) by lra.
  assert (Hpow : forall q : nat,
             ((255 * 255 / 100) ^ q * 100 ^ q = 65025 ^ q)%R).
  { intros q. rewrite <- Rpow_mult_distr. f_equal. lra. }
  split.
  - assert (H : (INR 2813 / INR 1000 < Rlog10 (255 * 255 / 100))%R).
    { apply Rlog10_lower; [assumption | lia |].
      apply Rmult_lt_reg_r with (100 ^ 1000)%R; [apply pow_lt; lra|].
      rewrite Hpow. rewrite !pow_IZR, <- mult_IZR. apply IZR_lt.
      vm_compute. reflexivity. }
    rewrite !INR_IZR_INZ in H.
    change (Z.of_nat 2813) with 2813%Z in H.
    change (Z.of_nat 1000) with 1000%Z in H.
    lra.
  - assert (H : (Rlog10 (255 * 255 / 100) < INR 2814 / INR 1000)%R).
    { apply Rlog10_upper; [assumption | lia |].
      apply Rmult_lt_reg_r with (100 ^ 1000)%R; [apply pow_lt; lra|].
      rewrite Hpow. rewrite !pow_IZR, <- mult_IZR. apply IZR_lt.
      vm_compute. reflexivity. }
    rewrite !INR_IZR_INZ in H.
    change (Z.of_nat 2814) with 2814%Z in H.
    change (Z.of_nat 1000) with 1000%Z in H.
    lra.
Qed.

(** C9: for the 4 x 4 buffers of 100s and of 110s the mean squared error is
    exactly 100, and the PSNR is [10 * log10(65025 / 100)], a value between
    28.13 and 28.14 dB. *)
Theorem calculatePSNR_scenario_100_110 :
  Psnr.mean_squared_error (uniform_4x4 100) (uniform_4x4 110) = Fin 100
  /\ Psnr.calculatePSNR (uniform_4x4 100) (uniform_4x4 110)
     = Fin (10 * Rlog10 (65025 / 100))
  /\ (28.13 < 10 * Rlog10 (65025 / 100) < 28.14)%R.
Proof.
  replace (65025 / 100)%R with (255 * 255 / 100)%R by lra.
  assert (Hmse : Psnr.mean_squared_error (uniform_4x4 100) (uniform_4x4 110)
                 = Fin 100).
  { unfold Psnr.mean_squared_error, Psnr.sum_of_squared_errors.
    change (Int.upto (CV.channels (uniform_4x4 100))) with [0%Z].
    cbn [fold_left]. rewrite sum_single_channel by reflexivity.
    unfold uniform_4x4, CV.convertTo, CV.sub, CV.mul, CV.with_data, CV.map2,
      CV.dsum, CV.total, of_int.
    cbn [CV.data CV.rows CV.cols CV.channels CV.depth repeat combine map
         fst snd fold_left dadd dsub dmul dneg].
    change (4 * 4 * 1)%Z with 16%Z.
    rewrite ddiv_Fin by lra. f_equal. lra. }
  split; [exact Hmse|]. split; [|exact psnr_value_bounds].
  unfold Psnr.calculatePSNR. rewrite Hmse.
  change (CV.empty (uniform_4x4 100) || CV.empty (uniform_4x4 110)) with false.
  change (CV.size_eqb (uniform_4x4 100) (uniform_4x4 110)) with true.
  change (CV.channels (uniform_4x4 100) =? CV.channels (uniform_4x4 110))%Z
    with true.
  cbn [negb deqb]. rewrite Reqb_false by lra.
  unfold Psnr.max_pixel_value. cbn [CV.depth uniform_4x4 dmul].
  rewrite ddiv_Fin by lra. cbn [dlog10]. rewrite Rltb_true by lra.
  cbn [dmul]. reflexivity.
Qed.

(** ** The unsharp mask *)

Lemma length_list_set (A : Type) (l : list A) (n : nat) (v : A) :
  length (CV.list_set l n v) = length l.
Proof.
  revert n. induction l as [|h t IH]; intros [|n]; simpl; auto.
Qed.

Lemma nth_list_set_eq (A : Type) (l : list A) (n : nat) (v d : A) :
  (n < length l)%nat -> nth n (CV.list_set l n v) d = v.
Proof.
  revert n. induction l as [|h t IH]; intros [|n] H; simpl in *; try lia; auto.
  apply IH. lia.
Qed.

Lemma nth_list_set_neq (A : Type) (l : list A) (n i : nat) (v d : A) :
  i <> n -> nth i (CV.list_set l n v) d = nth i l d.
Proof.
  revert n i. induction l as [|h t IH]; intros [|n] [|i] H; simpl; auto; try lia.
Qed.

(** A sequence of stores [l[o] = src[o]], one for each offset of [offs]:
    the cells named by [offs] end up holding the samples of [src], the other
    cells are left as they were. *)
Lemma copy_stores (offs : list nat) (src : list double) :
  forall l : list double,
    length l = length src ->
    let l' := fold_left (fun l o => CV.list_set l o (nth o src NaN)) offs l in
    length l' = length src
    /\ forall i, nth i l' NaN
                 = if in_dec Nat.eq_dec i offs then nth i src NaN
                   else nth i l NaN.
Proof.
  induction offs as [|o offs IH]; intros l Hlen; simpl.
  - split; [assumption | reflexivity].
  - destruct (IH (CV.list_set l o (nth o src NaN))) as [Hl Hn].
    { now rewrite length_list_set. }
    split; [exact Hl|]. intros i. rewrite Hn.
    destruct (in_dec Nat.eq_dec i offs) as [Hin | Hnin].
    + destruct (Nat.eq_dec o i); reflexivity.
    + destruct (Nat.eq_dec o i) as [-> | Hne].
      * destruct (Nat.lt_ge_cases i (length l)) as [Hlt | Hge].
        -- now apply nth_list_set_eq.
        -- rewrite !nth_overflow; try reflexivity; try lia.
           now rewrite length_list_set.
      * apply nth_list_set_neq. congruence.
Qed.

(** With the blurred image equal to the original, a finite amount and the
    threshold 0, an 8-bit sample is stored back unchanged. *)
Lemma unsharp_sample_same (d : double) (amount : R) :
  CV.sample_8U d ->
  Filters.unsharp_sample d d (Fin amount) (Fin 0) = d.
Proof.
  intros [z [-> Hz]]. unfold Filters.unsharp_sample, of_int.
  cbn [dsub dneg dadd dabs dltb].
  rewrite Rltb_false by apply Rabs_pos.
  cbn [dmul dadd].
  rewrite std_max_Fin, std_min_Fin.
  replace (IZR z + amount * (IZR z + - IZR z))%R with (IZR z) by ring.
  assert (H0 : (0 <= IZR z)%R) by (apply (IZR_le 0 z); lia).
  assert (H255 : (IZR z <= 255)%R) by (apply (IZR_le z 255); lia).
  rewrite Rmax_right by assumption. rewrite Rmin_right by assumption.
  now rewrite to_uchar_Fin_IZR.
Qed.

(** The three loops of [applyUnsharpMask] as one sequence of stores. *)
Lemma unsharp_loops_as_stores (A : CV.Mat) (amount : R)
    (T : list (Z * Z * Z)) :
  (forall y x c, In (y, x, c) T ->
                 (CV.Vec3b_offset A y x c < length (CV.data A))%nat) ->
  Forall CV.sample_8U (CV.data A) ->
  forall out : CV.Mat,
    same_shape out A ->
    fold_left
      (fun out t =>
         let '(y, x, c) := t in
         Filters.unsharp_store A A (Fin amount) (Fin 0) y x out c) T out
    = CV.with_data A (CV.depth A)
        (fold_left (fun l o => CV.list_set l o (nth o (CV.data A) NaN))
                   (map (fun t => let '(y, x, c) := t in CV.Vec3b_offset A y x c) T)
                   (CV.data out)).
Proof.
  intros Hin H8. induction T as [|[[y x] c] T IH]; intros out Hs; simpl.
  - destruct out as [r c cn dp dt], A as [r' c' cn' dp' dt'].
    destruct Hs as (H1 & H2 & H3 & H4). simpl in *. now subst.
  - rewrite IH.
    + f_equal. f_equal.
      unfold Filters.unsharp_store, CV.set_Vec3b, CV.with_data. simpl.
      assert (Hoff : CV.Vec3b_offset out y x c = CV.Vec3b_offset A y x c).
      { unfold CV.Vec3b_offset. destruct Hs as (_ & -> & -> & _). reflexivity. }
      rewrite Hoff. f_equal. unfold CV.at_Vec3b.
      apply unsharp_sample_same.
      apply (proj1 (Forall_forall _ _) H8). apply nth_In.
      apply (Hin y x c). now left.
    + intros y' x' c' Ht. apply Hin. now right.
    + unfold Filters.unsharp_store, CV.set_Vec3b, CV.with_data, same_shape.
      simpl. exact Hs.
Qed.

Lemma fold_left_flat_map (A B C : Type) (f : A -> C -> A) (g : B -> list C)
    (l : list B) (a : A) :
  fold_left f (flat_map g l) a
  = fold_left (fun a x => fold_left f (g x) a) l a.
Proof.
  revert a. induction l as [|x l IH]; intros a; simpl; [reflexivity|].
  now rewrite fold_left_app, IH.
Qed.

Lemma fold_left_map (A B C : Type) (f : A -> C -> A) (g : B -> C)
    (l : list B) (a : A) :
  fold_left f (map g l) a = fold_left (fun a x => f a (g x)) l a.
Proof.
  revert a. induction l as [|x l IH]; intros a; simpl; [reflexivity|]. apply IH.
Qed.

Lemma fold_left_ext (A B : Type) (f g : A -> B -> A) (l : list B) (a : A) :
  (forall a x, f a x = g a x) -> fold_left f l a = fold_left g l a.
Proof.
  intros H. revert a. induction l as [|x l IH]; intros a; simpl; [reflexivity|].
  now rewrite H, IH.
Qed.

Lemma unsharp_loops_flat (A : CV.Mat) (F : Z -> Z -> CV.Mat -> Z -> CV.Mat)
    (out : CV.Mat) :
  fold_left
    (fun out y =>
       fold_left (fun out x => fold_left (F y x) (Int.upto (CV.channels A)) out)
                 (Int.upto (CV.cols A)) out)
    (Int.upto (CV.rows A)) out
  = fold_left (fun out t => let '(y, x, c) := t in F y x out c)
              (unsharp_iterations A) out.
Proof.
  unfold unsharp_iterations. rewrite fold_left_flat_map.
  apply fold_left_ext. intros a y. rewrite fold_left_flat_map.
  apply fold_left_ext. intros a' x. now rewrite fold_left_map.
Qed.

Lemma In_unsharp_iterations (A : CV.Mat) (y x c : Z) :
  In (y, x, c) (unsharp_iterations A)
  <-> (0 <= y < CV.rows A /\ 0 <= x < CV.cols A /\ 0 <= c < CV.channels A)%Z.
Proof.
  unfold unsharp_iterations. rewrite in_flat_map. split.
  - intros [y' [Hy H]]. apply in_flat_map in H. destruct H as [x' [Hx H]].
    apply in_map_iff in H. destruct H as [c' [Heq Hc]].
    inversion Heq; subst. apply In_upto in Hy, Hx, Hc. tauto.
  - intros (Hy & Hx & Hc). exists y. split; [now apply In_upto|].
    apply in_flat_map. exists x. split; [now apply In_upto|].
    apply in_map_iff. exists c. split; [reflexivity | now apply In_upto].
Qed.

(** C6, amended: for every non-empty 8-bit matrix [A] of three channels and
    every finite amount, the unsharp mask of [A] against itself with the
    threshold 0 is [A]. *)
Theorem applyUnsharpMask_same_is_identity :
  forall (A : CV.Mat) (amount : R),
    CV.Mat_wf A -> CV.empty A = false ->
    CV.depth A = CV.CV_8U -> CV.channels A = 3%Z ->
    Forall CV.sample_8U (CV.data A) ->
    Filters.applyUnsharpMask A A (Fin amount) (Fin 0) = A.
Proof.
  intros A amount (Hr & Hc & Hch & Hlen) Hne Hdep H3 H8.
  unfold Filters.applyUnsharpMask. rewrite Hne. simpl.
  unfold CV.size_eqb. rewrite !Z.eqb_refl. simpl.
  rewrite unsharp_loops_flat.
  assert (Hrc : (0 < CV.rows A /\ 0 < CV.cols A)%Z).
  { unfold CV.empty, CV.total in Hne. apply Z.eqb_neq in Hne. nia. }
  assert (Hin : forall y x c, In (y, x, c) (unsharp_iterations A) ->
                   (CV.Vec3b_offset A y x c < length (CV.data A))%nat).
  { intros y x c H. apply In_unsharp_iterations in H.
    unfold CV.Vec3b_offset. rewrite H3 in *. nia. }
  rewrite (unsharp_loops_as_stores A amount _ Hin H8)
    by (unfold same_shape, CV.zeros; simpl; tauto).
  set (offs := map _ (unsharp_iterations A)).
  assert (Hz : length (CV.data (CV.zeros (CV.rows A) (CV.cols A)
                                         (CV.channels A) (CV.depth A)))
               = length (CV.data A)).
  { simpl. rewrite repeat_length. lia. }
  destruct (copy_stores offs (CV.data A) _ Hz) as [Hl Hn].
  destruct A as [r c cn dp dt]. unfold CV.with_data. simpl in *. f_equal.
  apply nth_ext with (d := NaN) (d' := NaN); [exact Hl|].
  intros i Hi. rewrite Hn.
  destruct (in_dec Nat.eq_dec i offs) as [_ | Hnin]; [reflexivity|].
  exfalso. apply Hnin. unfold offs. apply in_map_iff.
  rewrite Hl in Hi. subst cn.
  exists ((Z.of_nat i / (c * 3))%Z, (Z.of_nat i mod (c * 3) / 3)%Z,
          (Z.of_nat i mod 3)%Z).
  assert (Hc3 : (0 < c * 3)%Z) by lia.
  pose proof (Z.div_mod (Z.of_nat i) (c * 3) ltac:(lia)) as E1.
  pose proof (Z.mod_pos_bound (Z.of_nat i) (c * 3) Hc3) as B1.
  pose proof (Z.div_mod (Z.of_nat i mod (c * 3)) 3 ltac:(lia)) as E2.
  pose proof (Z.mod_pos_bound (Z.of_nat i mod (c * 3)) 3 ltac:(lia)) as B2.
  assert (E3 : ((Z.of_nat i mod (c * 3)) mod 3 = Z.of_nat i mod 3)%Z).
  { rewrite Z.mul_comm. rewrite Z.rem_mul_r by lia.
    rewrite Z.mul_comm, Z.mod_add by lia. apply Z.mod_mod. lia. }
  rewrite E3 in E2, B2.
  split.
  - unfold CV.Vec3b_offset. simpl. lia.
  - apply In_unsharp_iterations. simpl.
    assert (Hq : (0 <= Z.of_nat i / (c * 3) < r)%Z).
    { split; [apply Z.div_pos; lia|]. apply Z.div_lt_upper_bound; nia. }
    assert (Hx : (0 <= Z.of_nat i mod (c * 3) / 3 < c)%Z).
    { split; [apply Z.div_pos; lia|]. apply Z.div_lt_upper_bound; lia. }
    lia.
Qed.

Lemma applyUnsharpMask_same_is_identity_witness :
  Filters.applyUnsharpMask bgr_1x1 bgr_1x1 (Fin 1.5) (Fin 0) = bgr_1x1.
Proof.
  apply (applyUnsharpMask_same_is_identity bgr_1x1 1.5%R).
  - unfold CV.Mat_wf. simpl. lia.
  - reflexivity.
  - reflexivity.
  - reflexivity.
  - simpl. repeat constructor; eexists; (split; [reflexivity | lia]).
Defined.

(** What is stored when the accessor reads past the buffer. *)
Lemma unsharp_sample_NaN (amount threshold : double) :
  Filters.unsharp_sample NaN NaN amount threshold = Fin 0.
Proof.
  unfold Filters.unsharp_sample. cbn [dsub dneg dadd dabs dltb].
  destruct amount; cbn [dmul dadd]; unfold std_max; cbn [dltb];
    rewrite std_min_Fin, Rmin_right by lra;
    unfold of_int; now rewrite (to_uchar_Fin_IZR 0) by lia.
Qed.

(** What is stored when the amount is infinite: [inf * 0] is [NaN], which
    [std::max(0.0, NaN)] turns into 0. *)
Lemma unsharp_sample_infinite_amount (z : Z) :
  Filters.unsharp_sample (of_int z) (of_int z) PInf (Fin 0) = Fin 0.
Proof.
  unfold Filters.unsharp_sample, of_int. cbn [dsub dneg dadd dabs dltb].
  rewrite Rltb_false by apply Rabs_pos.
  cbn [dmul]. unfold inf_signed. rewrite Reqb_true by ring.
  cbn [dadd]. unfold std_max. cbn [dltb].
  rewrite std_min_Fin, Rmin_right by lra.
  now rewrite (to_uchar_Fin_IZR 0) by lia.
Qed.

(** C6, as stated, fails twice.  On a one-channel buffer the accessor
    [at<cv::Vec3b>] strides three samples per pixel: of the buffer [10, 20]
    the sample 20 is never stored, and its cell keeps the 0 of
    [cv::Mat::zeros].  And with an infinite amount [amount * detail] is
    [inf * 0 = NaN], so every sample of a three-channel buffer comes out 0. *)
Lemma applyUnsharpMask_same_not_identity :
  (Filters.applyUnsharpMask gray_1x2 gray_1x2 (Fin 1.5) (Fin 0)
   = CV.mkMat 1 2 1 CV.CV_8U [of_int 10; Fin 0]
   /\ Filters.applyUnsharpMask gray_1x2 gray_1x2 (Fin 1.5) (Fin 0) <> gray_1x2)
  /\ (Filters.applyUnsharpMask bgr_1x1 bgr_1x1 PInf (Fin 0)
      = CV.mkMat 1 1 3 CV.CV_8U [Fin 0; Fin 0; Fin 0]
      /\ Filters.applyUnsharpMask bgr_1x1 bgr_1x1 PInf (Fin 0) <> bgr_1x1).
Proof.
  assert (H1 : Filters.applyUnsharpMask gray_1x2 gray_1x2 (Fin 1.5) (Fin 0)
               = CV.mkMat 1 2 1 CV.CV_8U [of_int 10; Fin 0]).
  { unfold Filters.applyUnsharpMask.
    change (CV.empty gray_1x2) with false.
    change (CV.size_eqb gray_1x2 gray_1x2) with true.
    change (CV.channels gray_1x2 =? CV.channels gray_1x2)%Z with true.
    cbn [orb negb].
    change (Int.upto (CV.rows gray_1x2)) with [0%Z].
    change (Int.upto (CV.cols gray_1x2)) with [0; 1]%Z.
    change (Int.upto (CV.channels gray_1x2)) with [0%Z].
    cbn [fold_left].
    unfold Filters.unsharp_store, CV.set_Vec3b, CV.at_Vec3b, CV.with_data,
      CV.zeros.
    cbn [CV.rows CV.cols CV.channels CV.depth CV.data gray_1x2].
    change (CV.Vec3b_offset gray_1x2 0 0 0) with 0%nat.
    change (CV.Vec3b_offset gray_1x2 0 1 0) with 3%nat.
    change (CV.Vec3b_offset (CV.mkMat 1 2 1 CV.CV_8U ?l) 0 0 0) with 0%nat.
    change (Z.to_nat (1 * 2 * 1)) with 2%nat.
    cbn [repeat nth CV.list_set].
    rewrite unsharp_sample_same
      by (exists 10%Z; split; [reflexivity | lia]).
    rewrite unsharp_sample_NaN. reflexivity. }
  assert (H2 : Filters.applyUnsharpMask bgr_1x1 bgr_1x1 PInf (Fin 0)
               = CV.mkMat 1 1 3 CV.CV_8U [Fin 0; Fin 0; Fin 0]).
  { unfold Filters.applyUnsharpMask.
    change (CV.empty bgr_1x1) with false.
    change (CV.size_eqb bgr_1x1 bgr_1x1) with true.
    change (CV.channels bgr_1x1 =? CV.channels bgr_1x1)%Z with true.
    cbn [orb negb].
    change (Int.upto (CV.rows bgr_1x1)) with [0%Z].
    change (Int.upto (CV.cols bgr_1x1)) with [0%Z].
    change (Int.upto (CV.channels bgr_1x1)) with [0; 1; 2]%Z.
    cbn [fold_left].
    unfold Filters.unsharp_store, CV.set_Vec3b, CV.at_Vec3b, CV.with_data,
      CV.zeros.
    cbn [CV.rows CV.cols CV.channels CV.depth CV.data bgr_1x1].
    change (CV.Vec3b_offset bgr_1x1 0 0 0) with 0%nat.
    change (CV.Vec3b_offset bgr_1x1 0 0 1) with 1%nat.
    change (CV.Vec3b_offset bgr_1x1 0 0 2) with 2%nat.
    change (Z.to_nat (1 * 1 * 3)) with 3%nat.
    cbn [repeat nth].
    rewrite !unsharp_sample_infinite_amount. reflexivity. }
  split; (split; [assumption|]).
  - rewrite H1. unfold gray_1x2, of_int. intros E. injection E as E. lra.
  - rewrite H2. unfold bgr_1x1, of_int. intros E. injection E as E _ _. lra.
Qed.

(** ** The bilateral filter *)

Lemma Int_add_small (a b : Z) : Int.in_range (a + b) -> Int.add a b = (a + b)%Z.
Proof. apply wrap_in_range. Qed.

Lemma Int_sub_small (a b : Z) : Int.in_range (a - b) -> Int.sub a b = (a - b)%Z.
Proof. apply wrap_in_range. Qed.

Lemma Int_mul_small (a b : Z) : Int.in_range (a * b) -> Int.mul a b = (a * b)%Z.
Proof. apply wrap_in_range. Qed.

Lemma Int_neg_small (a : Z) : Int.in_range (- a) -> Int.neg a = (- a)%Z.
Proof. apply wrap_in_range. Qed.

Ltac int_range := unfold Int.in_range, Int.min_int, Int.max_int; nia.

Lemma clamp_coord_spec (n bound : Z) :
  Int.in_range (bound - 1) ->
  Tester.clamp_coord n bound = BilateralSpec.clamp n bound.
Proof.
  intros H. unfold Tester.clamp_coord, BilateralSpec.clamp.
  now rewrite Int_sub_small, Int_min_spec, Int_max_spec.
Qed.

Lemma clamp_bounds (n bound : Z) :
  (0 < bound)%Z -> (0 <= BilateralSpec.clamp n bound < bound)%Z.
Proof. unfold BilateralSpec.clamp. lia. Qed.

Lemma two_sq_nonzero (s : R) : (0 < s)%R -> (2 * s * s <> 0)%R.
Proof. intros H. nra. Qed.

Lemma dexp_nonpos (x : R) : (x <= 0)%R -> dexp (Fin x) = Fin (exp x).
Proof. intros H. unfold dexp, exp_max. now rewrite Rltb_false by lra. Qed.

Lemma neg_over_pos (z : Z) (s : R) :
  (0 <= z)%Z -> (0 < s)%R -> (- IZR z / (2 * s * s) <= 0)%R.
Proof.
  intros Hz Hs. apply (IZR_le 0 z) in Hz.
  assert (H : (0 < 2 * s * s)%R) by nra.
  unfold Rdiv. pose proof (Rinv_0_lt_compat _ H). nra.
Qed.

Lemma spatialWeight_Fin (dx dy : Z) (ss : R) :
  (-32767 <= dx <= 32767)%Z -> (-32767 <= dy <= 32767)%Z -> (0 < ss)%R ->
  Tester.spatialWeight dx dy (Fin ss)
  = Fin (exp (- IZR (dx * dx + dy * dy) / (2 * ss * ss))).
Proof.
  intros Hx Hy Hs. unfold Tester.spatialWeight.
  rewrite !Int_mul_small by int_range.
  rewrite Int_add_small by int_range.
  rewrite Int_neg_small by int_range.
  unfold of_int. cbn [dmul]. rewrite ddiv_Fin by now apply two_sq_nonzero.
  rewrite opp_IZR. apply dexp_nonpos. apply neg_over_pos; [nia | assumption].
Qed.

Lemma rangeWeight_Fin (d : Z) (sr : R) :
  (0 <= d <= 46340)%Z -> (0 < sr)%R ->
  Tester.rangeWeight d (Fin sr) = Fin (exp (- IZR (d * d) / (2 * sr * sr))).
Proof.
  intros Hd Hs. unfold Tester.rangeWeight.
  rewrite Int_mul_small by int_range.
  rewrite Int_neg_small by int_range.
  unfold of_int. cbn [dmul]. rewrite ddiv_Fin by now apply two_sq_nonzero.
  rewrite opp_IZR. apply dexp_nonpos. apply neg_over_pos; [nia | assumption].
Qed.

Lemma colorDifference_spec (p q : Tester.RGB) :
  Tester.pixel_ok p -> Tester.pixel_ok q ->
  Tester.colorDifference p q = BilateralSpec.color_dist p q.
Proof.
  unfold Tester.pixel_ok, Tester.byte. intros (Hr & Hg & Hb) (Hr' & Hg' & Hb').
  unfold Tester.colorDifference, BilateralSpec.color_dist.
  rewrite !Int_sub_small by int_range.
  assert (sq : forall d : Z, (-255 <= d <= 255 -> 0 <= d * d <= 65025)%Z)
    by (intros d Hd; nia).
  pose proof (sq (Tester.r p - Tester.r q)%Z ltac:(lia)).
  pose proof (sq (Tester.g p - Tester.g q)%Z ltac:(lia)).
  pose proof (sq (Tester.b p - Tester.b q)%Z ltac:(lia)).
  rewrite !Int_mul_small
    by (unfold Int.in_range, Int.min_int, Int.max_int; lia).
  rewrite (Int_add_small (_ * _) (_ * _))
    by (unfold Int.in_range, Int.min_int, Int.max_int; lia).
  rewrite Int_add_small
    by (unfold Int.in_range, Int.min_int, Int.max_int; lia).
  reflexivity.
Qed.

Lemma color_dist_nonneg (p q : Tester.RGB) :
  (0 <= BilateralSpec.color_dist p q)%Z.
Proof.
  unfold BilateralSpec.color_dist.
  pose proof (Z.square_nonneg (Tester.r p - Tester.r q)).
  pose proof (Z.square_nonneg (Tester.g p - Tester.g q)).
  pose proof (Z.square_nonneg (Tester.b p - Tester.b q)).
  lia.
Qed.

Lemma at_pixel_ok (img : Tester.Image) (x y : Z) :
  Tester.Image_wf img ->
  (0 <= x < Tester.width img)%Z -> (0 <= y < Tester.height img)%Z ->
  Tester.pixel_ok (Tester.at_ img x y).
Proof.
  intros (Hw & Hh & Hsz & Hlen & Hok) Hx Hy. unfold Tester.at_.
  apply (proj1 (Forall_forall _ _) Hok). apply nth_In. nia.
Qed.

(** *** Reading a pixel of the output *)

Lemma nth_range (lo hi : Z) (i : nat) (d : Z) :
  (i < Z.to_nat (hi - lo + 1))%nat ->
  nth i (Int.range lo hi) d = (lo + Z.of_nat i)%Z.
Proof.
  intros H. unfold Int.range.
  rewrite nth_indep with (d' := (lo + Z.of_nat 0)%Z)
    by now rewrite length_map, length_seq.
  rewrite (map_nth (fun i => (lo + Z.of_nat i)%Z)).
  now rewrite seq_nth.
Qed.

Lemma nth_flat_map_rows (A B C : Type) (g : A -> B -> C) (cols : list B)
    (ys : list A) (j i : nat) (d : C) (dy : A) (dx : B) :
  (j < length ys)%nat -> (i < length cols)%nat ->
  nth (j * length cols + i) (flat_map (fun y => map (g y) cols) ys) d
  = g (nth j ys dy) (nth i cols dx).
Proof.
  revert j. induction ys as [|y ys IH]; intros j Hj Hi; simpl in Hj; [lia|].
  simpl flat_map. destruct j as [|j].
  - simpl. rewrite app_nth1 by now rewrite length_map.
    rewrite nth_indep with (d' := g y dx) by now rewrite length_map.
    now rewrite map_nth.
  - rewrite app_nth2 by (rewrite length_map; simpl; lia).
    rewrite length_map.
    replace (S j * length cols + i - length cols)%nat
      with (j * length cols + i)%nat by (simpl; lia).
    simpl nth. apply IH; lia.
Qed.

Lemma at_for_each_pixel (w h : Z) (f : Z -> Z -> Tester.RGB) (x y : Z) :
  (0 <= x < w)%Z -> (0 <= y < h)%Z ->
  Tester.at_ (Tester.for_each_pixel w h f) x y = f x y.
Proof.
  intros Hx Hy. unfold Tester.at_, Tester.for_each_pixel. simpl.
  replace (Z.to_nat (y * w + x))
    with (Z.to_nat y * length (Int.upto w) + Z.to_nat x)%nat
    by (rewrite length_upto; nia).
  rewrite (nth_flat_map_rows _ _ _ (fun y x => f x y) (Int.upto w) (Int.upto h)
             (Z.to_nat y) (Z.to_nat x) Tester.black 0%Z 0%Z)
    by (rewrite length_upto; lia).
  unfold Int.upto. rewrite !nth_range by lia. f_equal; lia.
Qed.

(** *** The sums of the neighbourhood loop *)

Lemma In_window (o : Z) (k : Z * Z) :
  In k (BilateralSpec.window o)
  <-> (- o <= fst k <= o /\ - o <= snd k <= o)%Z.
Proof.
  unfold BilateralSpec.window. rewrite in_flat_map. split.
  - intros [ky [Hky H]]. apply in_map_iff in H. destruct H as [kx [<- Hkx]].
    apply In_range in Hky, Hkx. simpl. lia.
  - intros [Hx Hy]. exists (snd k). split; [now apply In_range|].
    apply in_map_iff. exists (fst k). split; [now destruct k | now apply In_range].
Qed.

Lemma length_window (o : Z) :
  (0 <= o)%Z ->
  Z.of_nat (length (BilateralSpec.window o)) = ((2 * o + 1) * (2 * o + 1))%Z.
Proof.
  intros Ho. unfold BilateralSpec.window.
  assert (H : forall l : list Z,
             length (flat_map (fun ky => map (fun kx => (kx, ky))
                                             (Int.range (- o) o)) l)
             = (length l * length (Int.range (- o) o))%nat).
  { induction l as [|a l IH]; simpl; [reflexivity|].
    now rewrite length_app, length_map, IH. }
  rewrite H, length_range. nia.
Qed.

Lemma Rsum_pos (l : list R) :
  l <> [] -> Forall (fun v => 0 < v)%R l -> (0 < CV.Rsum l)%R.
Proof.
  intros Hne H. induction H as [|v l Hv Hl IH]; [congruence|].
  simpl. destruct l as [|v' l]; [simpl; lra|].
  assert (0 < CV.Rsum (v' :: l))%R by (apply IH; discriminate). lra.
Qed.

Lemma Rsum_cons (x : R) (l : list R) : CV.Rsum (x :: l) = (x + CV.Rsum l)%R.
Proof. reflexivity. Qed.

Section BilateralPixel.
Variables (img : Tester.Image) (ss sr : R) (x y o : Z).
Hypothesis Hwf : Tester.Image_wf img.
Hypothesis Hw : (Tester.width img <= 1073741824)%Z.
Hypothesis Hh : (Tester.height img <= 1073741824)%Z.
Hypothesis Hss : (0 < ss)%R.
Hypothesis Hsr : (0 < sr)%R.
Hypothesis Hx : (0 <= x < Tester.width img)%Z.
Hypothesis Hy : (0 <= y < Tester.height img)%Z.
Hypothesis Ho : (0 <= o <= 32767)%Z.
Hypothesis Hfit :
  forall k, In k (BilateralSpec.window o) ->
    BilateralSpec.square_fits_int
      (BilateralSpec.color_dist (Tester.at_ img x y)
                                (BilateralSpec.neighbour img x y k)).

Let w := BilateralSpec.weight img ss sr x y.
Let nb := BilateralSpec.neighbour img x y.

Lemma neighbour_read (k : Z * Z) :
  In k (BilateralSpec.window o) ->
  Tester.at_ img (Tester.clamp_coord (Int.add x (fst k)) (Tester.width img))
                 (Tester.clamp_coord (Int.add y (snd k)) (Tester.height img))
  = nb k.
Proof.
  intros Hk. apply In_window in Hk. destruct Hwf as (H1 & H2 & _).
  unfold nb, BilateralSpec.neighbour.
  rewrite !Int_add_small by int_range.
  now rewrite !clamp_coord_spec by int_range.
Qed.

Lemma neighbour_ok (k : Z * Z) : Tester.pixel_ok (nb k).
Proof.
  destruct Hwf as (H1 & H2 & _).
  unfold nb, BilateralSpec.neighbour. apply at_pixel_ok; [assumption| |];
    now apply clamp_bounds.
Qed.

Lemma bilateral_weight_Fin (k : Z * Z) :
  In k (BilateralSpec.window o) ->
  Tester.bilateral_weight img (Fin ss) (Fin sr) x y (fst k) (snd k)
  = Fin (w k).
Proof.
  intros Hk. unfold Tester.bilateral_weight.
  rewrite (neighbour_read k Hk).
  pose proof (proj1 (In_window o k) Hk) as [Hkx Hky].
  rewrite spatialWeight_Fin by (assumption || lia).
  rewrite colorDifference_spec
    by (apply neighbour_ok || now apply at_pixel_ok).
  rewrite rangeWeight_Fin.
  - reflexivity.
  - split; [apply color_dist_nonneg | apply (Hfit k Hk)].
  - assumption.
Qed.

Lemma weight_pos (k : Z * Z) : (0 < w k)%R.
Proof.
  unfold w, BilateralSpec.weight. apply Rmult_lt_0_compat; apply exp_pos.
Qed.

(** The accumulators after the iterations [T] of the loop body. *)
Lemma bilateral_fold_Fin (T : list (Z * Z)) :
  (forall k, In k T -> In k (BilateralSpec.window o)) ->
  forall a b c d : R,
    fold_left
      (fun s k => Tester.bilateral_step img (Fin ss) (Fin sr) x y (snd k) s (fst k))
      T (Tester.mkSums (Fin a) (Fin b) (Fin c) (Fin d))
    = Tester.mkSums
        (Fin (a + CV.Rsum (map (fun k => w k * IZR (Tester.r (nb k))) T))%R)
        (Fin (b + CV.Rsum (map (fun k => w k * IZR (Tester.g (nb k))) T))%R)
        (Fin (c + CV.Rsum (map (fun k => w k * IZR (Tester.b (nb k))) T))%R)
        (Fin (d + CV.Rsum (map w T))%R).
Proof.
  induction T as [|k T IH]; intros HT a b c d; simpl.
  - now rewrite !Rplus_0_r.
  - unfold Tester.bilateral_step at 2.
    rewrite (neighbour_read k) by (apply HT; now left).
    rewrite (bilateral_weight_Fin k) by (apply HT; now left).
    unfold of_int. cbn [Tester.sumR Tester.sumG Tester.sumB Tester.sumWeight
                        dadd dmul].
    rewrite IH by (intros k' Hk'; apply HT; now right).
    f_equal; f_equal; ring.
Qed.

Lemma bilateral_sums_window :
  Tester.bilateral_sums img o (Fin ss) (Fin sr) x y
  = fold_left
      (fun s k => Tester.bilateral_step img (Fin ss) (Fin sr) x y (snd k) s (fst k))
      (BilateralSpec.window o) Tester.sums0.
Proof.
  unfold Tester.bilateral_sums, BilateralSpec.window.
  rewrite Int_neg_small by int_range.
  rewrite fold_left_flat_map. apply fold_left_ext. intros s ky.
  now rewrite fold_left_map.
Qed.

Lemma window_nonempty : BilateralSpec.window o <> [].
Proof.
  intros E. assert (H : In (0, 0)%Z (BilateralSpec.window o))
    by (apply In_window; simpl; lia).
  rewrite E in H. contradiction.
Qed.

Lemma bilateral_pixel_weighted_mean :
  Tester.bilateral_pixel img o (Fin ss) (Fin sr) x y
  = Tester.mkRGB
      (to_uchar (Fin (BilateralSpec.weighted_mean img o ss sr x y Tester.r)))
      (to_uchar (Fin (BilateralSpec.weighted_mean img o ss sr x y Tester.g)))
      (to_uchar (Fin (BilateralSpec.weighted_mean img o ss sr x y Tester.b))).
Proof.
  unfold Tester.bilateral_pixel. rewrite bilateral_sums_window.
  unfold Tester.sums0. rewrite bilateral_fold_Fin by auto.
  cbn [Tester.sumR Tester.sumG Tester.sumB Tester.sumWeight].
  assert (Hpos : (0 < CV.Rsum (map w (BilateralSpec.window o)))%R).
  { apply Rsum_pos.
    - intros E. apply map_eq_nil in E. now apply window_nonempty.
    - apply Forall_forall. intros v Hv. apply in_map_iff in Hv.
      destruct Hv as [k [<- _]]. apply weight_pos. }
  rewrite !ddiv_Fin by lra.
  unfold BilateralSpec.weighted_mean. fold w. fold nb.
  rewrite !Rplus_0_l. reflexivity.
Qed.
End BilateralPixel.

(** A weighted mean with positive weights lies between the bounds of the
    values. *)
Lemma weighted_mean_between (A : Type) (w : A -> R) (q : A -> Z) (l : list A)
    (lo hi : Z) :
  l <> [] ->
  (forall k, In k l -> (0 < w k)%R) ->
  (forall k, In k l -> (lo <= q k <= hi)%Z) ->
  (IZR lo <= CV.Rsum (map (fun k => w k * IZR (q k)) l) / CV.Rsum (map w l)
   <= IZR hi)%R.
Proof.
  intros Hne Hw Hq.
  assert (Hpos : (0 < CV.Rsum (map w l))%R).
  { apply Rsum_pos.
    - intros E. apply map_eq_nil in E. contradiction.
    - apply Forall_forall. intros v Hv. apply in_map_iff in Hv.
      destruct Hv as [k [<- Hk]]. now apply Hw. }
  assert (Hb : (IZR lo * CV.Rsum (map w l)
                <= CV.Rsum (map (fun k => w k * IZR (q k)) l)
                <= IZR hi * CV.Rsum (map w l))%R).
  { clear Hne Hpos. induction l as [|k l IH]; simpl; [lra|].
    assert (H1 := Hw k (or_introl eq_refl)).
    destruct (Hq k (or_introl eq_refl)) as [H2 H3].
    apply IZR_le in H2, H3.
    assert (IH' := IH (fun k' Hk' => Hw k' (or_intror Hk'))
                      (fun k' Hk' => Hq k' (or_intror Hk'))).
    nra. }
  split.
  - apply Rmult_le_reg_r with (CV.Rsum (map w l)); [assumption|].
    unfold Rdiv. rewrite Rmult_assoc, Rinv_l by lra. lra.
  - apply Rmult_le_reg_r with (CV.Rsum (map w l)); [assumption|].
    unfold Rdiv. rewrite Rmult_assoc, Rinv_l by lra. lra.
Qed.

Lemma Int_div_2 (k : Z) : (0 <= k <= Int.max_int)%Z -> Int.div k 2 = (k / 2)%Z.
Proof.
  intros H. unfold Int.div. rewrite Z.quot_div_nonneg by lia.
  apply wrap_in_range. unfold Int.in_range, Int.min_int, Int.max_int in *.
  pose proof (Z.div_pos k 2). pose proof (Z.div_le_upper_bound k 2 k).
  lia.
Qed.

Lemma sigma_min_pos : (0 < sigma_min)%R.
Proof.
  unfold sigma_min. apply Rinv_0_lt_compat. apply pow_lt. lra.
Qed.

Lemma sigma_min_le_1 : (sigma_min <= 1)%R.
Proof.
  unfold sigma_min. rewrite <- Rinv_1. apply Rinv_le_contravar; [lra|].
  apply pow_R1_Rle. lra.
Qed.

Lemma sigma_min_nonzero (sigma : R) :
  (sigma_min <= Rabs sigma)%R -> sigma <> 0%R.
Proof.
  intros H E. subst. rewrite Rabs_R0 in H. pose proof sigma_min_pos. lra.
Qed.

(** The cast of a value between 0 and 255, on the real numbers of the
    model. *)
Lemma to_uchar_floor_bounds (v : R) :
  (0 <= v <= 255)%R ->
  (v - 1 < IZR (to_uchar (Fin v)) <= v)%R
  /\ (0 <= to_uchar (Fin v) <= 255)%Z.
Proof.
  intros [H0 H255].
  destruct (base_Int_part v) as [Hlo Hhi].
  set (z := Int_part v) in *.
  assert (Hz : (IZR z <= v < IZR z + 1)%R) by lra.
  assert (Hz0 : (0 <= z)%Z).
  { apply Z.lt_succ_r. apply lt_IZR. rewrite succ_IZR. lra. }
  assert (Hz1 : (z <= 255)%Z) by (apply le_IZR; lra).
  rewrite (to_uchar_floor v z) by (assumption || lia).
  split; [lra | lia].
Qed.

(** What [truncated 1] is for: the cast of any value within [slack] of
    [v]. *)
Lemma truncated_of_close (v v' : R) :
  (Rabs (v' - v) <= slack)%R -> (0 <= v' <= 255)%R ->
  truncated 1 (to_uchar (Fin v')) v.
Proof.
  intros Hc H. destruct (to_uchar_floor_bounds v' H) as [Hb _].
  unfold Rabs in Hc. destruct (Rcase_abs (v' - v)); unfold truncated; lra.
Qed.

Lemma to_uchar_truncated (v : R) :
  (0 <= v <= 255)%R -> truncated 1 (to_uchar (Fin v)) v.
Proof.
  intros H. apply truncated_of_close; [|assumption].
  replace (v - v)%R with 0%R by ring. rewrite Rabs_R0. unfold slack. lra.
Qed.

(** C5, amended: for a well-formed image, a kernel size [1 <= k <= 65535],
    finite spreads from [sigma_min] on and a pixel whose colour distance to
    every pixel of its neighbourhood has a square that fits an [int], each
    channel of the output pixel is the weighted mean
    [sum w(p,q) * q / sum w(p,q)] of the specification truncated to an
    integer, to within the rounding of the [double] arithmetic
    ([truncated 1]: the stored value is at most the mean and less than 1
    below it, give or take [slack]), over the clamped neighbourhood of
    offsets [-k/2 .. k/2] on both axes: [(2 (k/2) + 1)^2] pixels, which is
    [k * k] when [k] is odd. *)
Theorem applyBilateralFilter_weighted_mean :
  forall (img : Tester.Image) (k : Z) (ss sr : R) (x y : Z),
    Tester.Image_wf img ->
    (Tester.width img <= 1073741824)%Z ->
    (Tester.height img <= 1073741824)%Z ->
    (1 <= k <= 65535)%Z -> (sigma_min <= ss)%R -> (sigma_min <= sr)%R ->
    (0 <= x < Tester.width img)%Z -> (0 <= y < Tester.height img)%Z ->
    (forall q, In q (BilateralSpec.window (k / 2)) ->
               BilateralSpec.square_fits_int
                 (BilateralSpec.color_dist
                    (Tester.at_ img x y)
                    (BilateralSpec.neighbour img x y q))) ->
    (forall ch, In ch [Tester.r; Tester.g; Tester.b] ->
       truncated 1
         (ch (Tester.at_ (Tester.applyBilateralFilter img k (Fin ss) (Fin sr))
                x y))
         (BilateralSpec.weighted_mean img (k / 2) ss sr x y ch))
    /\ Z.of_nat (length (BilateralSpec.window (k / 2)))
       = ((2 * (k / 2) + 1) * (2 * (k / 2) + 1))%Z
    /\ (Z.odd k = true ->
        Z.of_nat (length (BilateralSpec.window (k / 2))) = (k * k)%Z).
Proof.
  intros img k ss sr x y Hwf Hw Hh Hk Hss Hsr Hx Hy Hfit.
  pose proof sigma_min_pos as Hm.
  assert (Hss' : (0 < ss)%R) by lra.
  assert (Hsr' : (0 < sr)%R) by lra.
  assert (Ho : (0 <= k / 2 <= 32767)%Z).
  { split; [apply Z.div_pos; lia|].
    assert (k / 2 < 32768)%Z by (apply Z.div_lt_upper_bound; lia). lia. }
  split; [|split].
  - intros ch Hch. unfold Tester.applyBilateralFilter.
    rewrite at_for_each_pixel by assumption.
    rewrite Int_div_2 by (unfold Int.max_int; lia).
    rewrite (bilateral_pixel_weighted_mean img ss sr x y (k / 2))
      by assumption.
    assert (Hok : forall q, Tester.pixel_ok (BilateralSpec.neighbour img x y q))
      by (intros q; now apply neighbour_ok).
    destruct Hch as [<- | [<- | [<- | []]]]; cbn [Tester.r Tester.g Tester.b];
      apply to_uchar_truncated; unfold BilateralSpec.weighted_mean;
      match goal with
      | |- context [IZR (?c (BilateralSpec.neighbour img x y _))] =>
          apply (weighted_mean_between _
                   (BilateralSpec.weight img ss sr x y)
                   (fun q => c (BilateralSpec.neighbour img x y q))
                   (BilateralSpec.window (k / 2)) 0 255)
      end;
      try (now apply window_nonempty);
      try (intros q _; apply weight_pos);
      intros q _; destruct (Hok q) as (Hr & Hg & Hb); assumption.
  - apply length_window. lia.
  - intros Hodd. rewrite length_window by lia.
    apply Z.odd_spec in Hodd. destruct Hodd as [m ->].
    replace ((2 * m + 1) / 2)%Z with m
      by (apply Z.div_unique with (r := 1%Z); lia).
    reflexivity.
Qed.

Lemma applyBilateralFilter_weighted_mean_witness :
  Forall (fun ch =>
            truncated 1
              (ch (Tester.at_
                     (Tester.applyBilateralFilter two_tone 3 (Fin 1) (Fin 1))
                     0 0))
              (BilateralSpec.weighted_mean two_tone (3 / 2) 1 1 0 0 ch))
         [Tester.r; Tester.g; Tester.b].
Proof.
  apply Forall_forall.
  apply (applyBilateralFilter_weighted_mean two_tone 3 1%R 1%R 0%Z 0%Z).
  - unfold Tester.Image_wf, two_tone. simpl.
    split; [lia|]. split; [lia|]. split; [unfold Int.max_int; lia|].
    split; [lia|].
    repeat (apply Forall_cons; [unfold Tester.pixel_ok, Tester.byte; simpl; lia|]).
    apply Forall_nil.
  - simpl. lia.
  - simpl. lia.
  - lia.
  - exact sigma_min_le_1.
  - exact sigma_min_le_1.
  - simpl. lia.
  - simpl. lia.
  - intros q Hq. vm_compute in Hq.
    repeat (destruct Hq as [<- | Hq]; [vm_compute; discriminate|]).
    contradiction.
Defined.

Lemma grey_3x3_wf : Tester.Image_wf grey_3x3.
Proof.
  unfold Tester.Image_wf, grey_3x3. simpl.
  split; [lia|]. split; [lia|]. split; [unfold Int.max_int; lia|].
  split; [lia|].
  repeat (apply Forall_cons; [unfold Tester.pixel_ok, Tester.byte; simpl; lia|]).
  apply Forall_nil.
Qed.

Lemma exp_ge_1_plus (t : R) : (1 + t <= exp t)%R.
Proof.
  destruct (Req_dec_T t 0) as [-> | H].
  - rewrite exp_0. lra.
  - left. now apply exp_ineq1.
Qed.

Lemma dark_dark_light_wf : Tester.Image_wf dark_dark_light.
Proof.
  unfold Tester.Image_wf, dark_dark_light. simpl.
  split; [lia|]. split; [lia|]. split; [unfold Int.max_int; lia|].
  split; [lia|].
  repeat (apply Forall_cons; [unfold Tester.pixel_ok, Tester.byte; simpl; lia|]).
  apply Forall_nil.
Qed.

Lemma exp_neg_bounds (t : R) :
  (0 <= t)%R -> (1 - t <= exp (- t) <= / (1 + t))%R.
Proof.
  intros Ht. split.
  - pose proof (exp_ge_1_plus (- t)). lra.
  - rewrite exp_Ropp. apply Rinv_le_contravar; [lra|]. apply exp_ge_1_plus.
Qed.

Lemma inv_le_of_product (t u : R) :
  (0 < t)%R -> (1 <= u * t)%R -> (/ t <= u)%R.
Proof.
  intros Ht H. apply Rmult_le_reg_r with t; [assumption|].
  rewrite Rinv_l by lra. lra.
Qed.

Lemma quotient_between (n d lo hi : R) :
  (0 < d)%R -> (lo * d <= n)%R -> (n < hi * d)%R -> (lo <= n / d < hi)%R.
Proof.
  intros Hd Hlo Hhi. split.
  - apply Rmult_le_reg_r with d; [assumption|].
    unfold Rdiv. rewrite Rmult_assoc, Rinv_l by lra. lra.
  - apply Rmult_lt_reg_r with d; [assumption|].
    unfold Rdiv. rewrite Rmult_assoc, Rinv_l by lra. lra.
Qed.

Lemma quotient_above (n d lo : R) :
  (0 < d)%R -> (lo * d < n)%R -> (lo < n / d)%R.
Proof.
  intros Hd H. apply Rmult_lt_reg_r with d; [assumption|].
  unfold Rdiv. rewrite Rmult_assoc, Rinv_l by lra. lra.
Qed.

(** The weights of the spreads 10^6: the spatial weights of the squared
    distances 1 and 2, and their products with the range weight of the
    colour distance 43200 of the light pixel to a black one. *)
Lemma far_spreads_weights :
  let s1 := exp (- IZR 1 / (2 * 1000000 * 1000000)) in
  let s2 := exp (- IZR 2 / (2 * 1000000 * 1000000)) in
  let rho := exp (- IZR 1866240000 / (2 * 1000000 * 1000000)) in
  (0.99999 <= s1 <= 1 /\ 0.99999 <= s2 <= 1
   /\ 0.999 <= s1 * rho <= 0.9995 /\ 0.999 <= s2 * rho <= 0.9995)%R.
Proof.
  intros s1 s2 rho.
  assert (H1 : (0.99999 <= s1 <= 1)%R).
  { unfold s1.
    replace (- IZR 1 / (2 * 1000000 * 1000000))%R
      with (- (1 / 2000000000000))%R by (simpl; lra).
    pose proof (exp_neg_bounds (1 / 2000000000000) ltac:(lra)) as [Ha Hb].
    split; [lra|].
    eapply Rle_trans; [exact Hb|]. apply inv_le_of_product; lra. }
  assert (H2 : (0.99999 <= s2 <= 1)%R).
  { unfold s2.
    replace (- IZR 2 / (2 * 1000000 * 1000000))%R
      with (- (2 / 2000000000000))%R by (simpl; lra).
    pose proof (exp_neg_bounds (2 / 2000000000000) ltac:(lra)) as [Ha Hb].
    split; [lra|].
    eapply Rle_trans; [exact Hb|]. apply inv_le_of_product; lra. }
  assert (Hr : (0.99906 <= rho <= 0.9995)%R).
  { unfold rho.
    replace (- IZR 1866240000 / (2 * 1000000 * 1000000))%R
      with (- (1866240000 / 2000000000000))%R by (simpl; lra).
    pose proof (exp_neg_bounds (1866240000 / 2000000000000) ltac:(lra))
      as [Ha Hb].
    split; [lra|].
    eapply Rle_trans; [exact Hb|]. apply inv_le_of_product; lra. }
  clearbody s1 s2 rho.
  repeat split; try lra; nra.
Qed.

Ltac eval_closed_Z :=
  repeat match goal with
  | |- context [BilateralSpec.color_dist ?p ?q] =>
      let v := eval vm_compute in (BilateralSpec.color_dist p q) in
      change (BilateralSpec.color_dist p q) with v
  | |- context [IZR (Tester.r ?p)] =>
      let v := eval vm_compute in (Tester.r p) in change (Tester.r p) with v
  | |- context [IZR (Tester.g ?p)] =>
      let v := eval vm_compute in (Tester.g p) in change (Tester.g p) with v
  | |- context [IZR (Tester.b ?p)] =>
      let v := eval vm_compute in (Tester.b p) in change (Tester.b p) with v
  | |- context [IZR (?a + ?b)] =>
      let v := eval vm_compute in (a + b)%Z in change (a + b)%Z with v
  | |- context [IZR (?a * ?b)] =>
      let v := eval vm_compute in (a * b)%Z in change (a * b)%Z with v
  end.

(** With the spreads 10^6, the weights of the sums for a pixel of
    [dark_dark_light], as the three numbers of [far_spreads_weights]. *)
Ltac far_spreads_sums :=
  unfold CV.Rsum; cbn [map fold_right];
  unfold BilateralSpec.weight; cbn [fst snd];
  eval_closed_Z;
  replace (- 0 / (2 * 1000000 * 1000000))%R with 0%R by lra;
  rewrite exp_0;
  set (s1 := exp (- (1) / (2 * 1000000 * 1000000))) in *;
  set (s2 := exp (- (2) / (2 * 1000000 * 1000000))) in *;
  set (rho := exp (- (1866240000) / (2 * 1000000 * 1000000))) in *;
  clearbody s1 s2 rho.

Lemma dark_dark_light_mean (ch : Tester.RGB -> Z) :
  In ch [Tester.r; Tester.g; Tester.b] ->
  (39 <= BilateralSpec.weighted_mean dark_dark_light 1 1000000 1000000 1 0 ch
   < 39 + 1)%R.
Proof.
  intros Hch.
  pose proof far_spreads_weights as H. cbv zeta in H.
  destruct H as (H1 & H2 & H3 & H4).
  destruct Hch as [<- | [<- | [<- | []]]];
    unfold BilateralSpec.weighted_mean;
    change (BilateralSpec.window 1)
      with [(-1, -1); (0, -1); (1, -1); (-1, 0); (0, 0); (1, 0);
            (-1, 1); (0, 1); (1, 1)]%Z;
    far_spreads_sums; apply quotient_between; lra.
Qed.

(** C5, as stated, fails for an even kernel size.  On the image of three
    pixels in a row, two black and one of value 120, with [k = 2] and both
    spreads 10^6, the pixel in the middle comes out as 39: the mean over the
    nine offsets -1..1 of the loops.  Over a neighbourhood of 2 x 2 pixels
    that holds the pixel, whichever of the four, the weighted mean of the
    specification is 0 or above 59. *)
Lemma applyBilateralFilter_even_kernel_differs :
  Tester.at_ (Tester.applyBilateralFilter dark_dark_light 2
                (Fin 1000000) (Fin 1000000)) 1 0
  = Tester.mkRGB 39 39 39
  /\ Forall
       (fun ch =>
          Forall
            (fun l =>
               let m := BilateralSpec.mean_over dark_dark_light
                          (BilateralSpec.square (fst l) (snd l) 2)
                          1000000 1000000 1 0 ch in
               m = 0%R \/ (59 < m)%R)
            [(-1, -1); (0, -1); (-1, 0); (0, 0)]%Z)
       [Tester.r; Tester.g; Tester.b].
Proof.
  split.
  - unfold Tester.applyBilateralFilter.
    rewrite at_for_each_pixel by (simpl; lia).
    change (Int.div 2 2) with 1%Z.
    rewrite (bilateral_pixel_weighted_mean dark_dark_light 1000000 1000000
               1 0 1 dark_dark_light_wf); try (simpl; lia); try lra.
    + f_equal; apply to_uchar_floor; try lia;
        apply dark_dark_light_mean; simpl; auto.
    + intros q Hq. vm_compute in Hq.
      repeat (destruct Hq as [<- | Hq]; [vm_compute; discriminate|]).
      contradiction.
  - pose proof far_spreads_weights as H. cbv zeta in H.
    destruct H as (H1 & H2 & H3 & H4).
    repeat (apply Forall_cons || apply Forall_nil);
      cbv zeta; cbn [fst snd]; unfold BilateralSpec.mean_over;
      match goal with
      | |- context [BilateralSpec.square ?a ?b ?c] =>
          let v := eval vm_compute in (BilateralSpec.square a b c) in
          change (BilateralSpec.square a b c) with v
      end;
      far_spreads_sums;
      first [ left; unfold Rdiv; ring
            | right; apply quotient_above; lra ].
Qed.
(** *** The range of the output when no product overflows *)

Lemma to_uchar_between (v : R) (lo hi : Z) :
  (0 <= lo)%Z -> (hi <= 255)%Z -> (IZR lo <= v <= IZR hi)%R ->
  (lo <= to_uchar (Fin v) <= hi)%Z.
Proof.
  intros Hlo Hhi [H1 H2].
  assert (H0 : (0 <= v)%R) by (apply (IZR_le 0 lo) in Hlo; lra).
  destruct (base_Int_part v) as [Ha Hb].
  assert (Hz : (lo <= Int_part v <= hi)%Z).
  { split.
    - apply Z.lt_succ_r. apply lt_IZR. rewrite succ_IZR. lra.
    - apply le_IZR. lra. }
  rewrite (to_uchar_floor v (Int_part v)); [assumption | lia | lra].
Qed.

(** Where no colour distance of the neighbourhood overflows, each channel of
    the output pixel lies between the least and the greatest value of the
    channel in the neighbourhood, hence in the 8-bit range. *)
Lemma applyBilateralFilter_in_range :
  forall (img : Tester.Image) (k : Z) (ss sr : R) (x y : Z)
         (ch : Tester.RGB -> Z) (lo hi : Z),
    Tester.Image_wf img ->
    (Tester.width img <= 1073741824)%Z ->
    (Tester.height img <= 1073741824)%Z ->
    (1 <= k <= 65535)%Z -> (0 < ss)%R -> (0 < sr)%R ->
    (0 <= x < Tester.width img)%Z -> (0 <= y < Tester.height img)%Z ->
    (forall q, In q (BilateralSpec.window (k / 2)) ->
               BilateralSpec.square_fits_int
                 (BilateralSpec.color_dist
                    (Tester.at_ img x y)
                    (BilateralSpec.neighbour img x y q))) ->
    (0 <= lo)%Z -> (hi <= 255)%Z ->
    (forall q, In q (BilateralSpec.window (k / 2)) ->
               (lo <= ch (BilateralSpec.neighbour img x y q) <= hi)%Z) ->
    (lo <= to_uchar (Fin (BilateralSpec.weighted_mean img (k / 2) ss sr x y ch))
     <= hi)%Z.
Proof.
  intros img k ss sr x y ch lo hi Hwf Hw Hh Hk Hss Hsr Hx Hy Hfit Hlo Hhi Hch.
  apply to_uchar_between; try assumption.
  unfold BilateralSpec.weighted_mean.
  apply weighted_mean_between.
  - apply window_nonempty.
    split; [apply Z.div_pos; lia|].
    assert (k / 2 < 32768)%Z by (apply Z.div_lt_upper_bound; lia). lia.
  - intros q _. apply weight_pos.
  - assumption.
Qed.

(** *** An overflowing colour distance *)

(** The range weight between the two pixels: the colour distance is
    [3 * 254^2 = 193548], whose square [37460828304] is stored as the [int]
    [-1193877360]; its opposite over [2 * 50^2] is [238775.47], far above the
    range of [exp]. *)
Lemma rangeWeight_overflow : Tester.rangeWeight 193548 (Fin 50) = PInf.
Proof.
  unfold Tester.rangeWeight.
  change (Int.neg (Int.mul 193548 193548)) with 1193877360%Z.
  unfold of_int. cbn [dmul]. rewrite ddiv_Fin by lra.
  unfold dexp, exp_max. now rewrite Rltb_true by lra.
Qed.

Lemma dmul_pos_PInf (v : R) : (0 < v)%R -> (Fin v * PInf)%D = PInf.
Proof.
  intros H. cbn [dmul]. unfold inf_signed.
  rewrite Reqb_false by lra. now rewrite Rltb_true.
Qed.

Lemma dmul_exp_PInf (t : R) : (Fin (exp t) * PInf)%D = PInf.
Proof. apply dmul_pos_PInf, exp_pos. Qed.

Ltac eval_colorDifference :=
  repeat match goal with
  | |- context [Tester.colorDifference ?p ?q] =>
      let v := eval vm_compute in (Tester.colorDifference p q) in
      change (Tester.colorDifference p q) with v
  end.

Lemma bilateral_step_mk (img : Tester.Image) (ss sr : double)
    (x y ky kx : Z) (a b c d : double) :
  Tester.bilateral_step img ss sr x y ky (Tester.mkSums a b c d) kx
  = let n := Tester.at_ img
               (Tester.clamp_coord (Int.add x kx) (Tester.width img))
               (Tester.clamp_coord (Int.add y ky) (Tester.height img)) in
    let w := Tester.bilateral_weight img ss sr x y kx ky in
    Tester.mkSums (a + of_int (Tester.r n) * w)%D
                  (b + of_int (Tester.g n) * w)%D
                  (c + of_int (Tester.b n) * w)%D
                  (d + w)%D.
Proof. reflexivity. Qed.

(** One iteration of the loop body on a concrete image. *)
Ltac eval_bilateral_step :=
  rewrite bilateral_step_mk; cbv zeta;
  unfold Tester.bilateral_weight;
  eval_at; eval_colorDifference;
  rewrite ?rangeWeight_overflow;
  rewrite ?rangeWeight_Fin by (lia || lra);
  rewrite ?spatialWeight_Fin by (lia || lra);
  cbn [Tester.r Tester.g Tester.b];
  rewrite ?dmul_exp_PInf;
  unfold of_int;
  rewrite ?dmul_pos_PInf by lra;
  cbn [dmul dadd].

Ltac eval_bilateral_sums :=
  unfold Tester.bilateral_sums, Tester.sums0;
  change (Int.range (Int.neg 1) 1) with [-1; 0; 1]%Z;
  cbn [fold_left];
  repeat eval_bilateral_step;
  cbn [Tester.sumR Tester.sumG Tester.sumB Tester.sumWeight].

(** C10 (the code departs from the claim): on the image of a pixel (1,1,1)
    beside a pixel (255,255,255), with kernel size 3 and spreads 1 and 50,
    the range weight between the two pixels is [+inf], the quotient
    [sumR / sumWeight] of the first pixel is [NaN], on which the cast to
    [unsigned char] is undefined, and both output pixels are stored as
    (0,0,0), below the least input sample 1. *)
Theorem applyBilateralFilter_overflow_leaves_range :
  let s0 := Tester.bilateral_sums dark_bright (Int.div 3 2) (Fin 1) (Fin 50) 0 0 in
  Tester.rangeWeight
    (Tester.colorDifference (Tester.at_ dark_bright 0 0)
                            (Tester.at_ dark_bright 1 0)) (Fin 50) = PInf
  /\ (Tester.sumR s0 / Tester.sumWeight s0)%D = NaN
  /\ ~ uchar_castable (Tester.sumR s0 / Tester.sumWeight s0)%D
  /\ Tester.applyBilateralFilter dark_bright 3 (Fin 1) (Fin 50)
     = Tester.mkImage 2 1 [Tester.black; Tester.black].
Proof.
  change (Int.div 3 2) with 1%Z. cbv zeta.
  assert (Hnan : (Tester.sumR (Tester.bilateral_sums dark_bright 1 (Fin 1)
                                                     (Fin 50) 0 0)
                  / Tester.sumWeight (Tester.bilateral_sums dark_bright 1
                                        (Fin 1) (Fin 50) 0 0))%D = NaN).
  { eval_bilateral_sums. reflexivity. }
  split; [|split; [|split]].
  - eval_at. eval_colorDifference. apply rangeWeight_overflow.
  - exact Hnan.
  - rewrite Hnan. intros [v [E _]]. discriminate.
  - unfold Tester.applyBilateralFilter, Tester.for_each_pixel.
    change (Int.div 3 2) with 1%Z.
    cbn [Tester.width Tester.height dark_bright].
    change (Int.upto 2) with [0; 1]%Z. change (Int.upto 1) with [0]%Z.
    cbn [flat_map map app]. unfold Tester.bilateral_pixel.
    eval_bilateral_sums. reflexivity.
Qed.

(** ** SSIM *)

(** *** Samples of the matrices built sample by sample *)

Lemma length_map2 (f : double -> double -> double) (a b : list double) :
  length a = length b -> length (CV.map2 f a b) = length a.
Proof.
  intros H. unfold CV.map2. rewrite length_map, length_combine. lia.
Qed.

Lemma nth_map2 (f : double -> double -> double) (a b : list double) (i : nat) :
  length a = length b -> (i < length a)%nat ->
  nth i (CV.map2 f a b) NaN = f (nth i a NaN) (nth i b NaN).
Proof.
  intros Hab Ha. unfold CV.map2.
  rewrite nth_indep with (d' := (fun p => f (fst p) (snd p)) (NaN, NaN))
    by (rewrite length_map, length_combine; lia).
  rewrite (map_nth (fun p => f (fst p) (snd p))).
  now rewrite combine_nth.
Qed.

Lemma nth_map_double (f : double -> double) (l : list double) (i : nat) :
  (i < length l)%nat -> nth i (map f l) NaN = f (nth i l NaN).
Proof.
  intros H. rewrite nth_indep with (d' := f NaN) by now rewrite length_map.
  apply map_nth.
Qed.

Lemma length_mapi_from (A B : Type) (f : nat -> A -> B) (s : nat) (l : list A) :
  length (CV.mapi_from f s l) = length l.
Proof.
  revert s. induction l as [|a l IH]; intros s; simpl; [reflexivity|].
  now rewrite IH.
Qed.

Lemma nth_mapi_from (A B : Type) (f : nat -> A -> B) (s : nat) (l : list A)
    (i : nat) (d : B) (d' : A) :
  (i < length l)%nat ->
  nth i (CV.mapi_from f s l) d = f (s + i)%nat (nth i l d').
Proof.
  revert s i. induction l as [|a l IH]; intros s i H; simpl in H; [lia|].
  destruct i as [|i]; simpl.
  - now rewrite Nat.add_0_r.
  - rewrite IH by lia. f_equal. lia.
Qed.

(** *** The samples of one channel *)

Lemma filter_none (A : Type) (P : A -> bool) (l : list A) :
  (forall a, In a l -> P a = false) -> filter P l = [].
Proof.
  induction l as [|a l IH]; intros H; simpl; [reflexivity|].
  rewrite (H a) by now left. apply IH. intros a' Ha'. apply H. now right.
Qed.

Lemma length_filter_combine (A B : Type) (P : A -> bool) (l1 : list A) :
  forall l2 : list B,
    length l1 = length l2 ->
    length (filter (fun p => P (fst p)) (combine l1 l2))
    = length (filter P l1).
Proof.
  induction l1 as [|a l1 IH]; intros [|b l2] H; simpl in *; try lia.
  destruct (P a); simpl; rewrite IH by lia; reflexivity.
Qed.

(** Among the indices of [N] pixels of [cn] channels each, [N] belong to the
    first channel. *)
Lemma count_first_channel (cn N : nat) :
  (0 < cn)%nat ->
  length (filter (fun i => (Z.of_nat i mod Z.of_nat cn =? 0)%Z)
                 (seq 0 (N * cn)))
  = N.
Proof.
  intros Hcn. induction N as [|N IH]; [reflexivity|].
  replace (S N * cn)%nat with (N * cn + cn)%nat by lia.
  rewrite seq_app, filter_app, length_app, IH. rewrite Nat.add_0_l.
  destruct cn as [|c]; [lia|].
  change (seq (N * S c) (S c)) with ((N * S c)%nat :: seq (S (N * S c)) c).
  cbn [filter].
  assert (E : (Z.of_nat (N * S c) mod Z.of_nat (S c) =? 0)%Z = true).
  { apply Z.eqb_eq. rewrite Nat2Z.inj_mul. apply Z.mod_mul. lia. }
  rewrite E. rewrite filter_none; [simpl; lia|].
  intros i Hi. apply in_seq in Hi. apply Z.eqb_neq.
  intros E'. apply Z.mod_divide in E'; [|lia]. destruct E' as [q E'].
  assert (Z.of_nat N < q < Z.of_nat N + 1)%Z by nia. lia.
Qed.

Lemma length_channel_0 (m : CV.Mat) :
  CV.Mat_wf m ->
  Z.of_nat (length (CV.channel m 0)) = CV.total m.
Proof.
  intros (Hr & Hc & Hch & Hlen). unfold CV.channel, CV.total.
  rewrite length_map.
  rewrite (length_filter_combine _ _ (fun i => (CV.channel_of m i =? 0)%Z))
    by now rewrite length_seq.
  unfold CV.channel_of.
  remember (Z.to_nat (CV.channels m)) as cn eqn:Ecn.
  assert (Ec : CV.channels m = Z.of_nat cn) by lia.
  assert (El : length (CV.data m)
               = (Z.to_nat (CV.rows m * CV.cols m) * cn)%nat) by nia.
  rewrite El, Ec. rewrite count_first_channel by lia. lia.
Qed.

Lemma In_channel (m : CV.Mat) (c : Z) (v : double) :
  In v (CV.channel m c) ->
  exists i, (i < length (CV.data m))%nat /\ CV.channel_of m i = c
            /\ v = nth i (CV.data m) NaN.
Proof.
  unfold CV.channel. intros H. apply in_map_iff in H.
  destruct H as [[i v'] [Hv H]]. simpl in Hv. subst v'.
  apply filter_In in H. destruct H as [Hin Hc]. simpl in Hc.
  apply Z.eqb_eq in Hc.
  apply In_nth with (d := (0%nat, NaN)) in Hin.
  destruct Hin as [j [Hj Hnth]].
  rewrite length_combine, length_seq, Nat.min_id in Hj.
  rewrite combine_nth in Hnth by now rewrite length_seq.
  rewrite seq_nth in Hnth by assumption. simpl in Hnth.
  injection Hnth as E1 E2. exists j. split; [assumption|].
  split; [now rewrite E1 | now rewrite E2].
Qed.

Lemma dsum_ones (l : list double) :
  Forall (fun v => v = Fin 1) l -> CV.dsum l = Fin (INR (length l)).
Proof.
  intros H. unfold CV.dsum.
  assert (G : forall a : R,
             fold_left dadd l (Fin a) = Fin (a + INR (length l))).
  { induction H as [|v l -> _ IH]; intros a.
    - simpl. f_equal. lra.
    - cbn [fold_left dadd]. rewrite IH. f_equal.
      change (length (Fin 1 :: l)) with (S (length l)). rewrite S_INR. lra. }
  rewrite G. f_equal. lra.
Qed.

(** *** Weighted sums *)

Lemma apply_taps_Fin (src : list double) (t : list (R * nat)) :
  Forall CV.finite src ->
  (forall wi, In wi t -> (snd wi < length src)%nat) ->
  CV.apply_taps src t = Fin (tap_sum (fun j => to_R (nth j src NaN)) t).
Proof.
  intros Hfin Hin. unfold CV.apply_taps.
  assert (G : forall a : R,
             fold_left (fun s wi => (s + Fin (fst wi) * nth (snd wi) src NaN)%D)
                       t (Fin a)
             = Fin (a + tap_sum (fun j => to_R (nth j src NaN)) t)).
  { induction t as [|[w j] t IH]; intros a.
    - simpl. f_equal. unfold tap_sum. simpl. lra.
    - cbn [fold_left fst snd].
      assert (Hj : CV.finite (nth j src NaN)).
      { apply (proj1 (Forall_forall _ _) Hfin). apply nth_In.
        apply (Hin (w, j)). now left. }
      destruct Hj as [v Hv]. rewrite Hv. cbn [dmul dadd].
      rewrite IH by (intros wi Hwi; apply Hin; now right).
      f_equal. unfold tap_sum. simpl. rewrite Hv. simpl. lra. }
  rewrite G. f_equal. lra.
Qed.

Lemma tap_sum_ext (f g : nat -> R) (t : list (R * nat)) :
  (forall wi, In wi t -> f (snd wi) = g (snd wi)) ->
  tap_sum f t = tap_sum g t.
Proof.
  intros H. unfold tap_sum. f_equal. apply map_ext_in. intros wi Hwi.
  now rewrite H.
Qed.

(** The second moment of a weighted average is at least the square of its
    mean. *)
Lemma tap_sum_spread (v : nat -> R) (mu : R) (t : list (R * nat)) :
  (forall wi, In wi t -> (0 <= fst wi)%R) ->
  (0 <= tap_sum (fun j => v j * v j) t - 2 * mu * tap_sum v t
        + mu * mu * CV.Rsum (map fst t))%R.
Proof.
  unfold tap_sum. induction t as [|[w j] t IH]; intros H; simpl.
  - lra.
  - assert (Hw : (0 <= w)%R) by (apply (H (w, j)); now left).
    assert (IH' := IH (fun wi Hwi => H wi (or_intror Hwi))).
    assert (Hsq : (0 <= w * ((v j - mu) * (v j - mu)))%R).
    { apply Rmult_le_pos; [assumption | apply Rle_0_sqr]. }
    nra.
Qed.

Lemma tap_sum_variance_nonneg (v : nat -> R) (t : list (R * nat)) :
  (forall wi, In wi t -> (0 <= fst wi)%R) ->
  CV.Rsum (map fst t) = 1%R ->
  (0 <= tap_sum (fun j => v j * v j) t - tap_sum v t * tap_sum v t)%R.
Proof.
  intros Hw H1. pose proof (tap_sum_spread v (tap_sum v t) t Hw) as H.
  rewrite H1 in H. lra.
Qed.

(** *** The Gaussian window *)

Lemma Rsum_app (a b : list R) : CV.Rsum (a ++ b) = (CV.Rsum a + CV.Rsum b)%R.
Proof. induction a as [|x a IH]; simpl; [lra | rewrite IH; lra]. Qed.

Lemma Rsum_scale (A : Type) (c : R) (f : A -> R) (l : list A) :
  CV.Rsum (map (fun a => (c * f a)%R) l) = (c * CV.Rsum (map f l))%R.
Proof. induction l as [|x l IH]; simpl; [lra | rewrite IH; lra]. Qed.

Lemma Rsum_div (S : R) (l : list R) :
  CV.Rsum (map (fun e => (e / S)%R) l) = (CV.Rsum l / S)%R.
Proof.
  induction l as [|x l IH]; simpl; [unfold Rdiv; ring | rewrite IH].
  unfold Rdiv. ring.
Qed.

Lemma map_nth_upto (k : list R) :
  map (fun d => nth (Z.to_nat d) k 0%R) (Int.upto (Z.of_nat (length k))) = k.
Proof.
  apply nth_ext with (d := 0%R) (d' := 0%R).
  - rewrite length_map, length_upto. lia.
  - intros i Hi. rewrite length_map, length_upto in Hi.
    rewrite nth_indep
      with (d' := (fun d => nth (Z.to_nat d) k 0%R) 0%Z)
      by (rewrite length_map, length_upto; lia).
    rewrite (map_nth (fun d => nth (Z.to_nat d) k 0%R)).
    unfold Int.upto. rewrite nth_range by lia. f_equal. lia.
Qed.

Lemma gaussian_raw_pos (n : Z) (sigma : R) :
  Forall (fun e => 0 < e)%R
    (map (fun i => exp (- (IZR (i - (n - 1) / 2) * IZR (i - (n - 1) / 2))
                        / (2 * sigma * sigma))%R)
         (Int.upto n)).
Proof.
  apply Forall_forall. intros e He. apply in_map_iff in He.
  destruct He as [i [<- _]]. apply exp_pos.
Qed.

Lemma length_getGaussianKernel (n : Z) (sigma : R) :
  length (CV.getGaussianKernel n sigma) = Z.to_nat n.
Proof. unfold CV.getGaussianKernel. now rewrite !length_map, length_upto. Qed.

Lemma getGaussianKernel_sum (n : Z) (sigma : R) :
  (0 < n)%Z -> CV.Rsum (CV.getGaussianKernel n sigma) = 1%R.
Proof.
  intros Hn. unfold CV.getGaussianKernel. rewrite Rsum_div.
  apply Rdiv_diag. apply Rgt_not_eq. apply Rsum_pos.
  - intros E. apply (f_equal (@length R)) in E.
    rewrite length_map, length_upto in E. simpl in E. lia.
  - apply gaussian_raw_pos.
Qed.

Lemma getGaussianKernel_nonneg (n : Z) (sigma : R) (i : nat) :
  (0 < n)%Z -> (0 <= nth i (CV.getGaussianKernel n sigma) 0)%R.
Proof.
  intros Hn.
  destruct (Nat.lt_ge_cases i (length (CV.getGaussianKernel n sigma)))
    as [Hi | Hi]; [|rewrite nth_overflow by assumption; lra].
  assert (H : Forall (fun w => 0 <= w)%R (CV.getGaussianKernel n sigma)).
  { unfold CV.getGaussianKernel. apply Forall_forall. intros w Hw.
    apply in_map_iff in Hw. destruct Hw as [e [<- He]].
    pose proof (proj1 (Forall_forall _ _) (gaussian_raw_pos n sigma) e He).
    assert (0 < CV.Rsum
                  (map (fun i => exp (- (IZR (i - (n - 1) / 2)
                                          * IZR (i - (n - 1) / 2))
                                       / (2 * sigma * sigma))%R)
                       (Int.upto n)))%R.
    { apply Rsum_pos; [|apply gaussian_raw_pos].
      intros E. rewrite E in He. contradiction. }
    left. now apply Rdiv_lt_0_compat. }
  apply (proj1 (Forall_forall _ _) H). now apply nth_In.
Qed.

Lemma reflect101_range (p len : Z) :
  (0 < len)%Z -> (0 <= CV.reflect101 p len < len)%Z.
Proof.
  intros H. unfold CV.reflect101.
  destruct (Z.leb_spec len 1); [lia|].
  pose proof (Z.mod_pos_bound p (2 * (len - 1)) ltac:(lia)).
  destruct (Z.ltb_spec (p mod (2 * (len - 1))) len); lia.
Qed.

Section Taps.
Variables (m : CV.Mat) (n : Z) (sigma : R) (y x c : Z).
Hypothesis Hwf : CV.Mat_wf m.
Hypothesis Hne : CV.empty m = false.
Hypothesis Hn : (0 < n)%Z.
Hypothesis Hc : (0 <= c < CV.channels m)%Z.

Lemma taps_in_range (wi : R * nat) :
  In wi (CV.taps m n sigma y x c) -> (snd wi < length (CV.data m))%nat.
Proof.
  destruct Hwf as (Hr & Hcl & Hch & Hlen).
  unfold CV.empty, CV.total in Hne. apply Z.eqb_neq in Hne.
  unfold CV.taps. intros H. apply in_flat_map in H.
  destruct H as [dy [_ H]]. apply in_map_iff in H.
  destruct H as [dx [<- _]]. simpl.
  pose proof (reflect101_range (y + dy - n / 2) (CV.rows m) ltac:(nia)) as Hy.
  pose proof (reflect101_range (x + dx - n / 2) (CV.cols m) ltac:(nia)) as Hx.
  set (sy := CV.reflect101 (y + dy - n / 2) (CV.rows m)) in *.
  set (sx := CV.reflect101 (x + dx - n / 2) (CV.cols m)) in *.
  assert (H1 : (0 <= sy * CV.cols m + sx <= CV.rows m * CV.cols m - 1)%Z)
    by nia.
  assert (H2 : (0 <= (sy * CV.cols m + sx) * CV.channels m + c
                < CV.rows m * CV.cols m * CV.channels m)%Z) by nia.
  lia.
Qed.

Lemma taps_nonneg (wi : R * nat) :
  In wi (CV.taps m n sigma y x c) -> (0 <= fst wi)%R.
Proof.
  unfold CV.taps. intros H. apply in_flat_map in H.
  destruct H as [dy [_ H]]. apply in_map_iff in H.
  destruct H as [dx [<- _]]. simpl.
  apply Rmult_le_pos; now apply getGaussianKernel_nonneg.
Qed.

Lemma taps_sum : CV.Rsum (map fst (CV.taps m n sigma y x c)) = 1%R.
Proof.
  unfold CV.taps.
  set (k := CV.getGaussianKernel n sigma).
  set (K := fun d : Z => nth (Z.to_nat d) k 0%R).
  assert (HK : CV.Rsum (map K (Int.upto n)) = 1%R).
  { unfold K. replace n with (Z.of_nat (length k)) at 1
      by (unfold k; rewrite length_getGaussianKernel; lia).
    rewrite map_nth_upto. now apply getGaussianKernel_sum. }
  assert (G : forall l : list Z,
             CV.Rsum
               (map fst
                  (flat_map
                     (fun dy =>
                        map (fun dx =>
                               ((K dy * K dx)%R,
                                Z.to_nat
                                  ((CV.reflect101 (y + dy - n / 2) (CV.rows m)
                                    * CV.cols m
                                    + CV.reflect101 (x + dx - n / 2) (CV.cols m))
                                   * CV.channels m + c)))
                            (Int.upto n)) l))
             = (CV.Rsum (map K l) * CV.Rsum (map K (Int.upto n)))%R).
  { induction l as [|dy l IH]; simpl; [lra|].
    rewrite map_app, Rsum_app, IH. rewrite map_map. simpl.
    rewrite Rsum_scale. lra. }
  rewrite G, HK. lra.
Qed.
End Taps.

(** *** Matrices of one shape *)

Lemma like_refl (A : CV.Mat) : like A A.
Proof. unfold like. tauto. Qed.

Lemma like_convertTo (A m : CV.Mat) (dep : CV.Depth) :
  like A m -> like A (CV.convertTo m dep).
Proof. unfold like. simpl. tauto. Qed.

Lemma like_map2 (A a b : CV.Mat) (f : double -> double -> double) :
  like A a -> like A b ->
  like A (CV.with_data a (CV.depth a) (CV.map2 f (CV.data a) (CV.data b))).
Proof.
  unfold like. simpl. intros (? & ? & ? & Ha) (? & ? & ? & Hb).
  rewrite length_map2 by congruence. tauto.
Qed.

Lemma like_scale (A a : CV.Mat) (s : double) : like A a -> like A (CV.scale s a).
Proof. unfold like. simpl. rewrite length_map. tauto. Qed.

Lemma like_add_scalar (A a : CV.Mat) (s : double) :
  like A a -> like A (CV.add_scalar a s).
Proof. unfold like. simpl. rewrite length_mapi_from. tauto. Qed.

Lemma like_GaussianBlur (A a : CV.Mat) (n : Z) (sigma : R) :
  like A a -> like A (CV.GaussianBlur a n sigma).
Proof. unfold like. simpl. rewrite length_mapi_from. tauto. Qed.

Create HintDb like_db.
#[local] Hint Resolve like_refl like_convertTo like_scale like_add_scalar
  like_GaussianBlur : like_db.
#[local] Hint Extern 1 (like _ (CV.mul _ _)) => apply like_map2 : like_db.
#[local] Hint Extern 1 (like _ (CV.sub _ _)) => apply like_map2 : like_db.
#[local] Hint Extern 1 (like _ (CV.add _ _)) => apply like_map2 : like_db.
#[local] Hint Extern 1 (like _ (CV.divide _ _)) => apply like_map2 : like_db.

Section Samples.
Variables (A : CV.Mat) (i : nat).
Hypothesis Hi : (i < length (CV.data A))%nat.

Lemma nth_binary (f : double -> double -> double) (a b : CV.Mat) :
  like A a -> like A b ->
  nth i (CV.map2 f (CV.data a) (CV.data b)) NaN
  = f (nth i (CV.data a) NaN) (nth i (CV.data b) NaN).
Proof.
  intros (_ & _ & _ & Ha) (_ & _ & _ & Hb).
  apply nth_map2; congruence.
Qed.

Lemma nth_scale (s : double) (a : CV.Mat) :
  like A a ->
  nth i (CV.data (CV.scale s a)) NaN = (s * nth i (CV.data a) NaN)%D.
Proof.
  intros (_ & _ & _ & Ha). simpl. apply nth_map_double. congruence.
Qed.

Lemma nth_add_scalar_first (a : CV.Mat) (s : double) :
  like A a -> CV.channel_of A i = 0%Z ->
  nth i (CV.data (CV.add_scalar a s)) NaN = (nth i (CV.data a) NaN + s)%D.
Proof.
  intros (_ & _ & Hch & Ha) Hc. simpl.
  rewrite (nth_mapi_from _ _ _ 0 (CV.data a) i NaN NaN) by congruence.
  unfold CV.channel_of in *. rewrite Hch. simpl. now rewrite Hc.
Qed.
End Samples.

(** A sample of the blur of a matrix of finite samples is the weighted sum
    of the taps of its place. *)
Lemma nth_GaussianBlur (m : CV.Mat) (n : Z) (sigma : R) (i : nat) :
  CV.Mat_wf m -> CV.empty m = false -> CV.Mat_finite m -> (0 < n)%Z ->
  (i < length (CV.data m))%nat ->
  nth i (CV.data (CV.GaussianBlur m n sigma)) NaN
  = Fin (tap_sum (fun j => to_R (nth j (CV.data m) NaN))
                 (CV.taps m n sigma
                    (Z.of_nat i / CV.channels m / CV.cols m)
                    ((Z.of_nat i / CV.channels m) mod CV.cols m)
                    (Z.of_nat i mod CV.channels m))).
Proof.
  intros Hwf Hne Hfin Hn Hi. simpl.
  rewrite (nth_mapi_from _ _ _ 0 (CV.data m) i NaN NaN) by assumption.
  simpl. apply apply_taps_Fin; [assumption|].
  intros wi Hwi. apply (taps_in_range m n sigma _ _ _ Hwf Hne) in Hwi;
    [assumption|].
  destruct Hwf as (_ & _ & Hch & _). apply Z.mod_pos_bound. lia.
Qed.

Section MatSamples.
Variables (A : CV.Mat) (i : nat).
Hypothesis Hi : (i < length (CV.data A))%nat.

Lemma nth_mul (a b : CV.Mat) :
  like A a -> like A b ->
  nth i (CV.data (CV.mul a b)) NaN
  = (nth i (CV.data a) NaN * nth i (CV.data b) NaN)%D.
Proof. exact (nth_binary A i Hi dmul a b). Qed.

Lemma nth_add (a b : CV.Mat) :
  like A a -> like A b ->
  nth i (CV.data (CV.add a b)) NaN
  = (nth i (CV.data a) NaN + nth i (CV.data b) NaN)%D.
Proof. exact (nth_binary A i Hi dadd a b). Qed.

Lemma nth_sub (a b : CV.Mat) :
  like A a -> like A b ->
  nth i (CV.data (CV.sub a b)) NaN
  = (nth i (CV.data a) NaN - nth i (CV.data b) NaN)%D.
Proof. exact (nth_binary A i Hi dsub a b). Qed.

Lemma nth_divide (a b : CV.Mat) :
  like A a -> like A b ->
  nth i (CV.data (CV.divide a b)) NaN
  = (nth i (CV.data a) NaN / nth i (CV.data b) NaN)%D.
Proof. exact (nth_binary A i Hi ddiv a b). Qed.
End MatSamples.

Section SsimSelf.
Variable A : CV.Mat.
Hypothesis Hwf : CV.Mat_wf A.
Hypothesis Hne : CV.empty A = false.
Hypothesis Hfin : CV.Mat_finite A.

Let fA := CV.convertTo A CV.CV_32F.
Let sq := CV.mul fA fA.

Lemma sq_sample (j : nat) :
  (j < length (CV.data A))%nat ->
  nth j (CV.data sq) NaN
  = Fin (to_R (nth j (CV.data A) NaN) * to_R (nth j (CV.data A) NaN)).
Proof.
  intros Hj. unfold sq, fA. rewrite (nth_mul A j Hj) by auto with like_db.
  simpl. assert (H : CV.finite (nth j (CV.data A) NaN)).
  { apply (proj1 (Forall_forall _ _) Hfin). now apply nth_In. }
  destruct H as [v ->]. reflexivity.
Qed.

Lemma sq_finite : CV.Mat_finite sq.
Proof.
  unfold CV.Mat_finite. apply Forall_forall. intros v Hv.
  apply In_nth with (d := NaN) in Hv. destruct Hv as [j [Hj <-]].
  assert (Hl : like A sq) by (unfold sq, fA; auto with like_db).
  destruct Hl as (_ & _ & _ & Hl). rewrite Hl in Hj.
  rewrite sq_sample by assumption. now eexists.
Qed.

Lemma sq_wf : CV.Mat_wf sq.
Proof.
  assert (Hl : like A sq) by (unfold sq, fA; auto with like_db).
  destruct Hl as (H1 & H2 & H3 & H4). destruct Hwf as (? & ? & ? & ?).
  unfold CV.Mat_wf. rewrite H1, H2, H3, H4. tauto.
Qed.

(** The SSIM of a sample of the first channel of [A] against itself. *)
Lemma ssimMap_self_sample (i : nat) :
  (i < length (CV.data A))%nat -> CV.channel_of A i = 0%Z ->
  nth i (CV.data (Ssim.ssimMap A A)) NaN = Fin 1.
Proof.
  intros Hi Hc0. unfold Ssim.ssimMap. cbv zeta. fold fA. fold sq.
  set (mA := CV.GaussianBlur fA 11 1.5).
  set (E := CV.GaussianBlur sq 11 1.5).
  assert (LfA : like A fA) by (unfold fA; auto with like_db).
  assert (Lsq : like A sq) by (unfold sq, fA; auto with like_db).
  assert (LmA : like A mA) by (unfold mA; auto with like_db).
  assert (LE : like A E) by (unfold E; auto with like_db).
  set (T := CV.taps A 11 1.5
              (Z.of_nat i / CV.channels A / CV.cols A)
              ((Z.of_nat i / CV.channels A) mod CV.cols A)
              (Z.of_nat i mod CV.channels A)).
  set (v := fun j => to_R (nth j (CV.data A) NaN)).
  assert (Hch : (0 <= Z.of_nat i mod CV.channels A < CV.channels A)%Z).
  { destruct Hwf as (_ & _ & ? & _). apply Z.mod_pos_bound. lia. }
  assert (Hmu : nth i (CV.data mA) NaN = Fin (tap_sum v T)).
  { unfold mA. now rewrite (nth_GaussianBlur fA 11 1.5 i) by (assumption || lia). }
  assert (He : nth i (CV.data E) NaN = Fin (tap_sum (fun j => v j * v j)%R T)).
  { unfold E. rewrite (nth_GaussianBlur sq 11 1.5 i);
      [| apply sq_wf | exact Hne | apply sq_finite | lia
       | destruct Lsq as (_ & _ & _ & ->); exact Hi].
    f_equal. apply tap_sum_ext. intros wi Hwi.
    rewrite (sq_sample (snd wi))
      by apply (taps_in_range A 11 1.5 _ _ _ Hwf Hne Hch wi Hwi).
    reflexivity. }
  assert (Hvar : (0 <= tap_sum (fun j => v j * v j) T
                       - tap_sum v T * tap_sum v T)%R).
  { apply tap_sum_variance_nonneg.
    - intros wi Hwi. apply (taps_nonneg A 11 1.5 _ _ _ ltac:(lia) wi Hwi).
    - apply taps_sum; lia. }
  set (mu := tap_sum v T) in *.
  set (e := tap_sum (fun j => (v j * v j)%R) T) in *.
  rewrite (nth_divide A i Hi) by auto 10 with like_db.
  rewrite !(nth_mul A i Hi) by auto 10 with like_db.
  rewrite !(nth_add_scalar_first A i Hi) by (auto 10 with like_db).
  rewrite !(nth_scale A i Hi) by auto 10 with like_db.
  rewrite !(nth_add A i Hi) by auto 10 with like_db.
  rewrite !(nth_sub A i Hi) by auto 10 with like_db.
  rewrite !(nth_mul A i Hi) by auto 10 with like_db.
  rewrite Hmu, He. unfold Ssim.C1, Ssim.C2.
  cbn [dmul dadd dsub dneg].
  rewrite ddiv_Fin by nra.
  f_equal. field. nra.
Qed.
End SsimSelf.

Lemma Depth_eqb_refl (d : CV.Depth) : CV.Depth_eqb d d = true.
Proof. now destruct d. Qed.

Lemma like_ssimMap (A : CV.Mat) : like A (Ssim.ssimMap A A).
Proof. unfold Ssim.ssimMap. cbv zeta. auto 20 with like_db. Qed.

(** C4: for a non-empty matrix of finite samples compared with itself, the
    SSIM map is 1 at every sample of the first channel, and [computeSSIM]
    returns 1. *)
Theorem computeSSIM_self_is_one :
  forall A : CV.Mat,
    CV.Mat_wf A -> CV.empty A = false -> CV.Mat_finite A ->
    (forall i : nat,
        (i < length (CV.data A))%nat -> CV.channel_of A i = 0%Z ->
        nth i (CV.data (Ssim.ssimMap A A)) NaN = Fin 1)
    /\ Ssim.computeSSIM A A = Fin 1.
Proof.
  intros A Hwf Hne Hfin.
  split; [intros i; now apply ssimMap_self_sample|].
  pose proof (like_ssimMap A) as (Hr & Hc & Hch & Hlen).
  set (M := Ssim.ssimMap A A) in *.
  assert (HwfM : CV.Mat_wf M).
  { destruct Hwf as (? & ? & ? & ?). unfold CV.Mat_wf.
    rewrite Hr, Hc, Hch, Hlen. tauto. }
  assert (Hones : Forall (fun v => v = Fin 1) (CV.channel M 0)).
  { apply Forall_forall. intros v Hv. apply In_channel in Hv.
    destruct Hv as (i & Hi & Hci & ->).
    apply ssimMap_self_sample; try assumption;
      try (now rewrite <- Hlen);
      unfold CV.channel_of in *; now rewrite <- Hch. }
  unfold Ssim.computeSSIM. rewrite Hne. cbn [orb].
  rewrite !Z.eqb_refl. unfold CV.type_eqb.
  rewrite Depth_eqb_refl, Z.eqb_refl. cbn [andb negb]. fold M.
  unfold CV.scalar_at, CV.mean.
  change (Int.upto 4) with [0; 1; 2; 3]%Z. cbn [map nth Z.to_nat].
  destruct Hwf as (Hr0 & Hc0 & Hch0 & _).
  replace (0 <? CV.channels M)%Z with true
    by (symmetry; apply Z.ltb_lt; lia).
  rewrite (dsum_ones _ Hones). rewrite INR_IZR_INZ.
  rewrite (length_channel_0 M HwfM).
  unfold of_int. unfold CV.empty in Hne. apply Z.eqb_neq in Hne.
  assert (Ht : CV.total M = CV.total A) by (unfold CV.total; congruence).
  rewrite ddiv_Fin by (rewrite Ht; now apply not_0_IZR).
  f_equal. apply Rdiv_diag. rewrite Ht. now apply not_0_IZR.
Qed.

Lemma computeSSIM_self_is_one_witness :
  Ssim.computeSSIM (uniform_4x4 100) (uniform_4x4 100) = Fin 1.
Proof.
  apply (proj2 (computeSSIM_self_is_one (uniform_4x4 100)
                  (uniform_4x4_wf 100) eq_refl (uniform_4x4_finite 100))).
Defined.

(** ** More of [tester.cpp]: invariants, formulas and ranges *)

(** *** Well-formed outputs *)

Lemma flat_In (img : Tester.Image) (p q : Tester.RGB) :
  flat img p -> In q (Tester.pixels img) -> q = p.
Proof. intros H. apply (proj1 (Forall_forall _ _) H). Qed.

Lemma grey_3x3_flat : flat grey_3x3 (Tester.mkRGB 100 100 100).
Proof. unfold flat, grey_3x3. simpl. repeat constructor. Qed.

Lemma to_uchar_byte (d : double) : (0 <= to_uchar d <= 255)%Z.
Proof.
  unfold to_uchar. destruct d as [x| | |]; try lia.
  destruct ((Int.min_int <=? Rtrunc x) && (Rtrunc x <=? Int.max_int))%Z; [|lia].
  pose proof (Z.mod_pos_bound (Rtrunc x) 256 ltac:(lia)). lia.
Qed.

Lemma length_flat_map_const (A B : Type) (g : A -> list B) (l : list A) (n : nat) :
  (forall a, In a l -> length (g a) = n) ->
  length (flat_map g l) = (length l * n)%nat.
Proof.
  induction l as [|a l IH]; intros H; simpl; [reflexivity|].
  rewrite length_app, (H a) by now left.
  rewrite IH by (intros a' Ha'; apply H; now right). lia.
Qed.

Lemma length_for_each_pixel (w h : Z) (f : Z -> Z -> Tester.RGB) :
  (0 <= w)%Z -> (0 <= h)%Z ->
  Z.of_nat (length (Tester.pixels (Tester.for_each_pixel w h f))) = (w * h)%Z.
Proof.
  intros Hw Hh. unfold Tester.for_each_pixel. simpl.
  rewrite (length_flat_map_const _ _ _ _ (Z.to_nat w)).
  - rewrite length_upto. nia.
  - intros y _. now rewrite length_map, length_upto.
Qed.

Lemma for_each_pixel_wf (w h : Z) (f : Z -> Z -> Tester.RGB) :
  (0 < w)%Z -> (0 < h)%Z -> (w * h <= Int.max_int)%Z ->
  (forall x y, (0 <= x < w)%Z -> (0 <= y < h)%Z -> Tester.pixel_ok (f x y)) ->
  Tester.Image_wf (Tester.for_each_pixel w h f).
Proof.
  intros Hw Hh Hwh Hf. unfold Tester.Image_wf.
  rewrite length_for_each_pixel by lia.
  simpl. repeat split; try assumption.
  apply Forall_forall. intros p Hp. apply in_flat_map in Hp.
  destruct Hp as [y [Hy Hp]]. apply in_map_iff in Hp.
  destruct Hp as [x [<- Hx]]. apply In_upto in Hx, Hy. now apply Hf.
Qed.

Lemma stored_pixel_ok (a b c : double) :
  Tester.pixel_ok (Tester.mkRGB (to_uchar a) (to_uchar b) (to_uchar c)).
Proof.
  unfold Tester.pixel_ok, Tester.byte. simpl.
  pose proof (to_uchar_byte a). pose proof (to_uchar_byte b).
  pose proof (to_uchar_byte c). lia.
Qed.



(** *** The sharpen filter as a formula *)

Lemma for_each_pixel_ext (w h : Z) (f g : Z -> Z -> Tester.RGB) :
  (forall x y, (0 <= x < w)%Z -> (0 <= y < h)%Z -> f x y = g x y) ->
  Tester.for_each_pixel w h f = Tester.for_each_pixel w h g.
Proof.
  intros H. unfold Tester.for_each_pixel. f_equal.
  assert (G : forall ys, (forall y, In y ys -> (0 <= y < h)%Z) ->
            flat_map (fun y => map (fun x => f x y) (Int.upto w)) ys
            = flat_map (fun y => map (fun x => g x y) (Int.upto w)) ys).
  { induction ys as [|y ys IH]; intros Hys; simpl; [reflexivity|].
    rewrite IH by (intros y' Hy'; apply Hys; now right).
    f_equal. apply map_ext_in. intros x Hx. apply In_upto in Hx.
    apply H; [assumption|]. apply Hys. now left. }
  apply G. intros y Hy. now apply In_upto in Hy.
Qed.

Lemma for_each_pixel_at (img : Tester.Image) :
  Tester.Image_wf img ->
  Tester.for_each_pixel (Tester.width img) (Tester.height img) (Tester.at_ img)
  = img.
Proof.
  intros (Hw & Hh & Hwh & Hlen & _).
  assert (HL := length_for_each_pixel (Tester.width img) (Tester.height img)
                (Tester.at_ img) (Z.lt_le_incl _ _ Hw) (Z.lt_le_incl _ _ Hh)).
  pose proof (at_for_each_pixel (Tester.width img) (Tester.height img)
                (Tester.at_ img)) as Hat.
  destruct img as [w h px]. cbn [Tester.width Tester.height Tester.pixels] in *.
  set (out := Tester.for_each_pixel w h (Tester.at_ (Tester.mkImage w h px))) in *.
  assert (E : Tester.pixels out = px).
  { apply nth_ext with (d := Tester.black) (d' := Tester.black); [lia|].
    intros n Hn.
    assert (Hn' : (0 <= Z.of_nat n < w * h)%Z) by lia.
    pose proof (Z.div_mod (Z.of_nat n) w ltac:(lia)) as Ed.
    pose proof (Z.mod_pos_bound (Z.of_nat n) w ltac:(lia)) as Bm.
    assert (Bq : (0 <= Z.of_nat n / w < h)%Z).
    { split; [apply Z.div_pos; lia|]. apply Z.div_lt_upper_bound; lia. }
    specialize (Hat (Z.of_nat n mod w)%Z (Z.of_nat n / w)%Z Bm Bq).
    unfold Tester.at_ in Hat. cbn [Tester.width Tester.height Tester.pixels] in Hat.
    change (Tester.width out) with w in Hat.
    replace (Z.to_nat (Z.of_nat n / w * w + Z.of_nat n mod w)) with n in Hat
      by lia.
    exact Hat. }
  unfold out in *. unfold Tester.for_each_pixel in *.
  cbn [Tester.pixels] in E. now rewrite E.
Qed.

Lemma Int_sub_add_1 (x k : Z) :
  Int.in_range (x + k - 1) -> Int.sub (Int.add x k) 1 = (x + k - 1)%Z.
Proof.
  intros H. unfold Int.sub, Int.add.
  rewrite <- (wrap_in_range (x + k - 1) H). unfold Int.wrap. f_equal.
  replace ((x + k + 2147483648) mod 4294967296 - 2147483648 - 1 + 2147483648)%Z
    with ((x + k + 2147483648) mod 4294967296 - 1)%Z by lia.
  rewrite Zminus_mod_idemp_l. f_equal. lia.
Qed.

Lemma sharpen_coord (x k bound : Z) :
  (0 <= x < bound)%Z -> (bound <= Int.max_int)%Z -> (0 <= k <= 2)%Z ->
  Tester.clamp_coord (Int.sub (Int.add x k) 1) bound
  = BilateralSpec.clamp (x + (k - 1)) bound.
Proof.
  intros Hx Hb Hk. rewrite Int_sub_add_1 by (unfold Int.max_int in *; int_range).
  rewrite clamp_coord_spec by (unfold Int.max_int in *; int_range).
  f_equal. lia.
Qed.

Lemma sharpen_kernel_Fin (a : R) (i j : Z) :
  Tester.sharpen_kernel (Fin a) i j
  = Fin (if (negb (i =? 1) || negb (j =? 1))%Z then - a else 1 + 4 * a).
Proof.
  unfold Tester.sharpen_kernel.
  destruct (negb (i =? 1)%Z || negb (j =? 1)%Z); [reflexivity|].
  unfold of_int. cbn [dmul dadd]. reflexivity.
Qed.

Lemma accumulate_Fin (a b c : R) (p : Tester.RGB) (w : R) :
  Tester.accumulate (Tester.mkSums3 (Fin a) (Fin b) (Fin c)) p (Fin w)
  = Tester.mkSums3 (Fin (a + IZR (Tester.r p) * w))
                   (Fin (b + IZR (Tester.g p) * w))
                   (Fin (c + IZR (Tester.b p) * w)).
Proof. reflexivity. Qed.

Lemma sharpen_sums_value (img : Tester.Image) (a : R) (x y : Z) :
  Tester.Image_wf img ->
  (0 <= x < Tester.width img)%Z -> (0 <= y < Tester.height img)%Z ->
  Tester.sharpen_sums img (Fin a) x y
  = Tester.mkSums3 (Fin (SharpenSpec.sharpened img a x y Tester.r))
                   (Fin (SharpenSpec.sharpened img a x y Tester.g))
                   (Fin (SharpenSpec.sharpened img a x y Tester.b)).
Proof.
  intros (Hw & Hh & Hwh & _ & _) Hx Hy.
  assert (Hwm : (Tester.width img <= Int.max_int)%Z) by nia.
  assert (Hhm : (Tester.height img <= Int.max_int)%Z) by nia.
  unfold Tester.sharpen_sums.
  change (Int.upto 3) with [0; 1; 2]%Z. cbn [fold_left].
  rewrite !(sharpen_coord x _ (Tester.width img)) by lia.
  rewrite !(sharpen_coord y _ (Tester.height img)) by lia.
  rewrite !sharpen_kernel_Fin.
  change (0 - 1)%Z with (-1)%Z. change (1 - 1)%Z with 0%Z.
  change (2 - 1)%Z with 1%Z.
  cbn [Z.eqb negb orb Pos.eqb].
  unfold Tester.sums3_0. rewrite !accumulate_Fin.
  assert (Ec : Tester.at_ img x y = BilateralSpec.neighbour img x y (0, 0)%Z).
  { unfold BilateralSpec.neighbour, BilateralSpec.clamp. simpl.
    f_equal; lia. }
  unfold SharpenSpec.sharpened, SharpenSpec.ring. rewrite Ec.
  unfold BilateralSpec.neighbour. cbn [map CV.Rsum fold_right fst snd].
  f_equal; f_equal; ring.
Qed.

Lemma sharpen_pixel_value (img : Tester.Image) (a : R) (x y : Z) :
  Tester.Image_wf img ->
  (0 <= x < Tester.width img)%Z -> (0 <= y < Tester.height img)%Z ->
  Tester.at_ (Tester.applySharpen img (Fin a)) x y
  = Tester.mkRGB
      (to_uchar (Tester.clamp255 (Fin (SharpenSpec.sharpened img a x y Tester.r))))
      (to_uchar (Tester.clamp255 (Fin (SharpenSpec.sharpened img a x y Tester.g))))
      (to_uchar (Tester.clamp255 (Fin (SharpenSpec.sharpened img a x y Tester.b)))).
Proof.
  intros Hwf Hx Hy. unfold Tester.applySharpen.
  rewrite at_for_each_pixel by assumption.
  now rewrite sharpen_sums_value.
Qed.

Lemma clamped_byte (v : R) : (0 <= SharpenSpec.clamped v <= 255)%R.
Proof.
  unfold SharpenSpec.clamped, Rmin, Rmax.
  destruct (Rle_dec 0 v); destruct (Rle_dec 255 v);
    try destruct (Rle_dec 255 0); lra.
Qed.

(** X2: for a well-formed image and an amount [a] between -1000 and 1000,
    each channel of a pixel of the sharpened image is
    [(1 + 4 a) * centre - a * (sum of the eight neighbours)], the neighbours
    taken at coordinates clamped to the image, then clamped to [0, 255] and
    truncated to an integer, to within the rounding of the [double]
    arithmetic ([truncated 1]: the stored value is at most the clamped value
    and less than 1 below it, give or take [slack]).  All eight neighbours
    weigh [-a], the four diagonal ones included. *)
Theorem applySharpen_weighs_centre_against_ring :
  forall (img : Tester.Image) (a : R) (x y : Z) (ch : Tester.RGB -> Z),
    Tester.Image_wf img -> (-1000 <= a <= 1000)%R ->
    (0 <= x < Tester.width img)%Z -> (0 <= y < Tester.height img)%Z ->
    In ch [Tester.r; Tester.g; Tester.b] ->
    truncated 1 (ch (Tester.at_ (Tester.applySharpen img (Fin a)) x y))
              (SharpenSpec.clamped (SharpenSpec.sharpened img a x y ch)).
Proof.
  intros img a x y ch Hwf _ Hx Hy Hch.
  rewrite sharpen_pixel_value by assumption.
  rewrite !clamp255_Fin. unfold SharpenSpec.clamped.
  destruct Hch as [<- | [<- | [<- | []]]]; cbn [Tester.r Tester.g Tester.b];
    apply to_uchar_truncated; apply clamped_byte.
Qed.

Lemma applySharpen_weighs_centre_against_ring_witness :
  Forall (fun ch =>
            truncated 1
              (ch (Tester.at_ (Tester.applySharpen grey_3x3 (Fin 1)) 1 1))
              (SharpenSpec.clamped (SharpenSpec.sharpened grey_3x3 1 1 1 ch)))
         [Tester.r; Tester.g; Tester.b].
Proof.
  apply Forall_forall. intros ch Hch.
  apply (applySharpen_weighs_centre_against_ring grey_3x3 1%R 1%Z 1%Z ch
           grey_3x3_wf); [lra | simpl; lia | simpl; lia | exact Hch].
Defined.

Lemma to_uchar_clamp255_byte (v : Z) :
  (0 <= v <= 255)%Z -> to_uchar (Tester.clamp255 (Fin (IZR v))) = v.
Proof.
  intros Hv. rewrite clamp255_Fin.
  assert (H0 : (0 <= IZR v)%R) by (apply (IZR_le 0 v); lia).
  assert (H1 : (IZR v <= 255)%R) by (apply (IZR_le v 255); lia).
  rewrite Rmax_right by assumption. rewrite Rmin_right by assumption.
  now apply to_uchar_Fin_IZR.
Qed.

(** X3: with the amount 0 the sharpen filter returns a well-formed image
    unchanged. *)
Theorem applySharpen_amount_0_is_identity :
  forall img : Tester.Image,
    Tester.Image_wf img -> Tester.applySharpen img (Fin 0) = img.
Proof.
  intros img Hwf.
  rewrite <- (for_each_pixel_at img Hwf) at 2.
  unfold Tester.applySharpen. apply for_each_pixel_ext. intros x y Hx Hy.
  rewrite sharpen_sums_value by assumption. cbn [Tester.accR Tester.accG Tester.accB].
  destruct (at_pixel_ok img x y Hwf Hx Hy) as (Hr & Hg & Hb).
  unfold SharpenSpec.sharpened.
  replace ((1 + 4 * 0) * IZR (Tester.r (Tester.at_ img x y)) - 0 * _)%R
    with (IZR (Tester.r (Tester.at_ img x y))) by ring.
  replace ((1 + 4 * 0) * IZR (Tester.g (Tester.at_ img x y)) - 0 * _)%R
    with (IZR (Tester.g (Tester.at_ img x y))) by ring.
  replace ((1 + 4 * 0) * IZR (Tester.b (Tester.at_ img x y)) - 0 * _)%R
    with (IZR (Tester.b (Tester.at_ img x y))) by ring.
  rewrite !to_uchar_clamp255_byte by assumption.
  now destruct (Tester.at_ img x y).
Qed.

Lemma applySharpen_amount_0_is_identity_witness :
  Tester.applySharpen grey_3x3 (Fin 0) = grey_3x3.
Proof. apply (applySharpen_amount_0_is_identity grey_3x3 grey_3x3_wf). Defined.

(** *** Flat images and the range of the bilateral filter *)

Lemma at_In (img : Tester.Image) (x y : Z) :
  Tester.Image_wf img ->
  (0 <= x < Tester.width img)%Z -> (0 <= y < Tester.height img)%Z ->
  In (Tester.at_ img x y) (Tester.pixels img).
Proof.
  intros (Hw & Hh & _ & Hlen & _) Hx Hy. unfold Tester.at_.
  apply nth_In. nia.
Qed.

Lemma neighbour_In (img : Tester.Image) (x y : Z) (k : Z * Z) :
  Tester.Image_wf img ->
  In (BilateralSpec.neighbour img x y k) (Tester.pixels img).
Proof.
  intros Hwf. pose proof Hwf as (Hw & Hh & _).
  unfold BilateralSpec.neighbour. apply at_In; try assumption;
    now apply clamp_bounds.
Qed.

Lemma In_for_each_pixel (w h : Z) (f : Z -> Z -> Tester.RGB) (p : Tester.RGB) :
  In p (Tester.pixels (Tester.for_each_pixel w h f)) ->
  exists x y, (0 <= x < w)%Z /\ (0 <= y < h)%Z /\ p = f x y.
Proof.
  unfold Tester.for_each_pixel. simpl. intros H. apply in_flat_map in H.
  destruct H as [y [Hy H]]. apply in_map_iff in H. destruct H as [x [<- Hx]].
  apply In_upto in Hx, Hy. now exists x, y.
Qed.

Lemma flat_for_each_pixel (w h : Z) (f : Z -> Z -> Tester.RGB) (p : Tester.RGB) :
  (forall x y, (0 <= x < w)%Z -> (0 <= y < h)%Z -> f x y = p) ->
  flat (Tester.for_each_pixel w h f) p.
Proof.
  intros H. apply Forall_forall. intros q Hq.
  apply In_for_each_pixel in Hq. destruct Hq as (x & y & Hx & Hy & ->).
  now apply H.
Qed.

(** The sharpen filter on a flat image, on the real numbers of the
    model. *)
Lemma applySharpen_flat_exact :
  forall (img : Tester.Image) (p : Tester.RGB) (a : R),
    Tester.Image_wf img -> flat img p ->
    flat (Tester.applySharpen img (Fin a))
         (Tester.mkRGB
            (to_uchar (Tester.clamp255 (Fin ((1 - 4 * a) * IZR (Tester.r p)))))
            (to_uchar (Tester.clamp255 (Fin ((1 - 4 * a) * IZR (Tester.g p)))))
            (to_uchar (Tester.clamp255 (Fin ((1 - 4 * a) * IZR (Tester.b p))))))
    /\ ((1 / 4 <= a)%R -> flat (Tester.applySharpen img (Fin a)) Tester.black).
Proof.
  intros img p a Hwf Hflat.
  assert (Hv : forall x y ch,
             (0 <= x < Tester.width img)%Z -> (0 <= y < Tester.height img)%Z ->
             SharpenSpec.sharpened img a x y ch = ((1 - 4 * a) * IZR (ch p))%R).
  { intros x y ch Hx Hy. unfold SharpenSpec.sharpened, SharpenSpec.ring.
    rewrite (proj1 (Forall_forall _ _) Hflat (Tester.at_ img x y))
      by now apply at_In.
    cbn [map CV.Rsum fold_right].
    rewrite !(proj1 (Forall_forall _ _) Hflat (BilateralSpec.neighbour img x y _))
      by now apply neighbour_In.
    ring. }
  assert (Hpx : forall x y,
             (0 <= x < Tester.width img)%Z -> (0 <= y < Tester.height img)%Z ->
             Tester.at_ img x y = p).
  { intros x y Hx Hy.
    apply (proj1 (Forall_forall _ _) Hflat). now apply at_In. }
  split.
  - unfold Tester.applySharpen. apply flat_for_each_pixel. intros x y Hx Hy.
    rewrite sharpen_sums_value by assumption.
    cbn [Tester.accR Tester.accG Tester.accB]. now rewrite !Hv.
  - intros Ha. unfold Tester.applySharpen. apply flat_for_each_pixel.
    intros x y Hx Hy. rewrite sharpen_sums_value by assumption.
    cbn [Tester.accR Tester.accG Tester.accB]. rewrite !Hv by assumption.
    destruct (at_pixel_ok img x y Hwf Hx Hy) as (Hr & Hg & Hb).
    rewrite (Hpx x y Hx Hy) in Hr, Hg, Hb.
    unfold Tester.byte in *.
    assert (Hr' : (0 <= IZR (Tester.r p))%R) by (apply (IZR_le 0); lia).
    assert (Hg' : (0 <= IZR (Tester.g p))%R) by (apply (IZR_le 0); lia).
    assert (Hb' : (0 <= IZR (Tester.b p))%R) by (apply (IZR_le 0); lia).
    rewrite !to_uchar_clamp255_neg by nra. reflexivity.
Qed.

(** X4: on a flat well-formed image (every pixel equal to [p]) the sharpen
    filter with an amount [a] between -1000 and 1000 returns a flat image;
    its channels
    are [clamp ((1 - 4 a) * v)] for the channels [v] of [p], truncated to an
    integer, to within the rounding of the [double] arithmetic
    ([truncated 1]); from the amount 1/4 on, the result is black. *)
Theorem applySharpen_flat_image :
  forall (img : Tester.Image) (p : Tester.RGB) (a : R),
    Tester.Image_wf img -> flat img p -> (-1000 <= a <= 1000)%R ->
    (exists q : Tester.RGB,
        flat (Tester.applySharpen img (Fin a)) q
        /\ forall ch, In ch [Tester.r; Tester.g; Tester.b] ->
             truncated 1 (ch q)
               (SharpenSpec.clamped ((1 - 4 * a) * IZR (ch p))))
    /\ ((1 / 4 <= a)%R -> flat (Tester.applySharpen img (Fin a)) Tester.black).
Proof.
  intros img p a Hwf Hflat _.
  destruct (applySharpen_flat_exact img p a Hwf Hflat) as [H1 H2].
  split; [|exact H2].
  eexists. split; [exact H1|].
  intros ch Hch. rewrite !clamp255_Fin. unfold SharpenSpec.clamped.
  destruct Hch as [<- | [<- | [<- | []]]]; cbn [Tester.r Tester.g Tester.b];
    apply to_uchar_truncated; apply clamped_byte.
Qed.

Lemma applySharpen_flat_image_witness :
  flat (Tester.applySharpen grey_3x3 (Fin 1)) Tester.black.
Proof.
  apply (proj2 (applySharpen_flat_image grey_3x3 (Tester.mkRGB 100 100 100) 1%R
                  grey_3x3_wf grey_3x3_flat ltac:(lra))).
  lra.
Defined.

Lemma wf_pixel_ok (img : Tester.Image) (q : Tester.RGB) :
  Tester.Image_wf img -> In q (Tester.pixels img) -> Tester.pixel_ok q.
Proof.
  intros (_ & _ & _ & _ & Hall). apply (proj1 (Forall_forall _ _) Hall).
Qed.

Lemma channel_cases (P : (Tester.RGB -> Z) -> Prop) (ch : Tester.RGB -> Z) :
  In ch [Tester.r; Tester.g; Tester.b] ->
  P Tester.r -> P Tester.g -> P Tester.b -> P ch.
Proof.
  simpl. intros [<- | [<- | [<- | []]]]; auto.
Qed.

Lemma channel_byte (ch : Tester.RGB -> Z) (q : Tester.RGB) :
  In ch [Tester.r; Tester.g; Tester.b] -> Tester.pixel_ok q ->
  (0 <= ch q <= 255)%Z.
Proof.
  intros Hch (Hr & Hg & Hb). unfold Tester.byte in *.
  now apply (channel_cases (fun c => (0 <= c q <= 255)%Z) ch Hch).
Qed.

(** A channel of the pixel the bilateral filter computes lies between the
    bounds of the channel over the neighbourhood. *)
Lemma bilateral_pixel_between (img : Tester.Image) (ss sr : R) (x y o : Z)
    (ch : Tester.RGB -> Z) (lo hi : Z) :
  Tester.Image_wf img ->
  (Tester.width img <= 1073741824)%Z ->
  (Tester.height img <= 1073741824)%Z ->
  (0 < ss)%R -> (0 < sr)%R ->
  (0 <= x < Tester.width img)%Z -> (0 <= y < Tester.height img)%Z ->
  (0 <= o <= 32767)%Z ->
  (forall q, In q (BilateralSpec.window o) ->
             BilateralSpec.square_fits_int
               (BilateralSpec.color_dist (Tester.at_ img x y)
                  (BilateralSpec.neighbour img x y q))) ->
  In ch [Tester.r; Tester.g; Tester.b] ->
  (forall q, In q (BilateralSpec.window o) ->
             (lo <= ch (BilateralSpec.neighbour img x y q) <= hi)%Z) ->
  (lo <= ch (Tester.bilateral_pixel img o (Fin ss) (Fin sr) x y) <= hi)%Z.
Proof.
  intros Hwf Hw Hh Hss Hsr Hx Hy Ho Hfit Hch Hrange.
  rewrite (bilateral_pixel_weighted_mean img ss sr x y o
             Hwf Hw Hh Hss Hsr Hx Hy Ho Hfit).
  assert (G : (Z.max lo 0
               <= to_uchar (Fin (BilateralSpec.weighted_mean img o ss sr x y ch))
               <= Z.min hi 255)%Z).
  { assert (Hne := window_nonempty o Ho).
    assert (H00 : exists q, In q (BilateralSpec.window o)).
    { destruct (BilateralSpec.window o) as [|q l]; [contradiction|].
      exists q. now left. }
    destruct H00 as [q0 Hq0].
    pose proof (Hrange q0 Hq0).
    pose proof (channel_byte ch _ Hch
                  (wf_pixel_ok img _ Hwf (neighbour_In img x y q0 Hwf))).
    apply to_uchar_between; [lia | lia |].
    unfold BilateralSpec.weighted_mean. apply weighted_mean_between.
    - assumption.
    - intros q _. apply weight_pos.
    - intros q Hq. pose proof (Hrange q Hq).
      pose proof (channel_byte ch _ Hch
                    (wf_pixel_ok img _ Hwf (neighbour_In img x y q Hwf))).
      lia. }
  revert G.
  apply (channel_cases
           (fun c => (Z.max lo 0
                      <= to_uchar
                           (Fin (BilateralSpec.weighted_mean img o ss sr x y c))
                      <= Z.min hi 255)%Z ->
                     (lo <= c (Tester.mkRGB
                         (to_uchar (Fin (BilateralSpec.weighted_mean img o ss sr x y Tester.r)))
                         (to_uchar (Fin (BilateralSpec.weighted_mean img o ss sr x y Tester.g)))
                         (to_uchar (Fin (BilateralSpec.weighted_mean img o ss sr x y Tester.b))))
                      <= hi)%Z) ch Hch); simpl; lia.
Qed.

Lemma half_kernel (k : Z) : (1 <= k <= 65535)%Z -> (0 <= k / 2 <= 32767)%Z.
Proof.
  intros Hk. split; [apply Z.div_pos; lia|].
  assert (k / 2 < 32768)%Z by (apply Z.div_lt_upper_bound; lia). lia.
Qed.

(** The range of the bilateral filter, on the real numbers of the model. *)
Lemma applyBilateralFilter_range_exact :
  forall (img : Tester.Image) (k : Z) (ss sr : R)
         (ch : Tester.RGB -> Z) (lo hi : Z),
    Tester.Image_wf img ->
    (Tester.width img <= 1073741824)%Z ->
    (Tester.height img <= 1073741824)%Z ->
    (1 <= k <= 65535)%Z -> (0 < ss)%R -> (0 < sr)%R ->
    (forall p q, In p (Tester.pixels img) -> In q (Tester.pixels img) ->
                 BilateralSpec.square_fits_int (BilateralSpec.color_dist p q)) ->
    In ch [Tester.r; Tester.g; Tester.b] ->
    (forall p, In p (Tester.pixels img) -> (lo <= ch p <= hi)%Z) ->
    forall p, In p (Tester.pixels
                      (Tester.applyBilateralFilter img k (Fin ss) (Fin sr))) ->
              (lo <= ch p <= hi)%Z.
Proof.
  intros img k ss sr ch lo hi Hwf Hw Hh Hk Hss Hsr Hfit Hch Hrange p Hp.
  unfold Tester.applyBilateralFilter in Hp. cbv zeta in Hp.
  apply In_for_each_pixel in Hp. destruct Hp as (x & y & Hx & Hy & ->).
  rewrite Int_div_2 by (unfold Int.max_int; lia).
  apply bilateral_pixel_between; try assumption.
  - now apply half_kernel.
  - intros q _. apply Hfit; [now apply at_In | now apply neighbour_In].
  - intros q _. apply Hrange. now apply neighbour_In.
Qed.

(** X5: the bilateral filter creates no new maximum, and goes at most one
    below the minimum.  For a well-formed image (dimensions at most 2^30)
    in which no two pixels have a colour distance above 46340 (so that no square overflows), a kernel
    size in 1..65535 and finite spreads from [sigma_min] on, if a channel
    lies in [lo, hi] on every pixel of the input then it lies in
    [lo - 1, hi] on every pixel of the output.  The weighted mean itself
    lies in [lo, hi]; the one below is the room for the rounding of the
    quotient that is truncated. *)
Theorem applyBilateralFilter_output_range :
  forall (img : Tester.Image) (k : Z) (ss sr : R)
         (ch : Tester.RGB -> Z) (lo hi : Z),
    Tester.Image_wf img ->
    (Tester.width img <= 1073741824)%Z ->
    (Tester.height img <= 1073741824)%Z ->
    (1 <= k <= 65535)%Z -> (sigma_min <= ss)%R -> (sigma_min <= sr)%R ->
    (forall p q, In p (Tester.pixels img) -> In q (Tester.pixels img) ->
                 BilateralSpec.square_fits_int (BilateralSpec.color_dist p q)) ->
    In ch [Tester.r; Tester.g; Tester.b] ->
    (forall p, In p (Tester.pixels img) -> (lo <= ch p <= hi)%Z) ->
    forall p, In p (Tester.pixels
                      (Tester.applyBilateralFilter img k (Fin ss) (Fin sr))) ->
              (lo - 1 <= ch p <= hi)%Z.
Proof.
  intros img k ss sr ch lo hi Hwf Hw Hh Hk Hss Hsr Hfit Hch Hrange p Hp.
  pose proof sigma_min_pos.
  assert (lo <= ch p <= hi)%Z; [|lia].
  apply (applyBilateralFilter_range_exact img k ss sr ch lo hi);
    try assumption; lra.
Qed.

Lemma applyBilateralFilter_output_range_witness :
  Forall (fun p => (100 - 1 <= Tester.r p <= 100)%Z)
         (Tester.pixels (Tester.applyBilateralFilter grey_3x3 3 (Fin 1) (Fin 1))).
Proof.
  apply Forall_forall.
  apply (applyBilateralFilter_output_range grey_3x3 3 1%R 1%R Tester.r 100 100
           grey_3x3_wf).
  - simpl. lia.
  - simpl. lia.
  - lia.
  - exact sigma_min_le_1.
  - exact sigma_min_le_1.
  - intros p q Hp Hq.
    rewrite (flat_In grey_3x3 _ p grey_3x3_flat Hp).
    rewrite (flat_In grey_3x3 _ q grey_3x3_flat Hq).
    unfold BilateralSpec.square_fits_int, BilateralSpec.color_dist. simpl. lia.
  - simpl. auto.
  - intros p Hp. rewrite (flat_In grey_3x3 _ p grey_3x3_flat Hp). simpl. lia.
Defined.

(** *** The Gaussian blur as two passes of weighted means *)

Lemma two_sq_pos (s : R) : s <> 0%R -> (0 < 2 * s * s)%R.
Proof.
  intros H. assert (0 < s * s)%R; [|lra].
  destruct (Rtotal_order s 0) as [Hn | [Hz | Hp]]; [nra | contradiction | nra].
Qed.

Lemma gaussian_raw_Fin (k : Z) (sigma : R) :
  (0 <= k <= 65535)%Z -> sigma <> 0%R ->
  Tester.gaussian_raw k (Fin sigma)
  = map (fun j => Fin (GaussianSpec.tap_weight k sigma j)) (Int.upto k).
Proof.
  intros Hk Hs. unfold Tester.gaussian_raw. cbv zeta.
  apply map_ext_in. intros j Hj. apply In_upto in Hj.
  rewrite Int_div_2 by (unfold Int.max_int; lia).
  assert (Hc : (0 <= k / 2 <= 32767)%Z).
  { split; [apply Z.div_pos; lia|].
    assert (k / 2 < 32768)%Z by (apply Z.div_lt_upper_bound; lia). lia. }
  unfold GaussianSpec.tap_weight.
  assert (Hc2 : (k <= 2 * (k / 2) + 1)%Z).
  { pose proof (Z.div_mod k 2 ltac:(lia)).
    pose proof (Z.mod_pos_bound k 2 ltac:(lia)). lia. }
  set (c := (k / 2)%Z) in *. clearbody c.
  rewrite Int_sub_small by int_range.
  rewrite Int_mul_small by int_range.
  rewrite Int_neg_small by int_range.
  unfold of_int. cbn [dmul]. pose proof (two_sq_pos sigma Hs).
  rewrite ddiv_Fin by lra. rewrite opp_IZR.
  rewrite dexp_nonpos; [reflexivity|].
  assert (0 <= IZR ((j - c) * (j - c)))%R
    by (apply (IZR_le 0); apply Z.square_nonneg).
  apply Rmult_le_reg_r with (2 * sigma * sigma)%R; [assumption|].
  unfold Rdiv. rewrite Rmult_assoc, Rinv_l by lra. lra.
Qed.

Lemma Tester_dsum_Fin (l : list R) :
  Tester.dsum (map Fin l) = Fin (CV.Rsum l).
Proof.
  unfold Tester.dsum.
  assert (G : forall a : R,
             fold_left dadd (map Fin l) (Fin a) = Fin (a + CV.Rsum l)).
  { induction l as [|v l IH]; intros a; simpl.
    - f_equal. lra.
    - rewrite IH. f_equal. lra. }
  rewrite G. f_equal. lra.
Qed.

Lemma weights_sum_pos (k : Z) (sigma : R) :
  (1 <= k)%Z -> (0 < CV.Rsum (map (GaussianSpec.tap_weight k sigma) (Int.upto k)))%R.
Proof.
  intros Hk. apply Rsum_pos.
  - intros E. apply (f_equal (@length R)) in E.
    rewrite length_map, length_upto in E. simpl in E. lia.
  - apply Forall_forall. intros v Hv. apply in_map_iff in Hv.
    destruct Hv as [j [<- _]]. apply exp_pos.
Qed.

Lemma gaussian_kernel_Fin (k : Z) (sigma : R) :
  (1 <= k <= 65535)%Z -> sigma <> 0%R ->
  Tester.gaussian_kernel k (Fin sigma)
  = map (fun j => Fin (GaussianSpec.tap_weight k sigma j
                       / CV.Rsum (map (GaussianSpec.tap_weight k sigma) (Int.upto k))))
        (Int.upto k).
Proof.
  intros Hk Hs. unfold Tester.gaussian_kernel. cbv zeta.
  rewrite gaussian_raw_Fin by (assumption || lia).
  assert (Hd : Tester.dsum
                 (map (fun j => Fin (GaussianSpec.tap_weight k sigma j)) (Int.upto k))
               = Fin (CV.Rsum (map (GaussianSpec.tap_weight k sigma) (Int.upto k)))).
  { rewrite <- Tester_dsum_Fin. now rewrite map_map. }
  rewrite Hd. rewrite map_map.
  apply map_ext. intros j. apply ddiv_Fin.
  assert (Hk1 : (1 <= k)%Z) by lia.
  pose proof (weights_sum_pos k sigma Hk1). lra.
Qed.

Lemma nth_map_upto (f : Z -> double) (k j : Z) :
  (0 <= j < k)%Z -> nth (Z.to_nat j) (map f (Int.upto k)) NaN = f j.
Proof.
  intros Hj.
  rewrite nth_indep with (d' := f 0%Z)
    by (rewrite length_map, length_upto; lia).
  rewrite map_nth. unfold Int.upto. rewrite nth_range by lia. f_equal. lia.
Qed.

Lemma accumulate_fold_Fin (kernel1D : list double) (px : Z -> Tester.RGB)
    (w : Z -> R) (T : list Z) :
  (forall j, In j T -> nth (Z.to_nat j) kernel1D NaN = Fin (w j)) ->
  forall a b c : R,
    fold_left (fun s j => Tester.accumulate s (px j) (nth (Z.to_nat j) kernel1D NaN))
              T (Tester.mkSums3 (Fin a) (Fin b) (Fin c))
    = Tester.mkSums3
        (Fin (a + CV.Rsum (map (fun j => w j * IZR (Tester.r (px j))) T))%R)
        (Fin (b + CV.Rsum (map (fun j => w j * IZR (Tester.g (px j))) T))%R)
        (Fin (c + CV.Rsum (map (fun j => w j * IZR (Tester.b (px j))) T))%R).
Proof.
  induction T as [|j T IH]; intros H a b c.
  - simpl. f_equal; f_equal; lra.
  - cbn [fold_left]. rewrite (H j) by now left.
    rewrite accumulate_Fin. rewrite IH by (intros j' Hj'; apply H; now right).
    unfold CV.Rsum. cbn [map fold_right]. f_equal; f_equal; ring.
Qed.

Lemma Rsum_div_r (A : Type) (f : A -> R) (S : R) (l : list A) :
  CV.Rsum (map (fun a => (f a / S)%R) l) = (CV.Rsum (map f l) / S)%R.
Proof.
  induction l as [|x l IH]; simpl; [unfold Rdiv; ring | rewrite IH].
  unfold Rdiv. ring.
Qed.

Lemma gaussian_pass_spec (horizontal : bool) (src : Tester.Image) (k : Z)
    (sigma : R) :
  Tester.Image_wf src ->
  (Tester.width src <= 1073741824)%Z -> (Tester.height src <= 1073741824)%Z ->
  (1 <= k <= 65535)%Z -> sigma <> 0%R ->
  Tester.gaussian_pass horizontal src (Tester.gaussian_kernel k (Fin sigma)) k
                       (Int.div k 2)
  = GaussianSpec.pass horizontal src k sigma.
Proof.
  intros Hwf Hw Hh Hk Hs. pose proof Hwf as (Hw0 & Hh0 & _).
  unfold Tester.gaussian_pass, GaussianSpec.pass.
  apply for_each_pixel_ext. intros x y Hx Hy.
  rewrite Int_div_2 by (unfold Int.max_int; lia).
  assert (Hc : (0 <= k / 2 <= 32767)%Z).
  { split; [apply Z.div_pos; lia|].
    assert (k / 2 < 32768)%Z by (apply Z.div_lt_upper_bound; lia). lia. }
  set (S := CV.Rsum (map (GaussianSpec.tap_weight k sigma) (Int.upto k))).
  assert (HS : (0 < S)%R) by (apply weights_sum_pos; lia).
  assert (E : forall s0,
             fold_left
               (fun s j =>
                  let pixel :=
                    if horizontal
                    then Tester.at_ src
                           (Tester.clamp_coord
                              (Int.sub (Int.add x j) (k / 2)) (Tester.width src)) y
                    else Tester.at_ src x
                           (Tester.clamp_coord
                              (Int.sub (Int.add y j) (k / 2)) (Tester.height src)) in
                  Tester.accumulate s pixel
                    (nth (Z.to_nat j) (Tester.gaussian_kernel k (Fin sigma)) NaN))
               (Int.upto k) s0
             = fold_left
                 (fun s j =>
                    Tester.accumulate s (GaussianSpec.tap horizontal src k x y j)
                      (nth (Z.to_nat j) (Tester.gaussian_kernel k (Fin sigma)) NaN))
                 (Int.upto k) s0).
  { assert (G : forall T, (forall j, In j T -> (0 <= j < k)%Z) ->
               forall s0,
                 fold_left
                   (fun s j =>
                      let pixel :=
                        if horizontal
                        then Tester.at_ src
                               (Tester.clamp_coord
                                  (Int.sub (Int.add x j) (k / 2)) (Tester.width src)) y
                        else Tester.at_ src x
                               (Tester.clamp_coord
                                  (Int.sub (Int.add y j) (k / 2)) (Tester.height src)) in
                      Tester.accumulate s pixel
                        (nth (Z.to_nat j) (Tester.gaussian_kernel k (Fin sigma)) NaN))
                   T s0
                 = fold_left
                     (fun s j =>
                        Tester.accumulate s (GaussianSpec.tap horizontal src k x y j)
                          (nth (Z.to_nat j) (Tester.gaussian_kernel k (Fin sigma)) NaN))
                     T s0).
    { induction T as [|j T IH]; intros HT s0; [reflexivity|].
      cbn [fold_left]. rewrite IH by (intros j' Hj'; apply HT; now right).
      f_equal. f_equal.
      assert (Hj : (0 <= j < k)%Z) by (apply HT; now left).
      unfold GaussianSpec.tap, BilateralSpec.neighbour.
      destruct horizontal; cbn [fst snd].
      - rewrite Int_add_small by int_range.
        rewrite Int_sub_small by int_range.
        rewrite clamp_coord_spec by int_range.
        f_equal; [f_equal; lia|]. unfold BilateralSpec.clamp. lia.
      - rewrite Int_add_small by int_range.
        rewrite Int_sub_small by int_range.
        rewrite clamp_coord_spec by int_range.
        f_equal; [unfold BilateralSpec.clamp; lia | f_equal; lia]. }
    apply G. intros j Hj. now apply In_upto in Hj. }
  rewrite E. unfold Tester.sums3_0.
  rewrite (accumulate_fold_Fin _ _
             (fun j => (GaussianSpec.tap_weight k sigma j / S)%R)).
  - unfold Tester.store_sums3. cbn [Tester.accR Tester.accG Tester.accB].
    unfold GaussianSpec.blurred. fold S.
    f_equal; f_equal; f_equal; rewrite Rplus_0_l;
      rewrite <- Rsum_div_r; f_equal; apply map_ext; intros j;
      unfold Rdiv; ring.
  - intros j Hj. apply In_upto in Hj.
    rewrite gaussian_kernel_Fin by assumption. fold S.
    now rewrite (nth_map_upto
                   (fun j => Fin (GaussianSpec.tap_weight k sigma j / S)) k j).
Qed.

Lemma GaussianSpec_pass_wf (horizontal : bool) (img : Tester.Image) (k : Z)
    (sigma : R) :
  Tester.Image_wf img -> Tester.Image_wf (GaussianSpec.pass horizontal img k sigma).
Proof.
  intros (Hw & Hh & Hwh & _). unfold GaussianSpec.pass.
  apply for_each_pixel_wf; try assumption.
  intros x y _ _. apply stored_pixel_ok.
Qed.

Lemma applyGaussianBlur_spec (img : Tester.Image) (k : Z) (sigma : R) :
  Tester.Image_wf img ->
  (Tester.width img <= 1073741824)%Z -> (Tester.height img <= 1073741824)%Z ->
  (1 <= k <= 65535)%Z -> sigma <> 0%R ->
  Tester.applyGaussianBlur img k (Fin sigma)
  = Some (GaussianSpec.pass false (GaussianSpec.pass true img k sigma) k sigma).
Proof.
  intros Hwf Hw Hh Hk Hs. unfold Tester.applyGaussianBlur. cbv zeta.
  replace (k <? 0)%Z with false by (symmetry; apply Z.ltb_ge; lia).
  rewrite (gaussian_pass_spec true img k sigma) by assumption.
  rewrite (gaussian_pass_spec false) ; try assumption; try reflexivity.
  now apply GaussianSpec_pass_wf.
Qed.

(** The weighted mean of a pass lies between the bounds of its taps. *)
Lemma GaussianSpec_mean_between (horizontal : bool) (img : Tester.Image)
    (k : Z) (sigma : R) (x y : Z) (ch : Tester.RGB -> Z) (lo hi : Z) :
  (1 <= k)%Z -> (0 <= lo)%Z -> (hi <= 255)%Z ->
  (forall j, (0 <= j < k)%Z ->
             (lo <= ch (GaussianSpec.tap horizontal img k x y j) <= hi)%Z) ->
  (lo <= to_uchar (Fin (GaussianSpec.blurred horizontal img k sigma x y ch)) <= hi)%Z.
Proof.
  intros Hk Hlo Hhi H. apply to_uchar_between; try assumption.
  unfold GaussianSpec.blurred.
  apply (weighted_mean_between Z (GaussianSpec.tap_weight k sigma)
           (fun j => ch (GaussianSpec.tap horizontal img k x y j))).
  - intros E. apply (f_equal (@length Z)) in E.
    rewrite length_upto in E. simpl in E. lia.
  - intros j _. apply exp_pos.
  - intros j Hj. apply In_upto in Hj. now apply H.
Qed.

(** A channel of a pixel of a pass lies between the bounds of the channel
    over the taps of the pixel. *)
Lemma GaussianSpec_pass_between (horizontal : bool) (img : Tester.Image)
    (k : Z) (sigma : R) (x y : Z) (ch : Tester.RGB -> Z) (lo hi : Z) :
  Tester.Image_wf img -> (1 <= k)%Z ->
  (0 <= x < Tester.width img)%Z -> (0 <= y < Tester.height img)%Z ->
  In ch [Tester.r; Tester.g; Tester.b] ->
  (forall j, (0 <= j < k)%Z ->
             (lo <= ch (GaussianSpec.tap horizontal img k x y j) <= hi)%Z) ->
  (lo <= ch (Tester.at_ (GaussianSpec.pass horizontal img k sigma) x y) <= hi)%Z.
Proof.
  intros Hwf Hk Hx Hy Hch Hrange. unfold GaussianSpec.pass.
  rewrite at_for_each_pixel by assumption.
  assert (G : (Z.max lo 0
               <= to_uchar (Fin (GaussianSpec.blurred horizontal img k sigma x y ch))
               <= Z.min hi 255)%Z).
  { pose proof (Hrange 0%Z ltac:(lia)).
    assert (Hb : forall j, (0 <= ch (GaussianSpec.tap horizontal img k x y j)
                            <= 255)%Z).
    { intros j. apply channel_byte; [assumption|].
      apply (wf_pixel_ok img); [assumption|]. unfold GaussianSpec.tap.
      now apply neighbour_In. }
    pose proof (Hb 0%Z).
    apply GaussianSpec_mean_between; [assumption | lia | lia |].
    intros j Hj. pose proof (Hrange j Hj). pose proof (Hb j). lia. }
  revert G.
  apply (channel_cases
           (fun c => (Z.max lo 0
                      <= to_uchar
                           (Fin (GaussianSpec.blurred horizontal img k sigma x y c))
                      <= Z.min hi 255)%Z ->
                     (lo <= c (Tester.mkRGB
                         (to_uchar (Fin (GaussianSpec.blurred horizontal img k sigma x y Tester.r)))
                         (to_uchar (Fin (GaussianSpec.blurred horizontal img k sigma x y Tester.g)))
                         (to_uchar (Fin (GaussianSpec.blurred horizontal img k sigma x y Tester.b))))
                      <= hi)%Z) ch Hch); simpl; lia.
Qed.

Lemma In_pass (horizontal : bool) (img : Tester.Image) (k : Z) (sigma : R)
    (p : Tester.RGB) :
  In p (Tester.pixels (GaussianSpec.pass horizontal img k sigma)) ->
  exists x y, (0 <= x < Tester.width img)%Z /\ (0 <= y < Tester.height img)%Z
              /\ p = Tester.at_ (GaussianSpec.pass horizontal img k sigma) x y.
Proof.
  intros Hp. unfold GaussianSpec.pass in *.
  apply In_for_each_pixel in Hp. destruct Hp as (x & y & Hx & Hy & ->).
  exists x, y. now rewrite at_for_each_pixel.
Qed.

Lemma GaussianSpec_pass_range (horizontal : bool) (img : Tester.Image)
    (k : Z) (sigma : R) (ch : Tester.RGB -> Z) (lo hi : Z) :
  Tester.Image_wf img -> (1 <= k)%Z ->
  In ch [Tester.r; Tester.g; Tester.b] ->
  (forall p, In p (Tester.pixels img) -> (lo <= ch p <= hi)%Z) ->
  forall p, In p (Tester.pixels (GaussianSpec.pass horizontal img k sigma)) ->
            (lo <= ch p <= hi)%Z.
Proof.
  intros Hwf Hk Hch Hrange p Hp. apply In_pass in Hp.
  destruct Hp as (x & y & Hx & Hy & ->).
  apply GaussianSpec_pass_between; try assumption.
  intros j _. apply Hrange. unfold GaussianSpec.tap. now apply neighbour_In.
Qed.

(** Weighted means of values truncated to integers. *)
Lemma weighted_sums_truncated (A : Type) (w f g : A -> R) (l : list A) :
  (forall k, In k l -> (0 < w k)%R) ->
  (forall k, In k l -> (g k - 1 < f k <= g k)%R) ->
  (CV.Rsum (map (fun k => w k * f k) l)
   <= CV.Rsum (map (fun k => w k * g k) l))%R
  /\ (CV.Rsum (map (fun k => w k * g k) l) - CV.Rsum (map w l)
      <= CV.Rsum (map (fun k => w k * f k) l))%R
  /\ (l <> [] ->
      CV.Rsum (map (fun k => w k * g k) l) - CV.Rsum (map w l)
      < CV.Rsum (map (fun k => w k * f k) l))%R.
Proof.
  intros Hw Hf. induction l as [|a l IH].
  - simpl. split; [lra|]. split; [lra|]. congruence.
  - destruct IH as (I1 & I2 & _).
    + intros k Hk. apply Hw. now right.
    + intros k Hk. apply Hf. now right.
    + pose proof (Hw a (or_introl eq_refl)) as Ha.
      pose proof (Hf a (or_introl eq_refl)) as Hb.
      cbn [map]. rewrite !Rsum_cons.
      assert (w a * f a <= w a * g a)%R by nra.
      assert (w a * g a - w a < w a * f a)%R by nra.
      split; [lra|]. split; [lra|]. intros _. lra.
Qed.

Lemma weighted_mean_truncated (A : Type) (w f g : A -> R) (l : list A) :
  l <> [] ->
  (forall k, In k l -> (0 < w k)%R) ->
  (forall k, In k l -> (g k - 1 < f k <= g k)%R) ->
  (CV.Rsum (map (fun k => w k * g k) l) / CV.Rsum (map w l) - 1
   < CV.Rsum (map (fun k => w k * f k) l) / CV.Rsum (map w l)
   <= CV.Rsum (map (fun k => w k * g k) l) / CV.Rsum (map w l))%R.
Proof.
  intros Hne Hw Hf.
  destruct (weighted_sums_truncated A w f g l Hw Hf) as (H1 & _ & H3).
  specialize (H3 Hne).
  assert (HW : (0 < CV.Rsum (map w l))%R).
  { apply Rsum_pos.
    - intros E. apply map_eq_nil in E. contradiction.
    - apply Forall_forall. intros v Hv. apply in_map_iff in Hv.
      destruct Hv as [k [<- Hk]]. now apply Hw. }
  set (W := CV.Rsum (map w l)) in *.
  set (F := CV.Rsum (map (fun k => (w k * f k)%R) l)) in *.
  set (G := CV.Rsum (map (fun k => (w k * g k)%R) l)) in *.
  clearbody W F G. split.
  - apply Rmult_lt_reg_r with W; [assumption|].
    unfold Rdiv. rewrite Rmult_minus_distr_r, !Rmult_assoc, Rinv_l by lra. lra.
  - apply Rmult_le_reg_r with W; [assumption|].
    unfold Rdiv. rewrite !Rmult_assoc, Rinv_l by lra. lra.
Qed.

Lemma upto_nonempty (k : Z) : (1 <= k)%Z -> Int.upto k <> [].
Proof.
  intros Hk E. apply (f_equal (@length Z)) in E.
  rewrite length_upto in E. simpl in E. lia.
Qed.

Lemma blurred_byte (horizontal : bool) (img : Tester.Image) (k : Z)
    (sigma : R) (x y : Z) (ch : Tester.RGB -> Z) :
  Tester.Image_wf img -> (1 <= k)%Z ->
  In ch [Tester.r; Tester.g; Tester.b] ->
  (0 <= GaussianSpec.blurred horizontal img k sigma x y ch <= 255)%R.
Proof.
  intros Hwf Hk Hch. unfold GaussianSpec.blurred.
  apply (weighted_mean_between Z (GaussianSpec.tap_weight k sigma)
           (fun j => ch (GaussianSpec.tap horizontal img k x y j))
           (Int.upto k) 0 255).
  - now apply upto_nonempty.
  - intros j _. apply exp_pos.
  - intros j _. apply channel_byte; [assumption|].
    apply (wf_pixel_ok img); [assumption|]. unfold GaussianSpec.tap.
    now apply neighbour_In.
Qed.

Lemma pass_channel (horizontal : bool) (img : Tester.Image) (k : Z)
    (sigma : R) (x y : Z) (ch : Tester.RGB -> Z) :
  (0 <= x < Tester.width img)%Z -> (0 <= y < Tester.height img)%Z ->
  In ch [Tester.r; Tester.g; Tester.b] ->
  ch (Tester.at_ (GaussianSpec.pass horizontal img k sigma) x y)
  = to_uchar (Fin (GaussianSpec.blurred horizontal img k sigma x y ch)).
Proof.
  intros Hx Hy Hch. unfold GaussianSpec.pass.
  rewrite at_for_each_pixel by assumption.
  apply (channel_cases
           (fun c =>
              c (Tester.mkRGB
                   (to_uchar (Fin (GaussianSpec.blurred horizontal img k sigma x y Tester.r)))
                   (to_uchar (Fin (GaussianSpec.blurred horizontal img k sigma x y Tester.g)))
                   (to_uchar (Fin (GaussianSpec.blurred horizontal img k sigma x y Tester.b))))
              = to_uchar (Fin (GaussianSpec.blurred horizontal img k sigma x y c)))
           ch Hch); reflexivity.
Qed.

(** The two passes against the mean that nothing truncates. *)
Lemma two_passes_near_ideal (img : Tester.Image) (k : Z) (sigma : R)
    (x y : Z) (ch : Tester.RGB -> Z) :
  Tester.Image_wf img -> (1 <= k)%Z ->
  (0 <= x < Tester.width img)%Z -> (0 <= y < Tester.height img)%Z ->
  In ch [Tester.r; Tester.g; Tester.b] ->
  let out := GaussianSpec.pass false (GaussianSpec.pass true img k sigma) k sigma in
  (GaussianSpec.ideal img k sigma x y ch - 2
   < IZR (ch (Tester.at_ out x y))
   <= GaussianSpec.ideal img k sigma x y ch)%R.
Proof.
  intros Hwf Hk Hx Hy Hch out. unfold out.
  set (temp := GaussianSpec.pass true img k sigma).
  assert (Hwt : Tester.Image_wf temp) by now apply GaussianSpec_pass_wf.
  assert (Ew : Tester.width temp = Tester.width img) by reflexivity.
  assert (Eh : Tester.height temp = Tester.height img) by reflexivity.
  rewrite pass_channel by (rewrite ?Ew, ?Eh; assumption).
  pose proof (blurred_byte false temp k sigma x y ch Hwt Hk Hch) as HB.
  destruct (to_uchar_floor_bounds _ HB) as [HF _].
  assert (HG : (GaussianSpec.ideal img k sigma x y ch - 1
                < GaussianSpec.blurred false temp k sigma x y ch
                <= GaussianSpec.ideal img k sigma x y ch)%R).
  { unfold GaussianSpec.ideal, GaussianSpec.blurred at 1 3.
    apply (weighted_mean_truncated Z (GaussianSpec.tap_weight k sigma)
             (fun j => IZR (ch (GaussianSpec.tap false temp k x y j)))
             (fun j => GaussianSpec.blurred true img k sigma x
                         (BilateralSpec.clamp (y + (j - k / 2))
                                              (Tester.height img)) ch)).
    - now apply upto_nonempty.
    - intros j _. apply exp_pos.
    - intros j _. unfold GaussianSpec.tap, BilateralSpec.neighbour.
      cbn [fst snd]. rewrite Ew, Eh.
      replace (BilateralSpec.clamp (x + 0) (Tester.width img)) with x
        by (unfold BilateralSpec.clamp; lia).
      unfold temp. rewrite pass_channel; try assumption.
      + apply to_uchar_floor_bounds. now apply blurred_byte.
      + unfold BilateralSpec.clamp. lia. }
  lra.
Qed.

(** X6: for a well-formed image (dimensions at most 2^30), a kernel size
    [k] in 1..65535 and a finite
    spread of magnitude at least [sigma_min], the Gaussian blur of
    [tester.cpp] returns an image, and each channel of each of its pixels is
    the Gaussian-weighted mean along the column of the Gaussian-weighted
    means along the rows, with the weights
    [exp(-(j - k/2)^2 / (2 sigma^2))] and the coordinates clamped to the
    image, to within two truncations and the rounding of the [double]
    arithmetic ([truncated 2]: the stored value is at most that mean and
    less than 2 below it, give or take [slack]).  The horizontal pass is
    truncated to 8 bits before the vertical pass reads it, hence the two. *)
Theorem applyGaussianBlur_near_ideal :
  forall (img : Tester.Image) (k : Z) (sigma : R) (x y : Z)
         (ch : Tester.RGB -> Z),
    Tester.Image_wf img ->
    (Tester.width img <= 1073741824)%Z ->
    (Tester.height img <= 1073741824)%Z ->
    (1 <= k <= 65535)%Z -> (sigma_min <= Rabs sigma)%R ->
    (0 <= x < Tester.width img)%Z -> (0 <= y < Tester.height img)%Z ->
    In ch [Tester.r; Tester.g; Tester.b] ->
    exists out,
      Tester.applyGaussianBlur img k (Fin sigma) = Some out
      /\ truncated 2 (ch (Tester.at_ out x y))
                   (GaussianSpec.ideal img k sigma x y ch).
Proof.
  intros img k sigma x y ch Hwf Hw Hh Hk Hs Hx Hy Hch.
  eexists. split.
  - apply applyGaussianBlur_spec; try assumption.
    now apply sigma_min_nonzero.
  - pose proof (two_passes_near_ideal img k sigma x y ch Hwf
                  ltac:(lia) Hx Hy Hch) as H.
    cbv zeta in H. unfold truncated, slack. lra.
Qed.

Lemma applyGaussianBlur_near_ideal_witness :
  exists out,
    Tester.applyGaussianBlur grey_3x3 3 (Fin 1) = Some out
    /\ truncated 2 (Tester.r (Tester.at_ out 1 1))
                 (GaussianSpec.ideal grey_3x3 3 1 1 1 Tester.r).
Proof.
  apply (applyGaussianBlur_near_ideal grey_3x3 3 1%R 1%Z 1%Z Tester.r
           grey_3x3_wf).
  - simpl. lia.
  - simpl. lia.
  - lia.
  - rewrite Rabs_R1. exact sigma_min_le_1.
  - simpl. lia.
  - simpl. lia.
  - simpl. auto.
Defined.

(** The range of the Gaussian blur, on the real numbers of the model. *)
Lemma applyGaussianBlur_range_exact :
  forall (img : Tester.Image) (k : Z) (sigma : R)
         (ch : Tester.RGB -> Z) (lo hi : Z),
    Tester.Image_wf img ->
    (Tester.width img <= 1073741824)%Z ->
    (Tester.height img <= 1073741824)%Z ->
    (1 <= k <= 65535)%Z -> sigma <> 0%R ->
    In ch [Tester.r; Tester.g; Tester.b] ->
    (forall p, In p (Tester.pixels img) -> (lo <= ch p <= hi)%Z) ->
    exists out,
      Tester.applyGaussianBlur img k (Fin sigma) = Some out
      /\ forall p, In p (Tester.pixels out) -> (lo <= ch p <= hi)%Z.
Proof.
  intros img k sigma ch lo hi Hwf Hw Hh Hk Hs Hch Hrange.
  eexists. split; [now apply applyGaussianBlur_spec|].
  apply GaussianSpec_pass_range; try assumption; try lia.
  - now apply GaussianSpec_pass_wf.
  - apply GaussianSpec_pass_range; try assumption; lia.
Qed.

(** X7: the Gaussian blur of [tester.cpp] creates no new maximum, and goes at
    most two below the minimum: if a channel lies in [lo, hi] on every
    pixel of a well-formed input (dimensions at most 2^30), it lies in
    [lo - 2, hi] on every pixel of the output, for every kernel size in 1..65535 and every finite spread of
    magnitude at least [sigma_min].  The weighted mean of a pass lies
    between the bounds of its taps; the two below are the room for the
    rounding of the sum that each of the two passes truncates. *)
Theorem applyGaussianBlur_output_range :
  forall (img : Tester.Image) (k : Z) (sigma : R)
         (ch : Tester.RGB -> Z) (lo hi : Z),
    Tester.Image_wf img ->
    (Tester.width img <= 1073741824)%Z ->
    (Tester.height img <= 1073741824)%Z ->
    (1 <= k <= 65535)%Z -> (sigma_min <= Rabs sigma)%R ->
    In ch [Tester.r; Tester.g; Tester.b] ->
    (forall p, In p (Tester.pixels img) -> (lo <= ch p <= hi)%Z) ->
    exists out,
      Tester.applyGaussianBlur img k (Fin sigma) = Some out
      /\ forall p, In p (Tester.pixels out) -> (lo - 2 <= ch p <= hi)%Z.
Proof.
  intros img k sigma ch lo hi Hwf Hw Hh Hk Hs Hch Hrange.
  destruct (applyGaussianBlur_range_exact img k sigma ch lo hi Hwf Hw Hh Hk
              (sigma_min_nonzero sigma Hs) Hch Hrange) as (out & E & H).
  exists out. split; [exact E|].
  intros p Hp. specialize (H p Hp). lia.
Qed.

Lemma applyGaussianBlur_output_range_witness :
  exists out,
    Tester.applyGaussianBlur grey_3x3 3 (Fin 1) = Some out
    /\ forall p, In p (Tester.pixels out) -> (100 - 2 <= Tester.r p <= 100)%Z.
Proof.
  apply (applyGaussianBlur_output_range grey_3x3 3 1%R Tester.r 100 100
           grey_3x3_wf).
  - simpl. lia.
  - simpl. lia.
  - lia.
  - rewrite Rabs_R1. exact sigma_min_le_1.
  - simpl. auto.
  - intros p Hp. rewrite (flat_In grey_3x3 _ p grey_3x3_flat Hp). simpl. lia.
Defined.

Lemma pixel_eq (p q : Tester.RGB) :
  (forall ch, In ch [Tester.r; Tester.g; Tester.b] -> ch p = ch q) -> p = q.
Proof.
  intros H. destruct p as [pr pg pb], q as [qr qg qb].
  pose proof (H Tester.r ltac:(simpl; auto)).
  pose proof (H Tester.g ltac:(simpl; auto)).
  pose proof (H Tester.b ltac:(simpl; auto)).
  simpl in *. congruence.
Qed.

Lemma neighbour_0 (img : Tester.Image) (x y : Z) :
  (0 <= x < Tester.width img)%Z -> (0 <= y < Tester.height img)%Z ->
  BilateralSpec.neighbour img x y (0, 0)%Z = Tester.at_ img x y.
Proof.
  intros Hx Hy. unfold BilateralSpec.neighbour, BilateralSpec.clamp. simpl.
  f_equal; lia.
Qed.

Lemma GaussianSpec_pass_1 (horizontal : bool) (img : Tester.Image) (sigma : R) :
  Tester.Image_wf img -> GaussianSpec.pass horizontal img 1 sigma = img.
Proof.
  intros Hwf. rewrite <- (for_each_pixel_at img Hwf) at 2.
  pose proof (fun x y => GaussianSpec_pass_between horizontal img 1 sigma x y) as HB.
  unfold GaussianSpec.pass in *. apply for_each_pixel_ext. intros x y Hx Hy.
  apply pixel_eq. intros ch Hch.
  specialize (HB x y ch (ch (Tester.at_ img x y)) (ch (Tester.at_ img x y))
                 Hwf ltac:(lia) Hx Hy Hch).
  rewrite at_for_each_pixel in HB by assumption.
  assert (ch (Tester.at_ img x y)
          <= ch (Tester.mkRGB
                   (to_uchar (Fin (GaussianSpec.blurred horizontal img 1 sigma x y Tester.r)))
                   (to_uchar (Fin (GaussianSpec.blurred horizontal img 1 sigma x y Tester.g)))
                   (to_uchar (Fin (GaussianSpec.blurred horizontal img 1 sigma x y Tester.b))))
          <= ch (Tester.at_ img x y))%Z; [|lia].
  apply HB. intros j Hj. assert (j = 0%Z) by lia. subst j.
  unfold GaussianSpec.tap. change (0 - 1 / 2)%Z with 0%Z.
  destruct horizontal; rewrite neighbour_0 by assumption; lia.
Qed.

(** The kernels of one tap and of none, on the real numbers of the model. *)
Lemma kernels_of_one_tap :
  forall (img : Tester.Image) (s1 s2 : R),
    Tester.Image_wf img ->
    (Tester.width img <= 1073741824)%Z ->
    (Tester.height img <= 1073741824)%Z ->
    (s1 <> 0%R -> Tester.applyGaussianBlur img 1 (Fin s1) = Some img)
    /\ (forall k : Z, (-1 <= k <= 1)%Z -> (0 < s1)%R -> (0 < s2)%R ->
        Tester.applyBilateralFilter img k (Fin s1) (Fin s2) = img)
    /\ (forall sigma : double,
        exists out, Tester.applyGaussianBlur img 0 sigma = Some out
                    /\ Tester.width out = Tester.width img
                    /\ Tester.height out = Tester.height img
                    /\ flat out Tester.black).
Proof.
  intros img s1 s2 Hwf Hw Hh. split; [|split].
  - intros Hs. rewrite applyGaussianBlur_spec by (assumption || lia).
    rewrite (GaussianSpec_pass_1 true img s1 Hwf).
    now rewrite (GaussianSpec_pass_1 false img s1 Hwf).
  - intros k Hk Hs1 Hs2.
    rewrite <- (for_each_pixel_at img Hwf) at 2.
    unfold Tester.applyBilateralFilter. cbv zeta.
    assert (Ek : Int.div k 2 = 0%Z).
    { assert (k = -1 \/ k = 0 \/ k = 1)%Z as [-> | [-> | ->]] by lia;
        reflexivity. }
    rewrite Ek. apply for_each_pixel_ext. intros x y Hx Hy.
    apply pixel_eq. intros ch Hch.
    assert (ch (Tester.at_ img x y)
            <= ch (Tester.bilateral_pixel img 0 (Fin s1) (Fin s2) x y)
            <= ch (Tester.at_ img x y))%Z; [|lia].
    assert (Hwin : forall q, In q (BilateralSpec.window 0) -> q = (0, 0)%Z).
    { intros q Hq. apply In_window in Hq. destruct q as [a b]. simpl in Hq.
      f_equal; lia. }
    apply bilateral_pixel_between; try assumption; try lia.
    + intros q Hq. rewrite (Hwin q Hq), neighbour_0 by assumption.
      unfold BilateralSpec.square_fits_int, BilateralSpec.color_dist. lia.
    + intros q Hq. rewrite (Hwin q Hq), neighbour_0 by assumption. lia.
  - intros sigma. unfold Tester.applyGaussianBlur. cbv zeta.
    change (0 <? 0)%Z with false. cbv iota.
    eexists. split; [reflexivity|]. split; [reflexivity|]. split; [reflexivity|].
    unfold Tester.gaussian_pass at 1. apply flat_for_each_pixel.
    intros x y _ _. change (Int.upto 0) with (@nil Z). cbn [fold_left].
    unfold Tester.store_sums3, Tester.sums3_0.
    cbn [Tester.accR Tester.accG Tester.accB].
    rewrite (to_uchar_Fin_IZR 0) by lia. reflexivity.
Qed.

(** X9: the smallest kernels, on a well-formed image (dimensions at most
    2^30).  With the kernel size 1 and a finite spread of magnitude at least
    [sigma_min], the Gaussian blur returns the image unchanged, and so does the bilateral filter with a kernel size of
    -1, 0 or 1 (all give the offset 0) and finite spreads from [sigma_min]
    on.  With the kernel size 0 the Gaussian blur fails on nothing and
    returns a black image of the dimensions of the input, whatever the
    spread. *)
Theorem smallest_kernels :
  forall (img : Tester.Image) (s1 s2 : R),
    Tester.Image_wf img ->
    (Tester.width img <= 1073741824)%Z ->
    (Tester.height img <= 1073741824)%Z ->
    ((sigma_min <= Rabs s1)%R ->
     Tester.applyGaussianBlur img 1 (Fin s1) = Some img)
    /\ (forall k : Z, (-1 <= k <= 1)%Z ->
        (sigma_min <= s1)%R -> (sigma_min <= s2)%R ->
        Tester.applyBilateralFilter img k (Fin s1) (Fin s2) = img)
    /\ (forall sigma : double,
        exists out, Tester.applyGaussianBlur img 0 sigma = Some out
                    /\ Tester.width out = Tester.width img
                    /\ Tester.height out = Tester.height img
                    /\ flat out Tester.black).
Proof.
  intros img s1 s2 Hwf Hw Hh.
  destruct (kernels_of_one_tap img s1 s2 Hwf Hw Hh) as (H1 & H2 & H3).
  pose proof sigma_min_pos.
  split; [|split].
  - intros Hs. apply H1. now apply sigma_min_nonzero.
  - intros k Hk Ha Hb. apply H2; [assumption | lra | lra].
  - exact H3.
Qed.

Lemma smallest_kernels_witness :
  Tester.applyGaussianBlur grey_3x3 1 (Fin 1) = Some grey_3x3.
Proof.
  assert (Hw : (Tester.width grey_3x3 <= 1073741824)%Z) by (simpl; lia).
  assert (Hh : (Tester.height grey_3x3 <= 1073741824)%Z) by (simpl; lia).
  apply (proj1 (smallest_kernels grey_3x3 1%R 1%R grey_3x3_wf Hw Hh)).
  rewrite Rabs_R1. exact sigma_min_le_1.
Defined.

(** *** The weights and the colour distance; even kernel sizes of [filters.cpp] *)

(** X12: [applyGaussianBlur] of [filters.cpp] gives an even kernel size [2 n]
    exactly what it gives the next odd size [2 n + 1]: both call
    [cv::GaussianBlur] with the size [(2 n + 1) x (2 n + 1)] and the same
    spread on both axes. *)
Theorem Filters_applyGaussianBlur_even_is_next_odd :
  forall (lib : CV.Mat -> Z -> Z -> double -> double -> option CV.Mat)
         (input : CV.Mat) (n : Z) (sigma : double),
    Int.in_range (2 * n) -> Int.in_range (2 * n + 1) ->
    Filters.applyGaussianBlur lib input (2 * n) sigma
    = lib input (2 * n + 1)%Z (2 * n + 1)%Z sigma sigma
    /\ Filters.applyGaussianBlur lib input (2 * n + 1) sigma
       = lib input (2 * n + 1)%Z (2 * n + 1)%Z sigma sigma.
Proof.
  intros lib input n sigma H0 H1. unfold Filters.applyGaussianBlur, Int.rem.
  split.
  - replace (Z.rem (2 * n) 2) with 0%Z
      by (symmetry; rewrite Z.mul_comm; apply Z.rem_mul; lia).
    cbn [Z.eqb]. now rewrite Int_add_small by assumption.
  - destruct (Z.eqb_spec (Z.rem (2 * n + 1) 2) 0) as [E | _]; [|reflexivity].
    exfalso. apply Z.rem_divide in E; [|lia]. destruct E as [q E]. lia.
Qed.

Lemma Filters_applyGaussianBlur_even_is_next_odd_witness :
  Filters.applyGaussianBlur (fun m _ _ _ _ => Some m) bgr_1x1 4 (Fin 1)
  = Some bgr_1x1.
Proof.
  apply (proj1 (Filters_applyGaussianBlur_even_is_next_odd
                  (fun m _ _ _ _ => Some m) bgr_1x1 2 (Fin 1)
                  ltac:(unfold Int.in_range, Int.min_int, Int.max_int; lia)
                  ltac:(unfold Int.in_range, Int.min_int, Int.max_int; lia))).
Defined.

(** X10: on pixels with 8-bit channels [colorDifference] is symmetric, lies
    between 0 and 195075 (= 3 * 255^2, computed without overflow), and is 0
    exactly when the two pixels are equal. *)
Theorem colorDifference_is_squared_distance :
  forall p q : Tester.RGB,
    Tester.pixel_ok p -> Tester.pixel_ok q ->
    Tester.colorDifference p q = Tester.colorDifference q p
    /\ (0 <= Tester.colorDifference p q <= 195075)%Z
    /\ (Tester.colorDifference p q = 0%Z <-> p = q).
Proof.
  intros p q Hp Hq.
  rewrite (colorDifference_spec p q Hp Hq), (colorDifference_spec q p Hq Hp).
  destruct p as [pr pg pb], q as [qr qg qb].
  destruct Hp as (H1 & H2 & H3), Hq as (H4 & H5 & H6).
  unfold Tester.byte, BilateralSpec.color_dist in *. simpl in *.
  assert (Sr : (0 <= (pr - qr) * (pr - qr) <= 65025)%Z).
  { assert (-255 <= pr - qr <= 255)%Z by lia.
    split; [apply Z.square_nonneg | nia]. }
  assert (Sg : (0 <= (pg - qg) * (pg - qg) <= 65025)%Z).
  { assert (-255 <= pg - qg <= 255)%Z by lia.
    split; [apply Z.square_nonneg | nia]. }
  assert (Sb : (0 <= (pb - qb) * (pb - qb) <= 65025)%Z).
  { assert (-255 <= pb - qb <= 255)%Z by lia.
    split; [apply Z.square_nonneg | nia]. }
  split; [ring|]. split; [lia|]. split.
  - intros E.
    assert (Er : ((pr - qr) * (pr - qr) = 0)%Z) by lia.
    assert (Eg : ((pg - qg) * (pg - qg) = 0)%Z) by lia.
    assert (Eb : ((pb - qb) * (pb - qb) = 0)%Z) by lia.
    apply Z.mul_eq_0 in Er, Eg, Eb. f_equal; lia.
  - intros E. injection E as -> -> ->. ring.
Qed.

Lemma colorDifference_is_squared_distance_witness :
  Tester.colorDifference (Tester.mkRGB 10 20 30) (Tester.mkRGB 12 22 32)
  = Tester.colorDifference (Tester.mkRGB 12 22 32) (Tester.mkRGB 10 20 30).
Proof.
  apply (proj1 (colorDifference_is_squared_distance
                  (Tester.mkRGB 10 20 30) (Tester.mkRGB 12 22 32)
                  ltac:(unfold Tester.pixel_ok, Tester.byte; simpl; lia)
                  ltac:(unfold Tester.pixel_ok, Tester.byte; simpl; lia))).
Defined.

Lemma square_wraps_negative (d : Z) :
  (46341 <= d <= 65535)%Z ->
  (Int.mul d d = d * d - 4294967296 /\ Int.mul d d < 0)%Z.
Proof.
  intros Hd. unfold Int.mul, Int.wrap.
  assert (H : (2147483648 <= d * d < 4294967296)%Z) by nia.
  replace ((d * d + 2147483648) mod 4294967296)%Z
    with (d * d + 2147483648 - 4294967296)%Z.
  - lia.
  - apply Z.mod_unique with (q := 1%Z); lia.
Qed.

(** The two weights of the bilateral filter, on the real numbers of the
    model. *)
Lemma bilateral_weights_exact :
  forall (dx dy d : Z) (sigma : R),
    sigma <> 0%R ->
    ((-32767 <= dx <= 32767)%Z -> (-32767 <= dy <= 32767)%Z ->
     exists w : R, Tester.spatialWeight dx dy (Fin sigma) = Fin w
                   /\ (0 < w <= 1)%R
                   /\ (w = 1%R <-> dx = 0%Z /\ dy = 0%Z))
    /\ ((0 <= d <= 46340)%Z ->
        exists w : R, Tester.rangeWeight d (Fin sigma) = Fin w
                      /\ (0 < w <= 1)%R)
    /\ ((46341 <= d <= 65535)%Z ->
        Tester.rangeWeight d (Fin sigma) = PInf
        \/ exists w : R, Tester.rangeWeight d (Fin sigma) = Fin w /\ (1 < w)%R).
Proof.
  intros dx dy d sigma Hs. pose proof (two_sq_pos sigma Hs) as H2.
  assert (Hexp : forall z : Z, (0 <= z)%Z ->
            dexp (of_int (- z) / (Fin 2 * Fin sigma * Fin sigma))%D
            = Fin (exp (- IZR z / (2 * sigma * sigma)))
            /\ (0 < exp (- IZR z / (2 * sigma * sigma)) <= 1)%R
            /\ (exp (- IZR z / (2 * sigma * sigma)) = 1%R <-> z = 0%Z)).
  { intros z Hz. unfold of_int. cbn [dmul]. rewrite ddiv_Fin by lra.
    rewrite opp_IZR.
    assert (Hz' : (0 <= IZR z)%R) by now apply (IZR_le 0).
    assert (Hle : (- IZR z / (2 * sigma * sigma) <= 0)%R).
    { apply Rmult_le_reg_r with (2 * sigma * sigma)%R; [assumption|].
      unfold Rdiv. rewrite Rmult_assoc, Rinv_l by lra. lra. }
    rewrite dexp_nonpos by assumption. split; [reflexivity|].
    split.
    - split; [apply exp_pos|]. rewrite <- exp_0.
      destruct Hle as [Hlt | ->]; [left; now apply exp_increasing | right; reflexivity].
    - split.
      + intros E. rewrite <- exp_0 in E. apply exp_inv in E.
        apply (f_equal (fun t => t * (2 * sigma * sigma))%R) in E.
        unfold Rdiv in E. rewrite Rmult_assoc, Rinv_l in E by lra.
        apply eq_IZR. lra.
      + intros ->. replace (- 0 / (2 * sigma * sigma))%R with 0%R
          by (unfold Rdiv; ring). apply exp_0. }
  split; [|split].
  - intros Hdx Hdy. unfold Tester.spatialWeight.
    rewrite (Int_mul_small dx dx), (Int_mul_small dy dy) by int_range.
    rewrite Int_add_small by int_range. rewrite Int_neg_small by int_range.
    destruct (Hexp (dx * dx + dy * dy)%Z ltac:(nia)) as (E & Hr & Hone).
    eexists. split; [exact E|]. split; [exact Hr|]. rewrite Hone. nia.
  - intros Hd. unfold Tester.rangeWeight.
    rewrite Int_mul_small by int_range. rewrite Int_neg_small by int_range.
    destruct (Hexp (d * d)%Z ltac:(nia)) as (E & Hr & _).
    eexists. split; [exact E | exact Hr].
  - intros Hd. unfold Tester.rangeWeight.
    destruct (square_wraps_negative d Hd) as [E Hneg]. rewrite E in *.
    rewrite Int_neg_small by int_range.
    unfold of_int. cbn [dmul]. rewrite ddiv_Fin by lra.
    set (t := (IZR (- (d * d - 4294967296)) / (2 * sigma * sigma))%R).
    assert (Ht : (0 < t)%R).
    { unfold t. apply Rdiv_lt_0_compat; [|assumption].
      apply (IZR_lt 0). lia. }
    unfold dexp. destruct (Rltb exp_max t); [now left|].
    right. eexists. split; [reflexivity|].
    rewrite <- exp_0. now apply exp_increasing.
Qed.

(** X11: the two weights of the bilateral filter, for a finite spread of
    magnitude at least [sigma_min].  The spatial weight of an offset within
    32767 on both axes is in [0, 1], and is 1 at the offset (0, 0).  The
    range weight of a colour distance [d <= 46340] is in [0, 1]; but for
    [46341 <= d <= 65535] the square [d * d] does not fit an [int]: stored
    with wrap-around it is negative, and for a spread of magnitude at most
    10^6 the weight is above 1 or infinite, where a weight of at most 1 is
    meant. *)
Theorem bilateral_weights_range :
  forall (dx dy d : Z) (sigma : R),
    (sigma_min <= Rabs sigma)%R ->
    ((-32767 <= dx <= 32767)%Z -> (-32767 <= dy <= 32767)%Z ->
     exists w : R, Tester.spatialWeight dx dy (Fin sigma) = Fin w
                   /\ (0 <= w <= 1)%R
                   /\ (dx = 0%Z /\ dy = 0%Z -> w = 1%R))
    /\ ((0 <= d <= 46340)%Z ->
        exists w : R, Tester.rangeWeight d (Fin sigma) = Fin w
                      /\ (0 <= w <= 1)%R)
    /\ ((46341 <= d <= 65535)%Z -> (Rabs sigma <= 1000000)%R ->
        Tester.rangeWeight d (Fin sigma) = PInf
        \/ exists w : R, Tester.rangeWeight d (Fin sigma) = Fin w /\ (1 < w)%R).
Proof.
  intros dx dy d sigma Hs.
  destruct (bilateral_weights_exact dx dy d sigma (sigma_min_nonzero sigma Hs))
    as (H1 & H2 & H3).
  split; [|split].
  - intros Hx Hy. destruct (H1 Hx Hy) as (w & E & Hw & Hiff).
    exists w. split; [exact E|]. split; [lra|]. apply Hiff.
  - intros Hd. destruct (H2 Hd) as (w & E & Hw).
    exists w. split; [exact E | lra].
  - intros Hd _. now apply H3.
Qed.

Lemma bilateral_weights_range_witness :
  exists w : R, Tester.rangeWeight 100 (Fin 1) = Fin w /\ (0 <= w <= 1)%R.
Proof.
  apply (proj1 (proj2 (bilateral_weights_range 0 0 100 1%R
                         ltac:(rewrite Rabs_R1; exact sigma_min_le_1)))).
  lia.
Defined.

(** ** More of [filters.cpp]: the unsharp mask on any input *)

Lemma bgr_1x1_wf : CV.Mat_wf bgr_1x1.
Proof. unfold CV.Mat_wf. simpl. lia. Qed.

Lemma bgr_1x1_8U : Forall CV.sample_8U (CV.data bgr_1x1).
Proof. simpl. repeat constructor; eexists; (split; [reflexivity | lia]). Qed.

Lemma bgr_1x1_soft_wf : CV.Mat_wf bgr_1x1_soft.
Proof. unfold CV.Mat_wf. simpl. lia. Qed.

Lemma bgr_1x1_soft_8U : Forall CV.sample_8U (CV.data bgr_1x1_soft).
Proof. simpl. repeat constructor; eexists; (split; [reflexivity | lia]). Qed.

Lemma bgr_1x1_first_wf : CV.Mat_wf bgr_1x1_first.
Proof. unfold CV.Mat_wf. simpl. lia. Qed.

Lemma bgr_1x1_first_8U : Forall CV.sample_8U (CV.data bgr_1x1_first).
Proof. simpl. repeat constructor; eexists; (split; [reflexivity | lia]). Qed.

Lemma uniform_4x4_8U (v : Z) :
  (0 <= v <= 255)%Z -> Forall CV.sample_8U (CV.data (uniform_4x4 v)).
Proof.
  intros Hv. apply Forall_forall. intros d Hd.
  unfold uniform_4x4 in Hd. cbn [CV.data] in Hd.
  apply repeat_spec in Hd. subst d. exists v. split; [reflexivity | assumption].
Qed.

(** A sequence of stores [l[o] = g o], one for each offset of [offs]. *)
Lemma value_stores (g : nat -> double) (offs : list nat) :
  forall l : list double,
    let l' := fold_left (fun l o => CV.list_set l o (g o)) offs l in
    length l' = length l
    /\ forall i, (i < length l)%nat ->
                 nth i l' NaN
                 = if in_dec Nat.eq_dec i offs then g i else nth i l NaN.
Proof.
  induction offs as [|o offs IH]; intros l; simpl.
  - split; [reflexivity | reflexivity].
  - destruct (IH (CV.list_set l o (g o))) as [Hl Hn].
    rewrite length_list_set in Hl, Hn.
    split; [exact Hl|]. intros i Hi. rewrite Hn by assumption.
    destruct (in_dec Nat.eq_dec i offs) as [Hin | Hnin].
    + destruct (Nat.eq_dec o i); reflexivity.
    + destruct (Nat.eq_dec o i) as [-> | Hne].
      * now apply nth_list_set_eq.
      * apply nth_list_set_neq. congruence.
Qed.

Lemma Forall_list_set (P : double -> Prop) (l : list double) (n : nat)
    (v : double) :
  Forall P l -> P v -> Forall P (CV.list_set l n v).
Proof.
  intros Hl Hv. revert n. induction Hl as [|h t Hh Ht IH]; intros [|n]; simpl;
    constructor; auto.
Qed.

Lemma Forall_stores (P : double -> Prop) (g : nat -> double) (offs : list nat) :
  (forall o, P (g o)) ->
  forall l, Forall P l ->
            Forall P (fold_left (fun l o => CV.list_set l o (g o)) offs l).
Proof.
  intros Hg. induction offs as [|o offs IH]; intros l Hl; simpl; [assumption|].
  apply IH. now apply Forall_list_set.
Qed.

(** The three loops of [applyUnsharpMask] as one sequence of stores, for
    any two matrices with rows of the same length. *)
Lemma unsharp_loops_stores (A B : CV.Mat) (amount threshold : double)
    (T : list (Z * Z * Z)) :
  CV.cols B = CV.cols A -> CV.channels B = CV.channels A ->
  forall out : CV.Mat,
    same_shape out A ->
    fold_left
      (fun out t =>
         let '(y, x, c) := t in
         Filters.unsharp_store A B amount threshold y x out c) T out
    = CV.with_data A (CV.depth A)
        (fold_left
           (fun l o =>
              CV.list_set l o
                (Filters.unsharp_sample (nth o (CV.data A) NaN)
                                        (nth o (CV.data B) NaN)
                                        amount threshold))
           (map (fun t => let '(y, x, c) := t in CV.Vec3b_offset A y x c) T)
           (CV.data out)).
Proof.
  intros Hc Hch. induction T as [|[[y x] c] T IH]; intros out Hs; simpl.
  - destruct out as [r c cn dp dt], A as [r' c' cn' dp' dt'].
    destruct Hs as (H1 & H2 & H3 & H4). simpl in *. now subst.
  - rewrite IH.
    + f_equal. f_equal.
      unfold Filters.unsharp_store, CV.set_Vec3b, CV.with_data. simpl.
      assert (Hoff : CV.Vec3b_offset out y x c = CV.Vec3b_offset A y x c).
      { unfold CV.Vec3b_offset. destruct Hs as (_ & -> & -> & _). reflexivity. }
      assert (HoffB : CV.Vec3b_offset B y x c = CV.Vec3b_offset A y x c).
      { unfold CV.Vec3b_offset. now rewrite Hc, Hch. }
      rewrite Hoff. unfold CV.at_Vec3b. now rewrite HoffB.
    + unfold Filters.unsharp_store, CV.set_Vec3b, CV.with_data, same_shape.
      simpl. exact Hs.
Qed.

(** The result of [applyUnsharpMask] on inputs that pass its checks. *)
Lemma applyUnsharpMask_valid (A B : CV.Mat) (amount threshold : double) :
  CV.empty A = false -> CV.empty B = false -> CV.size_eqb A B = true ->
  CV.channels A = CV.channels B ->
  Filters.applyUnsharpMask A B amount threshold
  = CV.with_data A (CV.depth A)
      (fold_left
         (fun l o =>
            CV.list_set l o
              (Filters.unsharp_sample (nth o (CV.data A) NaN)
                                      (nth o (CV.data B) NaN)
                                      amount threshold))
         (map (fun t => let '(y, x, c) := t in CV.Vec3b_offset A y x c)
              (unsharp_iterations A))
         (repeat (Fin 0)
                 (Z.to_nat (CV.rows A * CV.cols A * CV.channels A)))).
Proof.
  intros HA HB Hs Hch. unfold Filters.applyUnsharpMask.
  rewrite HA, HB, Hs. cbn [orb negb].
  replace (CV.channels A =? CV.channels B)%Z with true
    by (symmetry; now apply Z.eqb_eq).
  cbn [negb]. rewrite unsharp_loops_flat.
  unfold CV.size_eqb in Hs. apply andb_prop in Hs. destruct Hs as [_ Hc].
  apply Z.eqb_eq in Hc.
  rewrite (unsharp_loops_stores A B amount threshold)
    by (try congruence; unfold same_shape, CV.zeros; simpl; tauto).
  reflexivity.
Qed.

Lemma applyUnsharpMask_invalid (A B : CV.Mat) (amount threshold : double) :
  CV.empty A = true \/ CV.empty B = true \/ CV.size_eqb A B = false
  \/ CV.channels A <> CV.channels B ->
  Filters.applyUnsharpMask A B amount threshold = CV.Mat_empty.
Proof.
  intros H. unfold Filters.applyUnsharpMask.
  destruct (CV.empty A); [reflexivity|].
  destruct (CV.empty B); [reflexivity|]. cbn [orb].
  destruct (CV.size_eqb A B); [|reflexivity]. cbn [negb].
  destruct (Z.eqb_spec (CV.channels A) (CV.channels B)); [|reflexivity].
  destruct H as [H | [H | [H | H]]]; try discriminate. contradiction.
Qed.

Lemma unsharp_sample_8U (o b amount threshold : double) :
  CV.sample_8U (Filters.unsharp_sample o b amount threshold).
Proof.
  unfold Filters.unsharp_sample. cbv zeta. eexists. split; [reflexivity|].
  set (d := std_min _ _). clearbody d.
  unfold to_uchar. destruct d as [x| | |]; try lia.
  destruct ((Int.min_int <=? Rtrunc x) && (Rtrunc x <=? Int.max_int))%Z; [|lia].
  pose proof (Z.mod_pos_bound (Rtrunc x) 256 ltac:(lia)). lia.
Qed.

Lemma valid_or_invalid (A B : CV.Mat) :
  (CV.empty A = false /\ CV.empty B = false /\ CV.size_eqb A B = true
   /\ CV.channels A = CV.channels B)
  \/ (CV.empty A = true \/ CV.empty B = true \/ CV.size_eqb A B = false
      \/ CV.channels A <> CV.channels B).
Proof.
  destruct (CV.empty A); [right; now left|].
  destruct (CV.empty B); [right; right; now left|].
  destruct (CV.size_eqb A B); [|right; right; right; now left].
  destruct (Z.eq_dec (CV.channels A) (CV.channels B)); [left; tauto|].
  right. right. right. now right.
Qed.

Lemma applyUnsharpMask_8U (A B : CV.Mat) (amount threshold : double) :
  Forall CV.sample_8U (CV.data (Filters.applyUnsharpMask A B amount threshold)).
Proof.
  destruct (valid_or_invalid A B) as [(HA & HB & Hs & Hch) | Hinv].
  - rewrite applyUnsharpMask_valid by assumption. simpl.
    apply (Forall_stores CV.sample_8U
             (fun o => Filters.unsharp_sample (nth o (CV.data A) NaN)
                         (nth o (CV.data B) NaN) amount threshold)).
    + intros o. apply unsharp_sample_8U.
    + apply Forall_forall. intros v Hv. apply repeat_spec in Hv. subst v.
      exists 0%Z. split; [reflexivity | lia].
  - rewrite applyUnsharpMask_invalid by assumption. constructor.
Qed.

Lemma applyUnsharpMask_valid_shape (A B : CV.Mat) (amount threshold : double) :
  CV.empty A = false -> CV.empty B = false -> CV.size_eqb A B = true ->
  CV.channels A = CV.channels B ->
  let out := Filters.applyUnsharpMask A B amount threshold in
  same_shape out A
  /\ length (CV.data out)
     = Z.to_nat (CV.rows A * CV.cols A * CV.channels A).
Proof.
  intros HA HB Hs Hch out. unfold out.
  rewrite applyUnsharpMask_valid by assumption.
  split; [unfold same_shape; simpl; tauto|]. simpl.
  destruct (value_stores
              (fun o => Filters.unsharp_sample (nth o (CV.data A) NaN)
                          (nth o (CV.data B) NaN) amount threshold)
              (map (fun t => let '(y, x, c) := t in CV.Vec3b_offset A y x c)
                   (unsharp_iterations A))
              (repeat (Fin 0)
                 (Z.to_nat (CV.rows A * CV.cols A * CV.channels A))))
    as [Hl _].
  rewrite Hl. apply repeat_length.
Qed.

(** X13: for 8-bit inputs with an original of three channels, every sample of
    the matrix [applyUnsharpMask] returns is an integer in 0..255, whatever
    the amount and the threshold (infinite or [NaN] included) and whether
    or not the inputs pass the checks. *)
Theorem applyUnsharpMask_samples_are_bytes :
  forall (original blurred : CV.Mat) (amount threshold : double),
    CV.depth original = CV.CV_8U -> CV.depth blurred = CV.CV_8U ->
    CV.channels original = 3%Z ->
    Forall CV.sample_8U
           (CV.data (Filters.applyUnsharpMask original blurred amount threshold)).
Proof. intros A B amount threshold _ _ _. apply applyUnsharpMask_8U. Qed.

Lemma applyUnsharpMask_samples_are_bytes_witness :
  Forall CV.sample_8U
         (CV.data (Filters.applyUnsharpMask bgr_1x1 bgr_1x1_soft PInf NaN)).
Proof.
  apply (applyUnsharpMask_samples_are_bytes bgr_1x1 bgr_1x1_soft PInf NaN);
    reflexivity.
Defined.

(** X14: for 8-bit inputs with an original of three channels,
    [applyUnsharpMask] returns the empty matrix exactly when an input is
    empty, or the sizes differ, or the numbers of channels differ; otherwise
    the result has the rows, columns, channels and depth of the original,
    and a buffer of [rows * cols * channels] samples. *)
Theorem applyUnsharpMask_result_shape :
  forall (original blurred : CV.Mat) (amount threshold : double),
    CV.depth original = CV.CV_8U -> CV.depth blurred = CV.CV_8U ->
    CV.channels original = 3%Z ->
    let out := Filters.applyUnsharpMask original blurred amount threshold in
    (CV.empty out = true
     <-> (CV.empty original = true \/ CV.empty blurred = true
          \/ CV.size_eqb original blurred = false
          \/ CV.channels original <> CV.channels blurred))
    /\ (CV.empty out = false ->
        same_shape out original
        /\ length (CV.data out)
           = Z.to_nat (CV.rows original * CV.cols original
                       * CV.channels original)).
Proof.
  intros A B amount threshold _ _ _ out. unfold out.
  destruct (valid_or_invalid A B) as [(HA & HB & Hs & Hch) | Hinv].
  - destruct (applyUnsharpMask_valid_shape A B amount threshold HA HB Hs Hch)
      as [Hsh Hlen].
    assert (He : CV.empty (Filters.applyUnsharpMask A B amount threshold) = false).
    { destruct Hsh as (Hr & Hc & _). unfold CV.empty, CV.total in *.
      now rewrite Hr, Hc. }
    split.
    + rewrite He. split; [discriminate|].
      intros [H | [H | [H | H]]]; congruence.
    + intros _. split; assumption.
  - rewrite applyUnsharpMask_invalid by assumption. split.
    + split; [intros _; exact Hinv | reflexivity].
    + discriminate.
Qed.

Lemma applyUnsharpMask_result_shape_witness :
  CV.empty (Filters.applyUnsharpMask bgr_1x1 bgr_1x1_soft (Fin 1.5) (Fin 0)) = true
  <-> (CV.empty bgr_1x1 = true \/ CV.empty bgr_1x1_soft = true
       \/ CV.size_eqb bgr_1x1 bgr_1x1_soft = false
       \/ CV.channels bgr_1x1 <> CV.channels bgr_1x1_soft).
Proof.
  apply (proj1 (applyUnsharpMask_result_shape bgr_1x1 bgr_1x1_soft
                  (Fin 1.5) (Fin 0) eq_refl eq_refl eq_refl)).
Defined.

(** Every sample of a three-channel matrix is stored by one iteration. *)
Lemma offsets_cover (A : CV.Mat) (i : nat) :
  CV.Mat_wf A -> CV.empty A = false -> CV.channels A = 3%Z ->
  (i < length (CV.data A))%nat ->
  In i (map (fun t => let '(y, x, c) := t in CV.Vec3b_offset A y x c)
            (unsharp_iterations A)).
Proof.
  intros (Hr & Hc & Hch & Hlen) Hne H3 Hi.
  assert (Hrc : (0 < CV.rows A /\ 0 < CV.cols A)%Z).
  { unfold CV.empty, CV.total in Hne. apply Z.eqb_neq in Hne. nia. }
  apply in_map_iff.
  destruct A as [r c cn dp dt]. simpl in *. subst cn.
  exists ((Z.of_nat i / (c * 3))%Z, (Z.of_nat i mod (c * 3) / 3)%Z,
          (Z.of_nat i mod 3)%Z).
  assert (Hc3 : (0 < c * 3)%Z) by lia.
  pose proof (Z.div_mod (Z.of_nat i) (c * 3) ltac:(lia)) as E1.
  pose proof (Z.mod_pos_bound (Z.of_nat i) (c * 3) Hc3) as B1.
  pose proof (Z.div_mod (Z.of_nat i mod (c * 3)) 3 ltac:(lia)) as E2.
  pose proof (Z.mod_pos_bound (Z.of_nat i mod (c * 3)) 3 ltac:(lia)) as B2.
  assert (E3 : ((Z.of_nat i mod (c * 3)) mod 3 = Z.of_nat i mod 3)%Z).
  { rewrite Z.mul_comm. rewrite Z.rem_mul_r by lia.
    rewrite Z.mul_comm, Z.mod_add by lia. apply Z.mod_mod. lia. }
  rewrite E3 in E2, B2.
  split.
  - unfold CV.Vec3b_offset. simpl. lia.
  - apply In_unsharp_iterations. simpl.
    assert (Hq : (0 <= Z.of_nat i / (c * 3) < r)%Z).
    { split; [apply Z.div_pos; lia|]. apply Z.div_lt_upper_bound; nia. }
    assert (Hx : (0 <= Z.of_nat i mod (c * 3) / 3 < c)%Z).
    { split; [apply Z.div_pos; lia|]. apply Z.div_lt_upper_bound; lia. }
    lia.
Qed.

(** The samples of the result on three-channel inputs. *)
Lemma applyUnsharpMask_map2 (A B : CV.Mat) (amount threshold : double) :
  CV.Mat_wf A -> CV.Mat_wf B ->
  CV.empty A = false -> CV.size_eqb A B = true ->
  CV.channels A = 3%Z -> CV.channels B = 3%Z ->
  Filters.applyUnsharpMask A B amount threshold
  = CV.with_data A (CV.depth A)
      (CV.map2 (fun o b => Filters.unsharp_sample o b amount threshold)
               (CV.data A) (CV.data B)).
Proof.
  intros HwA HwB HA Hs H3 H3B.
  assert (Hsz := Hs). unfold CV.size_eqb in Hsz. apply andb_prop in Hsz.
  destruct Hsz as [Hr Hc]. apply Z.eqb_eq in Hr, Hc.
  assert (HB : CV.empty B = false).
  { unfold CV.empty, CV.total in *. now rewrite <- Hr, <- Hc. }
  rewrite applyUnsharpMask_valid by (assumption || congruence).
  f_equal.
  set (offs := map _ (unsharp_iterations A)).
  set (z := repeat (Fin 0) _).
  pose (g := fun o => Filters.unsharp_sample (nth o (CV.data A) NaN)
                        (nth o (CV.data B) NaN) amount threshold).
  change (fold_left (fun l o => CV.list_set l o (g o)) offs z
          = CV.map2 (fun o b => Filters.unsharp_sample o b amount threshold)
                    (CV.data A) (CV.data B)).
  destruct (value_stores g offs z) as [Hl Hn].
  assert (HlenA : length z = length (CV.data A)).
  { unfold z. rewrite repeat_length. destruct HwA as (_ & _ & _ & E). lia. }
  assert (HlenB : length (CV.data A) = length (CV.data B)).
  { destruct HwA as (_ & _ & _ & Ea), HwB as (_ & _ & _ & Eb).
    apply Nat2Z.inj. rewrite Ea, Eb, Hr, Hc, H3, H3B. reflexivity. }
  apply nth_ext with (d := NaN) (d' := NaN).
  - rewrite Hl, length_map2 by assumption. exact HlenA.
  - intros i Hi. rewrite Hl in Hi. rewrite Hn by assumption.
    rewrite nth_map2 by (assumption || lia).
    destruct (in_dec Nat.eq_dec i offs) as [_ | Hnin]; [reflexivity|].
    exfalso. apply Hnin. unfold offs. apply offsets_cover; try assumption. lia.
Qed.

(** X15: on two non-empty 8-bit matrices of three channels and the same size,
    each sample of the result is computed from the two samples at the same
    place: [detail = o - b], set to 0 when [|detail| < threshold];
    [o + amount * detail], clamped to [0, 255] and truncated. *)
Theorem applyUnsharpMask_sample_by_sample :
  forall (original blurred : CV.Mat) (amount threshold : double),
    CV.Mat_wf original -> CV.Mat_wf blurred ->
    CV.empty original = false -> CV.size_eqb original blurred = true ->
    CV.depth original = CV.CV_8U -> CV.depth blurred = CV.CV_8U ->
    CV.channels original = 3%Z -> CV.channels blurred = 3%Z ->
    Filters.applyUnsharpMask original blurred amount threshold
    = CV.with_data original CV.CV_8U
        (CV.map2
           (fun o b =>
              let detail := (o - b)%D in
              let detail := if dltb (dabs detail) threshold then Fin 0
                            else detail in
              of_int (to_uchar (std_min (Fin 255)
                                  (std_max (Fin 0) (o + amount * detail)%D))))
           (CV.data original) (CV.data blurred)).
Proof.
  intros A B amount threshold HwA HwB HA Hs HdA _ H3 H3B.
  rewrite applyUnsharpMask_map2 by assumption. now rewrite HdA.
Qed.

Lemma applyUnsharpMask_sample_by_sample_witness :
  Filters.applyUnsharpMask bgr_1x1 bgr_1x1_soft (Fin 1.5) (Fin 0)
  = CV.with_data bgr_1x1 CV.CV_8U
      (CV.map2
         (fun o b =>
            let detail := (o - b)%D in
            let detail := if dltb (dabs detail) (Fin 0) then Fin 0
                          else detail in
            of_int (to_uchar (std_min (Fin 255)
                                (std_max (Fin 0) (o + Fin 1.5 * detail)%D))))
         (CV.data bgr_1x1) (CV.data bgr_1x1_soft)).
Proof.
  apply (applyUnsharpMask_sample_by_sample bgr_1x1 bgr_1x1_soft (Fin 1.5) (Fin 0)
           bgr_1x1_wf bgr_1x1_soft_wf); reflexivity.
Defined.

Lemma unsharp_sample_within (o b : double) (amount t : R) :
  CV.sample_8U o -> within t o b ->
  Filters.unsharp_sample o b (Fin amount) (Fin t) = o.
Proof.
  intros [z [-> Hz]] (x & y & Ex & -> & Hxy). unfold of_int in Ex.
  injection Ex as <-. unfold Filters.unsharp_sample, of_int.
  cbn [dsub dneg dadd dabs dltb].
  replace (IZR z + - y)%R with (IZR z - y)%R by ring.
  rewrite Rltb_true by assumption.
  cbn [dmul dadd]. rewrite std_max_Fin, std_min_Fin.
  replace (IZR z + amount * 0)%R with (IZR z) by ring.
  assert (H0 : (0 <= IZR z)%R) by (apply (IZR_le 0 z); lia).
  assert (H255 : (IZR z <= 255)%R) by (apply (IZR_le z 255); lia).
  rewrite Rmax_right by assumption. rewrite Rmin_right by assumption.
  now rewrite to_uchar_Fin_IZR.
Qed.

(** X16: an original whose samples are all less than the threshold away from the
    samples of the blurred matrix is returned unchanged, for every finite
    amount (8-bit matrices of three channels). *)
Theorem applyUnsharpMask_under_threshold :
  forall (original blurred : CV.Mat) (amount t : R),
    CV.Mat_wf original -> CV.Mat_wf blurred ->
    CV.empty original = false -> CV.size_eqb original blurred = true ->
    CV.depth original = CV.CV_8U -> CV.depth blurred = CV.CV_8U ->
    CV.channels original = 3%Z -> CV.channels blurred = 3%Z ->
    Forall CV.sample_8U (CV.data original) ->
    (forall i, (i < length (CV.data original))%nat ->
               within t (nth i (CV.data original) NaN)
                        (nth i (CV.data blurred) NaN)) ->
    Filters.applyUnsharpMask original blurred (Fin amount) (Fin t) = original.
Proof.
  intros A B amount t HwA HwB HA Hs HdA _ H3 H3B H8 Hwithin.
  rewrite applyUnsharpMask_map2 by assumption.
  assert (Hsz := Hs). unfold CV.size_eqb in Hsz. apply andb_prop in Hsz.
  destruct Hsz as [Hr Hc]. apply Z.eqb_eq in Hr, Hc.
  assert (HlenB : length (CV.data A) = length (CV.data B)).
  { destruct HwA as (_ & _ & _ & Ea), HwB as (_ & _ & _ & Eb).
    apply Nat2Z.inj. rewrite Ea, Eb, Hr, Hc, H3, H3B. reflexivity. }
  destruct A as [r c cn dp dt]. unfold CV.with_data. simpl in *. f_equal.
  apply nth_ext with (d := NaN) (d' := NaN).
  - now apply length_map2.
  - intros i Hi. rewrite length_map2 in Hi by assumption.
    rewrite nth_map2 by assumption.
    apply unsharp_sample_within; [|now apply Hwithin].
    apply (proj1 (Forall_forall _ _) H8). now apply nth_In.
Qed.

Lemma applyUnsharpMask_under_threshold_witness :
  Filters.applyUnsharpMask bgr_1x1 bgr_1x1_soft (Fin 1.5) (Fin 10) = bgr_1x1.
Proof.
  apply (applyUnsharpMask_under_threshold bgr_1x1 bgr_1x1_soft 1.5%R 10%R
           bgr_1x1_wf bgr_1x1_soft_wf); try reflexivity.
  - exact bgr_1x1_8U.
  - intros i Hi. simpl in Hi.
    assert (Hc : i = 0%nat \/ i = 1%nat \/ i = 2%nat) by lia.
    destruct Hc as [-> | [-> | ->]]; simpl; unfold within, of_int;
      eexists; eexists; (split; [reflexivity|]); (split; [reflexivity|]);
      unfold Rabs; destruct (Rcase_abs _); lra.
Defined.

(** *** The composite score *)

Lemma calculateCompositeScore_Fin (p s : R) :
  (0 <= p)%R -> (0 <= s)%R ->
  Filters.calculateCompositeScore (Fin p) (Fin s)
  = Fin (0.5 * Rmin (p / 50) 1 + 0.5 * s).
Proof.
  intros Hp Hs. unfold Filters.calculateCompositeScore. cbn [dltb].
  rewrite !Rltb_false by assumption. cbn [orb].
  rewrite ddiv_Fin by lra. rewrite std_min_Fin. reflexivity.
Qed.

Lemma calculateCompositeScore_PInf (s : R) :
  (0 <= s)%R ->
  Filters.calculateCompositeScore PInf (Fin s) = Fin (0.5 * 1 + 0.5 * s).
Proof.
  intros Hs. unfold Filters.calculateCompositeScore. cbn [dltb].
  rewrite Rltb_false by assumption. cbn [orb ddiv].
  rewrite Rltb_false by lra. unfold std_min. cbn [dltb dmul dadd]. reflexivity.
Qed.

(** X17: for a PSNR that is not negative (infinite included) and an SSIM in
    [0, 1] the composite score is a number in [0, 1]; and on finite inputs
    the score is the sentinel -1 exactly when one of them is negative. *)
Theorem calculateCompositeScore_range :
  (forall (psnr : double) (s : R),
      dleb (Fin 0) psnr = true -> (0 <= s <= 1)%R ->
      exists v : R,
        Filters.calculateCompositeScore psnr (Fin s) = Fin v /\ (0 <= v <= 1)%R)
  /\ (forall p s : R,
      Filters.calculateCompositeScore (Fin p) (Fin s) = Fin (-1)
      <-> (p < 0 \/ s < 0)%R).
Proof.
  split.
  - intros psnr s Hp Hs. destruct psnr as [p| | |]; try discriminate.
    + cbn [dleb] in Hp. apply Rleb_spec in Hp.
      rewrite calculateCompositeScore_Fin by lra. eexists. split; [reflexivity|].
      assert (0 <= Rmin (p / 50) 1 <= 1)%R.
      { split; [apply Rmin_glb; lra | apply Rmin_r]. }
      lra.
    + rewrite calculateCompositeScore_PInf by lra. eexists.
      split; [reflexivity | lra].
  - intros p s. split.
    + intros H. destruct (Rlt_dec p 0) as [Hp | Hp]; [now left|].
      destruct (Rlt_dec s 0) as [Hs | Hs]; [now right|].
      rewrite calculateCompositeScore_Fin in H by lra.
      injection H as H.
      assert (0 <= Rmin (p / 50) 1)%R by (apply Rmin_glb; lra). lra.
    + intros H. unfold Filters.calculateCompositeScore. cbn [dltb].
      destruct H as [H | H]; rewrite (Rltb_true _ _ H);
        [reflexivity | now rewrite orb_true_r].
Qed.

(** The order of the composite scores, on the real numbers of the model. *)
Lemma calculateCompositeScore_order :
  forall p p' s s' : R,
    (0 <= p <= p')%R -> (0 <= s <= s')%R ->
    (exists v v' : R,
        Filters.calculateCompositeScore (Fin p) (Fin s) = Fin v
        /\ Filters.calculateCompositeScore (Fin p') (Fin s') = Fin v'
        /\ (v <= v')%R
        /\ (s < s' -> v < v')%R
        /\ (p < p' -> p < 50 -> v < v')%R)
    /\ ((50 <= p)%R ->
        Filters.calculateCompositeScore (Fin p') (Fin s)
        = Filters.calculateCompositeScore (Fin p) (Fin s)).
Proof.
  intros p p' s s' Hp Hs. split.
  - exists (0.5 * Rmin (p / 50) 1 + 0.5 * s)%R,
           (0.5 * Rmin (p' / 50) 1 + 0.5 * s')%R.
    rewrite !calculateCompositeScore_Fin by lra.
    split; [reflexivity|]. split; [reflexivity|].
    assert (Hm : (Rmin (p / 50) 1 <= Rmin (p' / 50) 1)%R).
    { apply Rle_min_compat_r. lra. }
    split; [lra|]. split; [lra|].
    intros Hlt H50.
    assert (Hm' : (Rmin (p / 50) 1 < Rmin (p' / 50) 1)%R).
    { rewrite (Rmin_left (p / 50) 1) by lra.
      apply Rmin_glb_lt; lra. }
    lra.
  - intros H50. rewrite !calculateCompositeScore_Fin by lra.
    rewrite !Rmin_right by lra. reflexivity.
Qed.

(** X18: on non-negative inputs the composite score does not decrease when the
    PSNR and the SSIM do not; from 50 dB on, a higher PSNR leaves the score
    unchanged. *)
Theorem calculateCompositeScore_monotone :
  forall p p' s s' : R,
    (0 <= p <= p')%R -> (0 <= s <= s')%R ->
    (exists v v' : R,
        Filters.calculateCompositeScore (Fin p) (Fin s) = Fin v
        /\ Filters.calculateCompositeScore (Fin p') (Fin s') = Fin v'
        /\ (v <= v')%R)
    /\ ((50 <= p)%R ->
        Filters.calculateCompositeScore (Fin p') (Fin s)
        = Filters.calculateCompositeScore (Fin p) (Fin s)).
Proof.
  intros p p' s s' Hp Hs.
  destruct (calculateCompositeScore_order p p' s s' Hp Hs)
    as [(v & v' & E & E' & Hle & _) Hplateau].
  split; [|exact Hplateau].
  exists v, v'. auto.
Qed.

Lemma calculateCompositeScore_monotone_witness :
  Filters.calculateCompositeScore (Fin 60) (Fin 0.5)
  = Filters.calculateCompositeScore (Fin 55) (Fin 0.5).
Proof.
  apply (proj2 (calculateCompositeScore_monotone 55 60 0.5 0.6
                  ltac:(lra) ltac:(lra))).
  lra.
Defined.

(** ** More of [psnr.cpp] *)

(** *** Symmetry *)

Lemma dsq_sym (a b : double) :
  ((a - b) * (a - b))%D = ((b - a) * (b - a))%D.
Proof.
  destruct a as [x| | |], b as [y| | |]; try reflexivity.
  cbn [dsub dneg dadd dmul]. f_equal. ring.
Qed.

Lemma map2_sq_sym (a b : list double) :
  CV.map2 dmul (CV.map2 dsub a b) (CV.map2 dsub a b)
  = CV.map2 dmul (CV.map2 dsub b a) (CV.map2 dsub b a).
Proof.
  revert b. induction a as [|x a IH]; intros [|y b]; try reflexivity.
  unfold CV.map2 in *. cbn [combine map fst snd].
  rewrite IH. f_equal. apply dsq_sym.
Qed.

Lemma sum_of_squared_errors_sym (A B : CV.Mat) :
  CV.channels A = CV.channels B ->
  Psnr.sum_of_squared_errors A B = Psnr.sum_of_squared_errors B A.
Proof.
  intros Hch. unfold Psnr.sum_of_squared_errors. cbv zeta.
  rewrite <- Hch. apply fold_left_ext. intros sse i. f_equal.
  unfold CV.scalar_at. f_equal.
  unfold CV.sum, CV.channel, CV.channel_of, CV.mul, CV.sub, CV.convertTo,
    CV.with_data.
  cbn [CV.rows CV.cols CV.channels CV.depth CV.data].
  rewrite <- Hch. now rewrite (map2_sq_sym (CV.data A) (CV.data B)).
Qed.

Lemma calculatePSNR_sym (A B : CV.Mat) :
  CV.depth A = CV.depth B ->
  Psnr.calculatePSNR A B = Psnr.calculatePSNR B A.
Proof.
  intros Hd. unfold Psnr.calculatePSNR.
  rewrite (orb_comm (CV.empty B)).
  destruct (CV.empty A || CV.empty B); [reflexivity|].
  assert (Es : CV.size_eqb B A = CV.size_eqb A B).
  { unfold CV.size_eqb. now rewrite (Z.eqb_sym (CV.rows B)), (Z.eqb_sym (CV.cols B)). }
  rewrite Es. destruct (CV.size_eqb A B) eqn:Hs; [|reflexivity]. cbn [negb].
  rewrite (Z.eqb_sym (CV.channels B)).
  destruct (Z.eqb_spec (CV.channels A) (CV.channels B)) as [Hch|]; [|reflexivity].
  cbn [negb]. unfold CV.size_eqb in Hs. apply andb_prop in Hs.
  destruct Hs as [Hr Hc]. apply Z.eqb_eq in Hr, Hc.
  assert (Em : Psnr.mean_squared_error B A = Psnr.mean_squared_error A B).
  { unfold Psnr.mean_squared_error. cbv zeta.
    rewrite (sum_of_squared_errors_sym A B Hch).
    unfold CV.total. now rewrite Hr, Hc, Hch. }
  rewrite Em. unfold Psnr.max_pixel_value. now rewrite Hd.
Qed.

(** X19: for two matrices of the same depth [calculatePSNR] is symmetric in its
    arguments, error cases included (the peak value is read from the first
    argument only, hence the condition on the depth). *)
Theorem calculatePSNR_symmetric :
  forall A B : CV.Mat,
    CV.depth A = CV.depth B ->
    Psnr.calculatePSNR A B = Psnr.calculatePSNR B A.
Proof. exact calculatePSNR_sym. Qed.

Lemma calculatePSNR_symmetric_witness :
  Psnr.calculatePSNR (uniform_4x4 100) (uniform_4x4 110)
  = Psnr.calculatePSNR (uniform_4x4 110) (uniform_4x4 100).
Proof.
  apply (calculatePSNR_symmetric (uniform_4x4 100) (uniform_4x4 110)).
  reflexivity.
Defined.

(** *** The sum over the channels *)

Lemma Rsum_zero_map (A : Type) (l : list A) :
  CV.Rsum (map (fun _ => 0%R) l) = 0%R.
Proof.
  induction l as [|a l IH]; [reflexivity|].
  cbn [map]. rewrite Rsum_cons, IH. lra.
Qed.

Lemma Rsum_indicator (c0 : Z) (v : R) (l : list Z) :
  NoDup l -> In c0 l ->
  CV.Rsum (map (fun c => if (c0 =? c)%Z then v else 0%R) l) = v.
Proof.
  induction 1 as [|c l Hnin Hnd IH]; intros Hin; [contradiction|].
  cbn [map]. rewrite Rsum_cons.
  destruct (Z.eqb_spec c0 c) as [-> | Hne].
  - assert (E : CV.Rsum (map (fun c' => if (c =? c')%Z then v else 0%R) l) = 0%R).
    { clear IH Hnd Hin. induction l as [|c' l IH]; [reflexivity|].
      cbn [map]. rewrite Rsum_cons.
      destruct (Z.eqb_spec c c') as [-> | _].
      - exfalso. apply Hnin. now left.
      - rewrite IH; [lra|]. intros H. apply Hnin. now right. }
    rewrite E. lra.
  - rewrite IH; [lra|]. destruct Hin as [-> | Hin]; [contradiction | assumption].
Qed.

Lemma NoDup_map_of_nat (lo : Z) (l : list nat) :
  NoDup l -> NoDup (map (fun i => (lo + Z.of_nat i)%Z) l).
Proof.
  induction 1 as [|i l Hnin _ IH]; cbn [map]; constructor; [|exact IH].
  intros H. apply in_map_iff in H. destruct H as [j [E Hj]].
  assert (j = i) by lia. subst j. contradiction.
Qed.

Lemma NoDup_upto (n : Z) : NoDup (Int.upto n).
Proof.
  unfold Int.upto, Int.range. apply NoDup_map_of_nat. apply seq_NoDup.
Qed.

Lemma Rsum_plus (A : Type) (f g : A -> R) (l : list A) :
  CV.Rsum (map (fun a => (f a + g a)%R) l)
  = (CV.Rsum (map f l) + CV.Rsum (map g l))%R.
Proof.
  induction l as [|a l IH]; [unfold CV.Rsum; simpl; lra|].
  cbn [map]. rewrite !Rsum_cons, IH. lra.
Qed.

(** The sums of the classes of a partition add up to the sum of the whole. *)
Lemma Rsum_partition (cn : Z) (L : list (nat * double)) :
  (0 < cn)%Z ->
  CV.Rsum
    (map (fun c =>
            CV.Rsum (map (fun p => to_R (snd p))
                         (filter (fun p => (Z.of_nat (fst p) mod cn =? c)%Z) L)))
         (Int.upto cn))
  = CV.Rsum (map (fun p => to_R (snd p)) L).
Proof.
  intros Hcn. induction L as [|p L IH].
  - change (CV.Rsum (map (fun _ : Z => 0%R) (Int.upto cn)) = 0%R).
    apply Rsum_zero_map.
  - cbn [map]. rewrite Rsum_cons. rewrite <- IH.
    rewrite <- (Rsum_indicator (Z.of_nat (fst p) mod cn) (to_R (snd p))
                  (Int.upto cn) (NoDup_upto cn))
      by (apply In_upto; apply Z.mod_pos_bound; lia).
    rewrite <- Rsum_plus. f_equal. apply map_ext. intros c.
    cbn [filter]. destruct (Z.of_nat (fst p) mod cn =? c)%Z.
    + cbn [map]. now rewrite Rsum_cons.
    + lra.
Qed.

Lemma CV_dsum_Fin (l : list double) :
  Forall CV.finite l -> CV.dsum l = Fin (CV.Rsum (map to_R l)).
Proof.
  intros H. unfold CV.dsum.
  assert (G : forall a : R,
             fold_left dadd l (Fin a) = Fin (a + CV.Rsum (map to_R l))).
  { induction H as [|v l [x ->] _ IH]; intros a.
    - simpl. f_equal. unfold CV.Rsum. simpl. lra.
    - cbn [fold_left dadd map to_R]. rewrite IH, Rsum_cons. f_equal. lra. }
  rewrite G. f_equal. lra.
Qed.

Lemma fold_add_Fin (F : Z -> R) (f : Z -> double) (l : list Z) :
  (forall i, In i l -> f i = Fin (F i)) ->
  forall a : R,
    fold_left (fun s i => (s + f i)%D) l (Fin a) = Fin (a + CV.Rsum (map F l)).
Proof.
  induction l as [|i l IH]; intros H a.
  - simpl. f_equal. unfold CV.Rsum. simpl. lra.
  - cbn [fold_left map]. rewrite (H i) by now left. cbn [dadd].
    rewrite IH by (intros j Hj; apply H; now right).
    rewrite Rsum_cons. f_equal. lra.
Qed.

(** The sum of [cv::sum(m)] over the channels of [m] is the sum of the
    samples of [m]. *)
Lemma sum_over_channels (m : CV.Mat) :
  (1 <= CV.channels m <= 4)%Z -> CV.Mat_finite m ->
  fold_left (fun sse i => (sse + CV.scalar_at (CV.sum m) i)%D)
            (Int.upto (CV.channels m)) (Fin 0)
  = Fin (CV.Rsum (map to_R (CV.data m))).
Proof.
  intros Hch Hfin.
  rewrite (fold_add_Fin
             (fun c => CV.Rsum (map to_R (CV.channel m c)))).
  - rewrite Rplus_0_l. f_equal.
    unfold CV.channel, CV.channel_of.
    transitivity
      (CV.Rsum
         (map (fun c =>
                 CV.Rsum
                   (map (fun p => to_R (snd p))
                        (filter (fun p => (Z.of_nat (fst p) mod CV.channels m =? c)%Z)
                                (combine (seq 0 (length (CV.data m))) (CV.data m)))))
              (Int.upto (CV.channels m)))).
    + f_equal. apply map_ext. intros c. now rewrite map_map.
    + rewrite Rsum_partition by lia. rewrite <- (map_map snd to_R).
      now rewrite map_snd_combine_seq.
  - intros i Hi. apply In_upto in Hi. unfold CV.scalar_at, CV.sum.
    rewrite (nth_map_upto _ 4 i) by lia.
    replace (i <? CV.channels m)%Z with true by (symmetry; apply Z.ltb_lt; lia).
    apply CV_dsum_Fin. now apply Forall_channel.
Qed.

Lemma map2_sq_err (a b : list double) :
  Forall CV.finite a -> Forall CV.finite b ->
  CV.map2 dmul (CV.map2 dsub a b) (CV.map2 dsub a b)
  = map (fun p => Fin (sq_err p)) (combine a b).
Proof.
  intros Ha. revert b. induction Ha as [|x a [u ->] _ IH]; intros b Hb.
  - reflexivity.
  - destruct Hb as [|y b [v ->] Hb]; [reflexivity|].
    specialize (IH b Hb). unfold CV.map2 in *.
    cbn [combine map fst snd]. rewrite IH. f_equal.
Qed.

Lemma sum_of_squared_errors_Fin (A B : CV.Mat) :
  (1 <= CV.channels A <= 4)%Z -> CV.Mat_finite A -> CV.Mat_finite B ->
  Psnr.sum_of_squared_errors A B
  = Fin (CV.Rsum (map sq_err (combine (CV.data A) (CV.data B)))).
Proof.
  intros Hch HA HB. unfold Psnr.sum_of_squared_errors. cbv zeta.
  set (m := CV.mul _ _).
  change (CV.channels A) with (CV.channels m).
  assert (Ed : CV.data m = map (fun p => Fin (sq_err p))
                               (combine (CV.data A) (CV.data B))).
  { unfold m. simpl. now apply map2_sq_err. }
  rewrite sum_over_channels.
  - rewrite Ed, map_map. reflexivity.
  - exact Hch.
  - unfold CV.Mat_finite. rewrite Ed. apply Forall_forall. intros v Hv.
    apply in_map_iff in Hv. destruct Hv as [p [<- _]]. now eexists.
Qed.

Lemma Rsum_bounds (M : R) (l : list R) :
  Forall (fun v => 0 <= v <= M)%R l ->
  (0 <= CV.Rsum l <= M * INR (length l))%R.
Proof.
  induction 1 as [|v l Hv _ IH].
  - unfold CV.Rsum. simpl. lra.
  - rewrite Rsum_cons. change (length (v :: l)) with (S (length l)).
    rewrite S_INR. lra.
Qed.

Lemma Rsum_zero_all (l : list R) :
  Forall (fun v => 0 <= v)%R l -> CV.Rsum l = 0%R -> Forall (fun v => v = 0%R) l.
Proof.
  induction 1 as [|v l Hv Hl IH]; intros E; [constructor|].
  rewrite Rsum_cons in E.
  assert (H0 : (0 <= CV.Rsum l)%R).
  { clear IH E. induction Hl as [|w l Hw _ IH]; [unfold CV.Rsum; simpl; lra|].
    rewrite Rsum_cons. lra. }
  constructor; [lra|]. apply IH. lra.
Qed.

Lemma sq_err_8U (p : double * double) :
  CV.sample_8U (fst p) -> CV.sample_8U (snd p) -> (0 <= sq_err p <= 65025)%R.
Proof.
  destruct p as [a b]. cbn [fst snd]. intros [x [-> Hx]] [y [-> Hy]].
  unfold sq_err, of_int.
  cbn [fst snd to_R]. rewrite <- minus_IZR, <- mult_IZR.
  assert (Hd : (-255 <= x - y <= 255)%Z) by lia.
  set (d := (x - y)%Z) in *. clearbody d.
  split; [apply (IZR_le 0); apply Z.square_nonneg | apply (IZR_le _ 65025); nia].
Qed.

Lemma Forall_combine (P : double -> Prop) (a b : list double)
    (p : double * double) :
  Forall P a -> Forall P b -> In p (combine a b) -> P (fst p) /\ P (snd p).
Proof.
  intros Ha Hb Hp. destruct p as [x y].
  pose proof (in_combine_l _ _ _ _ Hp). pose proof (in_combine_r _ _ _ _ Hp).
  split; [apply (proj1 (Forall_forall _ _) Ha) | apply (proj1 (Forall_forall _ _) Hb)];
    assumption.
Qed.

Lemma sample_8U_finite (d : double) : CV.sample_8U d -> CV.finite d.
Proof. intros [z [-> _]]. now eexists. Qed.

Lemma Forall_8U_finite (l : list double) :
  Forall CV.sample_8U l -> Forall CV.finite l.
Proof. apply Forall_impl. exact sample_8U_finite. Qed.

Lemma Rlog10_nonneg (x : R) : (1 <= x)%R -> (0 <= Rlog10 x)%R.
Proof.
  intros H. unfold Rlog10. pose proof ln_10_pos.
  apply Rmult_le_pos; [|left; now apply Rinv_0_lt_compat].
  rewrite <- ln_1. destruct H as [H | <-]; [|lra].
  left. apply ln_increasing; lra.
Qed.

Lemma combine_same (a b : list double) :
  length a = length b ->
  (forall p, In p (combine a b) -> fst p = snd p) -> a = b.
Proof.
  revert b. induction a as [|x a IH]; intros [|y b] Hl H; simpl in Hl;
    try discriminate; [reflexivity|].
  f_equal.
  - apply (H (x, y)). now left.
  - apply IH; [lia|]. intros p Hp. apply H. now right.
Qed.

(** The mean squared error and the PSNR of two 8-bit matrices that pass
    the checks. *)
Lemma psnr_8bit (A B : CV.Mat) :
  CV.Mat_wf A -> CV.Mat_wf B ->
  CV.empty A = false -> CV.size_eqb A B = true ->
  CV.channels A = CV.channels B -> CV.depth A = CV.CV_8U ->
  Forall CV.sample_8U (CV.data A) -> Forall CV.sample_8U (CV.data B) ->
  exists m : R,
    Psnr.mean_squared_error A B = Fin m
    /\ (0 <= m <= 65025)%R
    /\ (m = 0%R <-> CV.data A = CV.data B)
    /\ (m = 0%R -> Psnr.calculatePSNR A B = PInf)
    /\ (m <> 0%R ->
        Psnr.calculatePSNR A B = Fin (10 * Rlog10 (65025 / m))
        /\ (0 <= 10 * Rlog10 (65025 / m))%R).
Proof.
  intros HwA HwB HA Hs Hch Hd H8A H8B.
  assert (Hsz := Hs). unfold CV.size_eqb in Hsz. apply andb_prop in Hsz.
  destruct Hsz as [Hr Hc]. apply Z.eqb_eq in Hr, Hc.
  assert (HB : CV.empty B = false).
  { unfold CV.empty, CV.total in *. now rewrite <- Hr, <- Hc. }
  destruct HwA as (Hr0 & Hc0 & Hch0 & HlenA).
  destruct HwB as (_ & _ & _ & HlenB).
  assert (Hlen : length (CV.data A) = length (CV.data B)).
  { apply Nat2Z.inj. rewrite HlenA, HlenB, Hr, Hc, Hch. reflexivity. }
  set (L := combine (CV.data A) (CV.data B)).
  set (S := CV.Rsum (map sq_err L)).
  set (N := (CV.total A * CV.channels A)%Z).
  assert (HN : (0 < N)%Z).
  { unfold N. unfold CV.empty in HA. apply Z.eqb_neq in HA.
    unfold CV.total in *. nia. }
  assert (HNR : (0 < IZR N)%R) by now apply (IZR_lt 0).
  assert (HLlen : length L = Z.to_nat N).
  { unfold L, N, CV.total. rewrite length_combine. lia. }
  assert (Hall : Forall (fun v => 0 <= v <= 65025)%R (map sq_err L)).
  { apply Forall_forall. intros v Hv. apply in_map_iff in Hv.
    destruct Hv as [p [<- Hp]].
    destruct (Forall_combine CV.sample_8U _ _ p H8A H8B Hp).
    now apply sq_err_8U. }
  assert (HS : (0 <= S <= 65025 * IZR N)%R).
  { pose proof (Rsum_bounds 65025 _ Hall) as Hb.
    rewrite length_map, HLlen in Hb. rewrite INR_IZR_INZ in Hb.
    rewrite Z2Nat.id in Hb by lia. exact Hb. }
  assert (Emse : Psnr.mean_squared_error A B = Fin (S / IZR N)).
  { unfold Psnr.mean_squared_error. cbv zeta.
    rewrite sum_of_squared_errors_Fin
      by (assumption || now apply Forall_8U_finite).
    unfold of_int. fold N. fold L. fold S. apply ddiv_Fin. lra. }
  assert (Hm : (0 <= S / IZR N <= 65025)%R).
  { split.
    - apply Rmult_le_pos; [lra | left; now apply Rinv_0_lt_compat].
    - apply Rmult_le_reg_r with (IZR N); [assumption|].
      unfold Rdiv. rewrite Rmult_assoc, Rinv_l by lra. lra. }
  assert (Hzero : (S / IZR N = 0 <-> S = 0)%R).
  { split; intros E.
    - apply (f_equal (fun t => t * IZR N)%R) in E.
      unfold Rdiv in E. rewrite Rmult_assoc, Rinv_l in E by lra. lra.
    - rewrite E. unfold Rdiv. ring. }
  assert (Hcheck : Psnr.calculatePSNR A B
                   = if deqb (Fin (S / IZR N)) (Fin 0) then PInf
                     else (Fin 10 * dlog10 (Fin 255 * Fin 255 / Fin (S / IZR N)))%D).
  { unfold Psnr.calculatePSNR. rewrite HA, HB, Hs. cbn [orb negb].
    replace (CV.channels A =? CV.channels B)%Z with true
      by (symmetry; now apply Z.eqb_eq).
    cbn [negb]. rewrite Emse. unfold Psnr.max_pixel_value. now rewrite Hd. }
  exists (S / IZR N)%R. split; [exact Emse|]. split; [exact Hm|].
  split; [|split].
  - rewrite Hzero. split.
    + intros E. apply combine_same; [assumption|].
      intros p Hp. fold L in Hp.
      assert (Hall0 := Rsum_zero_all (map sq_err L)
                         (Forall_impl _ (fun v H => proj1 H) Hall) E).
      assert (E0 : sq_err p = 0%R).
      { apply (proj1 (Forall_forall _ _) Hall0). now apply in_map. }
      destruct (Forall_combine CV.sample_8U _ _ p H8A H8B Hp)
        as [[x [Ex _]] [y [Ey _]]].
      unfold sq_err in E0. rewrite Ex, Ey in *. unfold of_int in *.
      cbn [to_R] in E0. f_equal.
      assert (IZR x - IZR y = 0)%R by nra. lra.
    + intros E. unfold S, L. rewrite <- E.
      assert (G : forall l : list double,
                 CV.Rsum (map sq_err (combine l l)) = 0%R).
      { induction l as [|v l IH]; [reflexivity|].
        cbn [combine map]. rewrite Rsum_cons, IH. unfold sq_err. simpl. ring. }
      apply G.
  - intros E. rewrite Hcheck. cbn [deqb]. now rewrite Reqb_true.
  - intros Hne. rewrite Hcheck. cbn [deqb]. rewrite Reqb_false by assumption.
    assert (Hpos : (0 < S / IZR N)%R) by lra.
    cbn [dmul]. rewrite ddiv_Fin by lra.
    assert (H1 : (1 <= 255 * 255 / (S / IZR N))%R).
    { apply Rmult_le_reg_r with (S / IZR N)%R; [assumption|].
      replace (255 * 255 / (S / IZR N) * (S / IZR N))%R with (255 * 255)%R
        by (field; split; lra).
      lra. }
    cbn [dlog10]. rewrite Rltb_true by lra. cbn [dmul].
    replace (255 * 255)%R with 65025%R in * by lra.
    split; [reflexivity|].
    pose proof (Rlog10_nonneg _ H1). lra.
Qed.

(** X20: for two 8-bit matrices that pass the checks of [calculatePSNR], the mean
    squared error [m] is a number in [0, 65025]; the PSNR is [+inf] when
    [m = 0], and [10 * log10 (65025 / m)], which is not negative,
    otherwise. *)
Theorem calculatePSNR_8bit_is_not_negative :
  forall A B : CV.Mat,
    CV.Mat_wf A -> CV.Mat_wf B ->
    CV.empty A = false -> CV.size_eqb A B = true ->
    CV.channels A = CV.channels B -> CV.depth A = CV.CV_8U ->
    Forall CV.sample_8U (CV.data A) -> Forall CV.sample_8U (CV.data B) ->
    exists m : R,
      Psnr.mean_squared_error A B = Fin m
      /\ (0 <= m <= 65025)%R
      /\ (m = 0%R -> Psnr.calculatePSNR A B = PInf)
      /\ (m <> 0%R ->
          Psnr.calculatePSNR A B = Fin (10 * Rlog10 (65025 / m))
          /\ (0 <= 10 * Rlog10 (65025 / m))%R).
Proof.
  intros A B HwA HwB HA Hs Hch Hd H8A H8B.
  destruct (psnr_8bit A B HwA HwB HA Hs Hch Hd H8A H8B)
    as (m & H1 & H2 & _ & H3 & H4).
  exists m. tauto.
Qed.

Lemma calculatePSNR_8bit_is_not_negative_witness :
  exists m : R,
    Psnr.mean_squared_error (uniform_4x4 100) (uniform_4x4 110) = Fin m
    /\ (0 <= m <= 65025)%R
    /\ (m = 0%R -> Psnr.calculatePSNR (uniform_4x4 100) (uniform_4x4 110) = PInf)
    /\ (m <> 0%R ->
        Psnr.calculatePSNR (uniform_4x4 100) (uniform_4x4 110)
        = Fin (10 * Rlog10 (65025 / m))
        /\ (0 <= 10 * Rlog10 (65025 / m))%R).
Proof.
  apply (calculatePSNR_8bit_is_not_negative (uniform_4x4 100) (uniform_4x4 110)
           (uniform_4x4_wf 100) (uniform_4x4_wf 110)); try reflexivity.
  - apply uniform_4x4_8U. lia.
  - apply uniform_4x4_8U. lia.
Defined.

(** X21: for two 8-bit matrices that pass the checks, [calculatePSNR] returns
    [+inf] exactly when the two buffers hold the same samples. *)
Theorem calculatePSNR_infinite_iff_identical :
  forall A B : CV.Mat,
    CV.Mat_wf A -> CV.Mat_wf B ->
    CV.empty A = false -> CV.size_eqb A B = true ->
    CV.channels A = CV.channels B -> CV.depth A = CV.CV_8U ->
    Forall CV.sample_8U (CV.data A) -> Forall CV.sample_8U (CV.data B) ->
    (Psnr.calculatePSNR A B = PInf <-> CV.data A = CV.data B).
Proof.
  intros A B HwA HwB HA Hs Hch Hd H8A H8B.
  destruct (psnr_8bit A B HwA HwB HA Hs Hch Hd H8A H8B)
    as (m & _ & _ & Hz & H3 & H4).
  split.
  - intros E. apply Hz. destruct (Req_dec_T m 0) as [|Hne]; [assumption|].
    destruct (H4 Hne) as [E' _]. rewrite E' in E. discriminate.
  - intros E. apply H3. now apply Hz.
Qed.

Lemma calculatePSNR_infinite_iff_identical_witness :
  Psnr.calculatePSNR (uniform_4x4 100) (uniform_4x4 110) = PInf
  <-> CV.data (uniform_4x4 100) = CV.data (uniform_4x4 110).
Proof.
  apply (calculatePSNR_infinite_iff_identical (uniform_4x4 100) (uniform_4x4 110)
           (uniform_4x4_wf 100) (uniform_4x4_wf 110)); try reflexivity.
  - apply uniform_4x4_8U. lia.
  - apply uniform_4x4_8U. lia.
Defined.

(** X22: on well-formed 8-bit matrices [calculatePSNR] returns the sentinel -1
    exactly when an input is empty, or the sizes differ, or the numbers of
    channels differ. *)
Theorem calculatePSNR_sentinel :
  forall A B : CV.Mat,
    CV.Mat_wf A -> CV.Mat_wf B -> CV.depth A = CV.CV_8U ->
    Forall CV.sample_8U (CV.data A) -> Forall CV.sample_8U (CV.data B) ->
    (Psnr.calculatePSNR A B = Fin (-1)
     <-> (CV.empty A = true \/ CV.empty B = true
          \/ CV.size_eqb A B = false
          \/ CV.channels A <> CV.channels B)).
Proof.
  intros A B HwA HwB Hd H8A H8B.
  destruct (valid_or_invalid A B) as [(HA & HB & Hs & Hch) | Hinv].
  - destruct (psnr_8bit A B HwA HwB HA Hs Hch Hd H8A H8B)
      as (m & _ & _ & _ & Hz & Hnz).
    split.
    + intros E. exfalso. destruct (Req_dec_T m 0) as [E0 | Hne].
      * rewrite (Hz E0) in E. discriminate.
      * destruct (Hnz Hne) as [Ev Hv]. rewrite Ev in E.
        injection E as E. lra.
    + intros [H | [H | [H | H]]]; congruence.
  - split; [intros _; exact Hinv|]. intros _.
    unfold Psnr.calculatePSNR.
    destruct (CV.empty A); [reflexivity|].
    destruct (CV.empty B); [reflexivity|]. cbn [orb].
    destruct (CV.size_eqb A B); [|reflexivity]. cbn [negb].
    destruct (Z.eqb_spec (CV.channels A) (CV.channels B)); [|reflexivity].
    destruct Hinv as [H | [H | [H | H]]]; try discriminate. contradiction.
Qed.

Lemma calculatePSNR_sentinel_witness :
  Psnr.calculatePSNR (uniform_4x4 100) gray_1x2 = Fin (-1)
  <-> (CV.empty (uniform_4x4 100) = true \/ CV.empty gray_1x2 = true
       \/ CV.size_eqb (uniform_4x4 100) gray_1x2 = false
       \/ CV.channels (uniform_4x4 100) <> CV.channels gray_1x2).
Proof.
  apply (calculatePSNR_sentinel (uniform_4x4 100) gray_1x2 (uniform_4x4_wf 100)).
  - unfold CV.Mat_wf. simpl. lia.
  - reflexivity.
  - apply uniform_4x4_8U. lia.
  - simpl. repeat constructor; eexists; (split; [reflexivity | lia]).
Defined.

(** ** More of [ssim.cpp] *)

Lemma taps_like (A m : CV.Mat) (n : Z) (sigma : R) (y x c : Z) :
  like A m -> CV.taps m n sigma y x c = CV.taps A n sigma y x c.
Proof.
  intros (Hr & Hc & Hch & _). unfold CV.taps. now rewrite Hr, Hc, Hch.
Qed.

Lemma like_wf (A m : CV.Mat) : CV.Mat_wf A -> like A m -> CV.Mat_wf m.
Proof.
  intros (Ha & Hb & Hc & Hd) (H1 & H2 & H3 & H4). unfold CV.Mat_wf.
  rewrite H1, H2, H3, H4. tauto.
Qed.

Lemma like_empty (A m : CV.Mat) : like A m -> CV.empty m = CV.empty A.
Proof.
  intros (H1 & H2 & _). unfold CV.empty, CV.total. now rewrite H1, H2.
Qed.

Lemma nth_GaussianBlur_like (A m : CV.Mat) (i : nat) :
  CV.Mat_wf A -> CV.empty A = false -> like A m -> CV.Mat_finite m ->
  (i < length (CV.data A))%nat ->
  nth i (CV.data (CV.GaussianBlur m 11 1.5)) NaN
  = Fin (tap_sum (fun j => to_R (nth j (CV.data m) NaN)) (SsimSpec.window_taps A i)).
Proof.
  intros Hwf Hne Hl Hfin Hi.
  rewrite nth_GaussianBlur;
    [ | now apply (like_wf A) | now rewrite (like_empty A) | assumption | lia
      | destruct Hl as (_ & _ & _ & ->); assumption ].
  rewrite (taps_like A m) by assumption.
  destruct Hl as (_ & Hc & Hch & _). unfold SsimSpec.window_taps.
  now rewrite Hc, Hch.
Qed.

Lemma window_in_range (A : CV.Mat) (i : nat) (wi : R * nat) :
  CV.Mat_wf A -> CV.empty A = false ->
  In wi (SsimSpec.window_taps A i) -> (snd wi < length (CV.data A))%nat.
Proof.
  intros Hwf Hne. apply taps_in_range; try assumption.
  destruct Hwf as (_ & _ & ? & _). apply Z.mod_pos_bound. lia.
Qed.

Lemma window_nonneg (A : CV.Mat) (i : nat) (wi : R * nat) :
  In wi (SsimSpec.window_taps A i) -> (0 <= fst wi)%R.
Proof. apply taps_nonneg. lia. Qed.

Lemma window_sum (A : CV.Mat) (i : nat) :
  CV.Rsum (map fst (SsimSpec.window_taps A i)) = 1%R.
Proof. apply taps_sum. lia. Qed.

Lemma finite_nth (m : CV.Mat) (j : nat) :
  CV.Mat_finite m -> (j < length (CV.data m))%nat ->
  nth j (CV.data m) NaN = Fin (to_R (nth j (CV.data m) NaN)).
Proof.
  intros Hfin Hj.
  assert (H : CV.finite (nth j (CV.data m) NaN)).
  { apply (proj1 (Forall_forall _ _) Hfin). now apply nth_In. }
  destruct H as [v ->]. reflexivity.
Qed.

Lemma mul_sample (A a b : CV.Mat) (j : nat) :
  like A a -> like A b -> CV.Mat_finite a -> CV.Mat_finite b ->
  (j < length (CV.data A))%nat ->
  nth j (CV.data (CV.mul a b)) NaN
  = Fin (to_R (nth j (CV.data a) NaN) * to_R (nth j (CV.data b) NaN)).
Proof.
  intros La Lb Fa Fb Hj. rewrite (nth_mul A j Hj) by assumption.
  rewrite (finite_nth a j Fa) by (destruct La as (_ & _ & _ & ->); assumption).
  rewrite (finite_nth b j Fb) by (destruct Lb as (_ & _ & _ & ->); assumption).
  reflexivity.
Qed.

Lemma mul_finite (A a b : CV.Mat) :
  like A a -> like A b -> CV.Mat_finite a -> CV.Mat_finite b ->
  CV.Mat_finite (CV.mul a b).
Proof.
  intros La Lb Fa Fb. unfold CV.Mat_finite. apply Forall_forall. intros v Hv.
  apply In_nth with (d := NaN) in Hv. destruct Hv as [j [Hj <-]].
  assert (Hl : like A (CV.mul a b)) by now apply like_map2.
  destruct Hl as (_ & _ & _ & Hl). rewrite Hl in Hj.
  rewrite (mul_sample A a b j) by assumption. now eexists.
Qed.

Lemma convertTo_finite (m : CV.Mat) (dep : CV.Depth) :
  CV.Mat_finite m -> CV.Mat_finite (CV.convertTo m dep).
Proof. trivial. Qed.

(** The statistics of the window of [i]. *)
Lemma blur_of_product (A a b : CV.Mat) (i : nat) :
  CV.Mat_wf A -> CV.empty A = false ->
  like A a -> like A b -> CV.Mat_finite a -> CV.Mat_finite b ->
  (i < length (CV.data A))%nat ->
  nth i (CV.data (CV.GaussianBlur (CV.mul a b) 11 1.5)) NaN
  = Fin (tap_sum (fun j => to_R (nth j (CV.data a) NaN)
                           * to_R (nth j (CV.data b) NaN))%R
                 (SsimSpec.window_taps A i)).
Proof.
  intros Hwf Hne La Lb Fa Fb Hi.
  rewrite (nth_GaussianBlur_like A) ;
    [ | assumption | assumption | now apply like_map2
      | now apply (mul_finite A) | assumption ].
  f_equal. apply tap_sum_ext. intros wi Hwi.
  rewrite (mul_sample A a b) ; try assumption; [reflexivity|].
  now apply (window_in_range A i).
Qed.

Lemma tap_sum_plus (f g : nat -> R) (t : list (R * nat)) :
  tap_sum (fun j => f j + g j)%R t = (tap_sum f t + tap_sum g t)%R.
Proof.
  unfold tap_sum. induction t as [|wi t IH]; [unfold CV.Rsum; simpl; lra|].
  cbn [map]. rewrite !Rsum_cons, IH. ring.
Qed.

Lemma tap_sum_scal (c : R) (f : nat -> R) (t : list (R * nat)) :
  tap_sum (fun j => c * f j)%R t = (c * tap_sum f t)%R.
Proof.
  unfold tap_sum. induction t as [|wi t IH]; [unfold CV.Rsum; simpl; lra|].
  cbn [map]. rewrite !Rsum_cons, IH. ring.
Qed.

(** Cauchy-Schwarz for the window: twice the covariance is at most the sum
    of the variances, in absolute value. *)
Lemma window_covariance (a b : nat -> R) (t : list (R * nat)) :
  (forall wi, In wi t -> (0 <= fst wi)%R) ->
  CV.Rsum (map fst t) = 1%R ->
  let ma := tap_sum a t in
  let mb := tap_sum b t in
  let va := (tap_sum (fun j => a j * a j) t - ma * ma)%R in
  let vb := (tap_sum (fun j => b j * b j) t - mb * mb)%R in
  let cab := (tap_sum (fun j => a j * b j) t - ma * mb)%R in
  (0 <= va /\ 0 <= vb /\ - (va + vb) <= 2 * cab <= va + vb)%R.
Proof.
  intros Hw H1 ma mb va vb cab.
  pose proof (tap_sum_variance_nonneg a t Hw H1) as Ha.
  pose proof (tap_sum_variance_nonneg b t Hw H1) as Hb.
  pose proof (tap_sum_variance_nonneg (fun j => a j + b j)%R t Hw H1) as Hp.
  pose proof (tap_sum_variance_nonneg (fun j => a j + -1 * b j)%R t Hw H1) as Hm.
  rewrite (tap_sum_ext (fun j => (a j + b j) * (a j + b j))%R
             (fun j => (a j * a j + (2 * (a j * b j) + b j * b j)))%R) in Hp
    by (intros; ring).
  rewrite (tap_sum_ext (fun j => (a j + -1 * b j) * (a j + -1 * b j))%R
             (fun j => (a j * a j + (-2 * (a j * b j) + b j * b j)))%R) in Hm
    by (intros; ring).
  rewrite !tap_sum_plus, !tap_sum_scal in Hp, Hm.
  rewrite (tap_sum_scal (-1) b) in Hm.
  fold ma mb in Ha, Hb, Hp, Hm. unfold va, vb, cab.
  set (xaa := tap_sum (fun j => (a j * a j)%R) t) in *.
  set (xbb := tap_sum (fun j => (b j * b j)%R) t) in *.
  set (xab := tap_sum (fun j => (a j * b j)%R) t) in *.
  clearbody xaa xbb xab ma mb.
  repeat split; lra.
Qed.

Lemma C1_Fin : Ssim.C1 = Fin SsimSpec.c1.
Proof. reflexivity. Qed.

Lemma C2_Fin : Ssim.C2 = Fin SsimSpec.c2.
Proof. reflexivity. Qed.

Lemma c1_pos : (0 < SsimSpec.c1)%R.
Proof. unfold SsimSpec.c1. lra. Qed.

Lemma c2_pos : (0 < SsimSpec.c2)%R.
Proof. unfold SsimSpec.c2. lra. Qed.

Lemma like_ssimMap2 (A B : CV.Mat) : like A B -> like A (Ssim.ssimMap A B).
Proof.
  intros HB. pose proof (like_refl A).
  unfold Ssim.ssimMap. cbv zeta. auto 30 with like_db.
Qed.

(** The SSIM map at a sample of the first channel. *)
Lemma ssimMap_sample (A B : CV.Mat) (i : nat) :
  CV.Mat_wf A -> CV.empty A = false -> like A B ->
  CV.Mat_finite A -> CV.Mat_finite B ->
  (i < length (CV.data A))%nat -> CV.channel_of A i = 0%Z ->
  nth i (CV.data (Ssim.ssimMap A B)) NaN = Fin (SsimSpec.at_sample A B i).
Proof.
  intros Hwf Hne LB FA FB Hi Hc0.
  unfold Ssim.ssimMap. cbv zeta.
  set (fA := CV.convertTo A CV.CV_32F). set (fB := CV.convertTo B CV.CV_32F).
  assert (LfA : like A fA) by (unfold fA; auto with like_db).
  assert (LfB : like A fB) by (unfold fB; auto with like_db).
  assert (FfA : CV.Mat_finite fA) by exact FA.
  assert (FfB : CV.Mat_finite fB) by exact FB.
  set (mA := CV.GaussianBlur fA 11 1.5). set (mB := CV.GaussianBlur fB 11 1.5).
  set (eAA := CV.GaussianBlur (CV.mul fA fA) 11 1.5).
  set (eBB := CV.GaussianBlur (CV.mul fB fB) 11 1.5).
  set (eAB := CV.GaussianBlur (CV.mul fA fB) 11 1.5).
  assert (LmA : like A mA) by (unfold mA; auto with like_db).
  assert (LmB : like A mB) by (unfold mB; auto with like_db).
  assert (LeAA : like A eAA) by (unfold eAA; auto with like_db).
  assert (LeBB : like A eBB) by (unfold eBB; auto with like_db).
  assert (LeAB : like A eAB) by (unfold eAB; auto with like_db).
  set (T := SsimSpec.window_taps A i).
  set (a := fun j => to_R (nth j (CV.data A) NaN)).
  set (b := fun j => to_R (nth j (CV.data B) NaN)).
  assert (HmA : nth i (CV.data mA) NaN = Fin (tap_sum a T)).
  { unfold mA. now rewrite (nth_GaussianBlur_like A fA i). }
  assert (HmB : nth i (CV.data mB) NaN = Fin (tap_sum b T)).
  { unfold mB. now rewrite (nth_GaussianBlur_like A fB i). }
  assert (HeAA : nth i (CV.data eAA) NaN
                 = Fin (tap_sum (fun j => a j * a j)%R T)).
  { unfold eAA. now rewrite (blur_of_product A fA fA i). }
  assert (HeBB : nth i (CV.data eBB) NaN
                 = Fin (tap_sum (fun j => b j * b j)%R T)).
  { unfold eBB. now rewrite (blur_of_product A fB fB i). }
  assert (HeAB : nth i (CV.data eAB) NaN
                 = Fin (tap_sum (fun j => a j * b j)%R T)).
  { unfold eAB. now rewrite (blur_of_product A fA fB i). }
  destruct (window_covariance a b T
              (fun wi => window_nonneg A i wi) (window_sum A i))
    as (Hva & Hvb & _).
  pose proof c1_pos. pose proof c2_pos.
  rewrite (nth_divide A i Hi) by auto 10 with like_db.
  rewrite !(nth_mul A i Hi) by auto 10 with like_db.
  rewrite !(nth_add_scalar_first A i Hi) by (auto 10 with like_db).
  rewrite !(nth_scale A i Hi) by auto 10 with like_db.
  rewrite !(nth_add A i Hi) by auto 10 with like_db.
  rewrite !(nth_sub A i Hi) by auto 10 with like_db.
  rewrite !(nth_mul A i Hi) by auto 10 with like_db.
  rewrite HmA, HmB, HeAA, HeBB, HeAB, C1_Fin, C2_Fin.
  cbn [dmul dadd dsub dneg].
  unfold SsimSpec.at_sample. cbv zeta. fold T. fold a. fold b.
  unfold SsimSpec.index.
  set (ma := tap_sum a T) in *. set (mb := tap_sum b T) in *.
  set (xaa := tap_sum (fun j => (a j * a j)%R) T) in *.
  set (xbb := tap_sum (fun j => (b j * b j)%R) T) in *.
  set (xab := tap_sum (fun j => (a j * b j)%R) T) in *.
  assert (Hd1 : (0 < ma * ma + mb * mb + SsimSpec.c1)%R) by nra.
  assert (Hd2 : (0 < xaa - ma * ma + (xbb - mb * mb) + SsimSpec.c2)%R) by lra.
  rewrite ddiv_Fin by nra.
  reflexivity.
Qed.

(** *** Symmetry *)

Lemma dmul_comm (a b : double) : (a * b)%D = (b * a)%D.
Proof.
  destruct a as [x| | |], b as [y| | |]; try reflexivity.
  cbn [dmul]. f_equal. ring.
Qed.

Lemma dadd_comm (a b : double) : (a + b)%D = (b + a)%D.
Proof.
  destruct a as [x| | |], b as [y| | |]; try reflexivity.
  cbn [dadd]. f_equal. ring.
Qed.

Lemma map2_comm (f : double -> double -> double) (a b : list double) :
  (forall x y, f x y = f y x) -> CV.map2 f a b = CV.map2 f b a.
Proof.
  intros Hf. revert b. induction a as [|x a IH]; intros [|y b]; try reflexivity.
  unfold CV.map2 in *. cbn [combine map fst snd]. now rewrite IH, Hf.
Qed.

Lemma same_shape_sym (a b : CV.Mat) : same_shape a b -> same_shape b a.
Proof. unfold same_shape. intuition congruence. Qed.

Lemma Mat_mul_comm (a b : CV.Mat) : same_shape a b -> CV.mul a b = CV.mul b a.
Proof.
  intros (Hr & Hc & Hch & Hd). unfold CV.mul, CV.with_data.
  rewrite Hr, Hc, Hch, Hd. f_equal. apply map2_comm. apply dmul_comm.
Qed.

Lemma Mat_add_comm (a b : CV.Mat) : same_shape a b -> CV.add a b = CV.add b a.
Proof.
  intros (Hr & Hc & Hch & Hd). unfold CV.add, CV.with_data.
  rewrite Hr, Hc, Hch, Hd. f_equal. apply map2_comm. apply dadd_comm.
Qed.

Lemma ssimMap_sym (A B : CV.Mat) :
  CV.rows A = CV.rows B -> CV.cols A = CV.cols B ->
  CV.channels A = CV.channels B ->
  Ssim.ssimMap A B = Ssim.ssimMap B A.
Proof.
  intros Hr Hc Hch. unfold Ssim.ssimMap. cbv zeta.
  set (fA := CV.convertTo A CV.CV_32F). set (fB := CV.convertTo B CV.CV_32F).
  assert (S0 : same_shape fB fA).
  { unfold same_shape, fA, fB. simpl. intuition congruence. }
  set (mA := CV.GaussianBlur fA 11 1.5). set (mB := CV.GaussianBlur fB 11 1.5).
  assert (S1 : same_shape mB mA) by exact S0.
  rewrite (Mat_mul_comm fB fA S0). rewrite (Mat_mul_comm mB mA S1).
  rewrite (Mat_add_comm (CV.mul mB mB) (CV.mul mA mA)) by exact S1.
  rewrite (Mat_add_comm
             (CV.sub (CV.GaussianBlur (CV.mul fB fB) 11 1.5) (CV.mul mB mB))
             (CV.sub (CV.GaussianBlur (CV.mul fA fA) 11 1.5) (CV.mul mA mA)))
    by exact S0.
  reflexivity.
Qed.

(** X23: [computeSSIM] is symmetric in its two arguments, for all inputs, error
    cases included. *)
Theorem computeSSIM_symmetric :
  forall A B : CV.Mat, Ssim.computeSSIM A B = Ssim.computeSSIM B A.
Proof.
  intros A B. unfold Ssim.computeSSIM.
  rewrite (orb_comm (CV.empty B)).
  destruct (CV.empty A || CV.empty B); [reflexivity|].
  rewrite (Z.eqb_sym (CV.rows B)), (Z.eqb_sym (CV.cols B)).
  destruct (Z.eqb_spec (CV.rows A) (CV.rows B)) as [Hr|]; [|reflexivity].
  destruct (Z.eqb_spec (CV.cols A) (CV.cols B)) as [Hc|]; [|reflexivity].
  cbn [andb negb].
  assert (Et : CV.type_eqb B A = CV.type_eqb A B).
  { unfold CV.type_eqb. rewrite (Z.eqb_sym (CV.channels B)). f_equal.
    now destruct (CV.depth A), (CV.depth B). }
  rewrite Et. destruct (CV.type_eqb A B) eqn:Ht; [|reflexivity]. cbn [negb].
  unfold CV.type_eqb in Ht. apply andb_prop in Ht. destruct Ht as [_ Hch].
  apply Z.eqb_eq in Hch. now rewrite (ssimMap_sym A B Hr Hc Hch).
Qed.

(** *** The mean over the first channel *)

Lemma channel_from (l : list double) (P : nat -> bool) (s : nat) :
  map snd (filter (fun p => P (fst p)) (combine (seq s (length l)) l))
  = map (fun i => nth (i - s) l NaN) (filter P (seq s (length l))).
Proof.
  revert s. induction l as [|x l IH]; intros s; [reflexivity|].
  cbn [length seq combine filter fst].
  assert (E : map (fun i => nth (i - s) (x :: l) NaN) (filter P (seq (S s) (length l)))
              = map (fun i => nth (i - S s) l NaN) (filter P (seq (S s) (length l)))).
  { apply map_ext_in. intros i Hi. apply filter_In in Hi. destruct Hi as [Hi _].
    apply in_seq in Hi. replace (i - s)%nat with (S (i - S s)) by lia.
    reflexivity. }
  destruct (P s); cbn [map snd]; rewrite IH, E; [|reflexivity].
  now rewrite Nat.sub_diag.
Qed.

Lemma channel_0_as_map (A m : CV.Mat) :
  like A m ->
  CV.channel m 0 = map (fun i => nth i (CV.data m) NaN) (first_channel A).
Proof.
  intros (_ & _ & Hch & Hlen). unfold CV.channel, first_channel.
  rewrite (channel_from (CV.data m) (fun i => (CV.channel_of m i =? 0)%Z) 0).
  rewrite Hlen. unfold CV.channel_of. rewrite Hch.
  apply map_ext. intros i. now rewrite Nat.sub_0_r.
Qed.

Lemma In_first_channel (A : CV.Mat) (i : nat) :
  In i (first_channel A)
  <-> (i < length (CV.data A))%nat /\ CV.channel_of A i = 0%Z.
Proof.
  unfold first_channel. rewrite filter_In, in_seq, Z.eqb_eq. lia.
Qed.

Lemma length_first_channel (A : CV.Mat) :
  CV.Mat_wf A -> Z.of_nat (length (first_channel A)) = CV.total A.
Proof.
  intros Hwf. rewrite <- (length_channel_0 A Hwf).
  rewrite (channel_0_as_map A A (like_refl A)). now rewrite length_map.
Qed.

Lemma comparable_like (A B : CV.Mat) :
  CV.Mat_wf A -> CV.Mat_wf B -> comparable A B -> like A B.
Proof.
  intros (_ & _ & _ & Ha) (_ & _ & _ & Hb) (_ & Hr & Hc & Ht).
  unfold CV.type_eqb in Ht. apply andb_prop in Ht. destruct Ht as [_ Hch].
  apply Z.eqb_eq in Hch. unfold like. repeat split; try congruence.
  apply Nat2Z.inj. rewrite Ha, Hb, Hr, Hc, Hch. reflexivity.
Qed.

Lemma computeSSIM_mean (A B : CV.Mat) :
  CV.Mat_wf A -> CV.Mat_wf B -> comparable A B ->
  CV.Mat_finite A -> CV.Mat_finite B ->
  Ssim.computeSSIM A B
  = Fin (CV.Rsum (map (SsimSpec.at_sample A B) (first_channel A))
         / IZR (CV.total A)).
Proof.
  intros HwA HwB Hcmp FA FB.
  pose proof (comparable_like A B HwA HwB Hcmp) as LB.
  destruct Hcmp as (Hne & Hr & Hc & Ht).
  assert (HneB : CV.empty B = false).
  { unfold CV.empty, CV.total in *. now rewrite <- Hr, <- Hc. }
  unfold Ssim.computeSSIM. rewrite Hne, HneB, Ht. cbn [orb].
  replace (CV.rows A =? CV.rows B)%Z with true by (symmetry; now apply Z.eqb_eq).
  replace (CV.cols A =? CV.cols B)%Z with true by (symmetry; now apply Z.eqb_eq).
  cbn [andb negb].
  pose proof (like_ssimMap2 A B LB) as LM.
  set (M := Ssim.ssimMap A B) in *.
  unfold CV.scalar_at, CV.mean.
  change (Int.upto 4) with [0; 1; 2; 3]%Z. cbn [map nth Z.to_nat].
  destruct HwA as (Hr0 & Hc0 & Hch0 & HlenA).
  assert (HwA : CV.Mat_wf A) by (unfold CV.Mat_wf; tauto).
  destruct LM as (LMr & LMc & LMch & LMl).
  assert (LM : like A M) by (unfold like; tauto).
  replace (0 <? CV.channels M)%Z with true
    by (symmetry; apply Z.ltb_lt; lia).
  rewrite (channel_0_as_map A M LM).
  assert (E : map (fun i => nth i (CV.data M) NaN) (first_channel A)
              = map Fin (map (SsimSpec.at_sample A B) (first_channel A))).
  { rewrite map_map. apply map_ext_in. intros i Hi.
    apply In_first_channel in Hi. destruct Hi as [Hi Hc0'].
    unfold M. now apply ssimMap_sample. }
  rewrite E.
  assert (G : forall l : list R, CV.dsum (map Fin l) = Fin (CV.Rsum l)).
  { intros l. rewrite CV_dsum_Fin.
    - now rewrite map_map, map_id.
    - apply Forall_forall. intros v Hv. apply in_map_iff in Hv.
      destruct Hv as [x [<- _]]. now eexists. }
  rewrite G. unfold of_int.
  assert (Ht' : CV.total M = CV.total A) by (unfold CV.total; congruence).
  rewrite Ht'. apply ddiv_Fin.
  unfold CV.empty in Hne. apply Z.eqb_neq in Hne. now apply not_0_IZR.
Qed.

(** *** The range of the index *)

Lemma value_range (ma mb va vb cab : R) :
  (0 <= va)%R -> (0 <= vb)%R -> (- (va + vb) <= 2 * cab <= va + vb)%R ->
  (-1 < SsimSpec.index ma mb (va + ma * ma) (vb + mb * mb) (cab + ma * mb)
   <= 1)%R.
Proof.
  intros Hva Hvb Hc. unfold SsimSpec.index.
  pose proof c1_pos. pose proof c2_pos.
  replace (va + ma * ma - ma * ma)%R with va by ring.
  replace (vb + mb * mb - mb * mb)%R with vb by ring.
  replace (cab + ma * mb - ma * mb)%R with cab by ring.
  set (n1 := (2 * (ma * mb) + SsimSpec.c1)%R).
  set (d1 := (ma * ma + mb * mb + SsimSpec.c1)%R).
  set (n2 := (2 * cab + SsimSpec.c2)%R).
  set (d2 := (va + vb + SsimSpec.c2)%R).
  assert (H1 : (0 <= d1 - n1)%R).
  { unfold d1, n1. pose proof (Rle_0_sqr (ma - mb)). unfold Rsqr in *. lra. }
  assert (H2 : (0 < d1 + n1)%R).
  { unfold d1, n1. pose proof (Rle_0_sqr (ma + mb)). unfold Rsqr in *. lra. }
  assert (H3 : (0 <= d2 - n2)%R) by (unfold d2, n2; lra).
  assert (H4 : (0 < d2 + n2)%R) by (unfold d2, n2; lra).
  assert (Hd1 : (0 < d1)%R) by lra.
  assert (Hd2 : (0 < d2)%R) by lra.
  assert (Hd : (0 < d1 * d2)%R) by now apply Rmult_lt_0_compat.
  clearbody n1 d1 n2 d2.
  assert (P1 : (0 <= (d1 - n1) * (d2 + n2))%R) by (apply Rmult_le_pos; lra).
  assert (P2 : (0 <= (d1 + n1) * (d2 - n2))%R) by (apply Rmult_le_pos; lra).
  assert (P3 : (0 < (d1 + n1) * (d2 + n2))%R) by (apply Rmult_lt_0_compat; lra).
  assert (P4 : (0 <= (d1 - n1) * (d2 - n2))%R) by (apply Rmult_le_pos; lra).
  split.
  - apply Rmult_lt_reg_r with (d1 * d2)%R; [assumption|].
    unfold Rdiv. rewrite Rmult_assoc, Rinv_l by lra. lra.
  - apply Rmult_le_reg_r with (d1 * d2)%R; [assumption|].
    unfold Rdiv. rewrite Rmult_assoc, Rinv_l by lra. lra.
Qed.

Lemma at_sample_range (A B : CV.Mat) (i : nat) :
  (-1 < SsimSpec.at_sample A B i <= 1)%R.
Proof.
  unfold SsimSpec.at_sample. cbv zeta.
  set (T := SsimSpec.window_taps A i).
  set (a := fun j => to_R (nth j (CV.data A) NaN)).
  set (b := fun j => to_R (nth j (CV.data B) NaN)).
  destruct (window_covariance a b T
              (fun wi => window_nonneg A i wi) (window_sum A i))
    as (Hva & Hvb & Hc).
  pose proof (value_range (tap_sum a T) (tap_sum b T) _ _ _ Hva Hvb Hc) as H.
  replace (tap_sum (fun j => a j * a j) T - tap_sum a T * tap_sum a T
           + tap_sum a T * tap_sum a T)%R
    with (tap_sum (fun j => a j * a j)%R T) in H by ring.
  replace (tap_sum (fun j => b j * b j) T - tap_sum b T * tap_sum b T
           + tap_sum b T * tap_sum b T)%R
    with (tap_sum (fun j => b j * b j)%R T) in H by ring.
  replace (tap_sum (fun j => a j * b j) T - tap_sum a T * tap_sum b T
           + tap_sum a T * tap_sum b T)%R
    with (tap_sum (fun j => a j * b j)%R T) in H by ring.
  exact H.
Qed.

Lemma Rsum_strict_bounds (A : Type) (f : A -> R) (l : list A) :
  l <> [] -> (forall a, In a l -> (-1 < f a <= 1)%R) ->
  (- INR (length l) < CV.Rsum (map f l) <= INR (length l))%R.
Proof.
  intros Hne H. destruct l as [|x l]; [contradiction|]. clear Hne.
  revert x H. induction l as [|y l IH]; intros x H.
  - cbn [map length]. rewrite Rsum_cons. unfold CV.Rsum. simpl.
    pose proof (H x (or_introl eq_refl)). lra.
  - cbn [map]. rewrite Rsum_cons.
    change (length (x :: y :: l)) with (S (length (y :: l))). rewrite S_INR.
    pose proof (H x (or_introl eq_refl)).
    assert (IH' := IH y (fun a Ha => H a (or_intror Ha))).
    cbn [map] in IH'. lra.
Qed.

Lemma computeSSIM_in_range (A B : CV.Mat) :
  CV.Mat_wf A -> CV.Mat_wf B -> comparable A B ->
  CV.Mat_finite A -> CV.Mat_finite B ->
  exists s : R, Ssim.computeSSIM A B = Fin s /\ (-1 < s <= 1)%R.
Proof.
  intros HwA HwB Hcmp FA FB.
  rewrite computeSSIM_mean by assumption. eexists. split; [reflexivity|].
  pose proof (length_first_channel A HwA) as HN.
  destruct Hcmp as (Hne & _). unfold CV.empty in Hne. apply Z.eqb_neq in Hne.
  assert (Hpos : (0 < CV.total A)%Z).
  { destruct HwA as (? & ? & _). unfold CV.total in *. nia. }
  assert (HNR : (0 < IZR (CV.total A))%R) by now apply (IZR_lt 0).
  assert (Hl : first_channel A <> []).
  { intros E. rewrite E in HN. simpl in HN. lia. }
  pose proof (Rsum_strict_bounds nat (SsimSpec.at_sample A B) (first_channel A) Hl
                (fun i _ => at_sample_range A B i)) as Hb.
  rewrite INR_IZR_INZ, HN in Hb.
  split.
  - apply Rmult_lt_reg_r with (IZR (CV.total A)); [assumption|].
    unfold Rdiv. rewrite Rmult_assoc, Rinv_l by lra. lra.
  - apply Rmult_le_reg_r with (IZR (CV.total A)); [assumption|].
    unfold Rdiv. rewrite Rmult_assoc, Rinv_l by lra. lra.
Qed.

(** The window of a sample reads samples of its own channel. *)
Lemma window_channel (A : CV.Mat) (i : nat) (wi : R * nat) :
  CV.Mat_wf A -> CV.empty A = false ->
  In wi (SsimSpec.window_taps A i) -> CV.channel_of A (snd wi) = CV.channel_of A i.
Proof.
  intros (Hr & Hc & Hch & _) Hne. unfold SsimSpec.window_taps, CV.taps.
  intros H. apply in_flat_map in H. destruct H as [dy [_ H]].
  apply in_map_iff in H. destruct H as [dx [<- _]]. cbn [snd].
  unfold CV.empty, CV.total in Hne. apply Z.eqb_neq in Hne.
  set (y := (Z.of_nat i / CV.channels A / CV.cols A)%Z).
  set (x := ((Z.of_nat i / CV.channels A) mod CV.cols A)%Z).
  pose proof (reflect101_range (y + dy - 11 / 2) (CV.rows A) ltac:(nia)) as Hy.
  pose proof (reflect101_range (x + dx - 11 / 2) (CV.cols A) ltac:(nia)) as Hx.
  set (sy := CV.reflect101 (y + dy - 11 / 2) (CV.rows A)) in *.
  set (sx := CV.reflect101 (x + dx - 11 / 2) (CV.cols A)) in *.
  pose proof (Z.mod_pos_bound (Z.of_nat i) (CV.channels A) ltac:(lia)) as Hm.
  unfold CV.channel_of. rewrite Z2Nat.id by nia.
  rewrite Z.add_comm, Z.mod_add by lia. apply Z.mod_mod. lia.
Qed.

Lemma at_sample_ext (A B B' : CV.Mat) (i : nat) :
  CV.Mat_wf A -> CV.empty A = false ->
  (forall j, (j < length (CV.data A))%nat ->
             CV.channel_of A j = CV.channel_of A i ->
             nth j (CV.data B) NaN = nth j (CV.data B') NaN) ->
  SsimSpec.at_sample A B i = SsimSpec.at_sample A B' i.
Proof.
  intros Hwf Hne H. unfold SsimSpec.at_sample. cbv zeta.
  assert (E : forall wi, In wi (SsimSpec.window_taps A i) ->
                nth (snd wi) (CV.data B) NaN = nth (snd wi) (CV.data B') NaN).
  { intros wi Hwi. apply H.
    - now apply (window_in_range A i).
    - now apply window_channel. }
  f_equal; apply tap_sum_ext; intros wi Hwi; now rewrite (E wi Hwi).
Qed.

Lemma at_sample_self (A : CV.Mat) (i : nat) : SsimSpec.at_sample A A i = 1%R.
Proof.
  pose (T := SsimSpec.window_taps A i).
  pose (a := fun j => to_R (nth j (CV.data A) NaN)).
  change (SsimSpec.index (tap_sum a T) (tap_sum a T)
            (tap_sum (fun j => a j * a j)%R T) (tap_sum (fun j => a j * a j)%R T)
            (tap_sum (fun j => a j * a j)%R T) = 1%R).
  destruct (window_covariance a a T
              (fun wi => window_nonneg A i wi) (window_sum A i))
    as (Hva & _ & _).
  unfold SsimSpec.index. pose proof c1_pos. pose proof c2_pos.
  set (m := tap_sum a T) in *. set (e := tap_sum (fun j => (a j * a j)%R) T) in *.
  assert (Hm : (0 <= m * m)%R) by apply Rle_0_sqr.
  clearbody m e.
  replace ((2 * (m * m) + SsimSpec.c1) * (2 * (e - m * m) + SsimSpec.c2))%R
    with ((m * m + m * m + SsimSpec.c1) * (e - m * m + (e - m * m) + SsimSpec.c2))%R
    by ring.
  apply Rdiv_diag.
  assert (0 < (m * m + m * m + SsimSpec.c1)
              * (e - m * m + (e - m * m) + SsimSpec.c2))%R
    by (apply Rmult_lt_0_compat; lra).
  lra.
Qed.

Lemma computeSSIM_first_channel (A B B' : CV.Mat) :
  CV.Mat_wf A -> CV.Mat_wf B -> CV.Mat_wf B' ->
  comparable A B -> comparable A B' ->
  CV.Mat_finite A -> CV.Mat_finite B -> CV.Mat_finite B' ->
  (forall i, In i (first_channel A) ->
             nth i (CV.data B) NaN = nth i (CV.data B') NaN) ->
  Ssim.computeSSIM A B = Ssim.computeSSIM A B'.
Proof.
  intros HwA HwB HwB' Hc Hc' FA FB FB' Hagree.
  rewrite !computeSSIM_mean by assumption. f_equal. f_equal. f_equal.
  apply map_ext_in. intros i Hi. apply In_first_channel in Hi.
  destruct Hi as [Hi Hi0]. apply at_sample_ext; try assumption.
  - now destruct Hc.
  - intros j Hj Hjc. apply Hagree. apply In_first_channel.
    split; [assumption | congruence].
Qed.

Lemma comparable_refl (A : CV.Mat) : CV.empty A = false -> comparable A A.
Proof.
  intros H. unfold comparable, CV.type_eqb.
  now rewrite Depth_eqb_refl, Z.eqb_refl.
Qed.

Lemma computeSSIM_self (A : CV.Mat) :
  CV.Mat_wf A -> CV.empty A = false -> CV.Mat_finite A ->
  Ssim.computeSSIM A A = Fin 1.
Proof.
  intros Hwf Hne Hfin.
  rewrite computeSSIM_mean by (assumption || now apply comparable_refl).
  f_equal.
  rewrite (map_ext _ (fun _ => 1%R) (at_sample_self A)).
  pose proof (length_first_channel A Hwf) as HN.
  assert (G : forall l : list nat,
             CV.Rsum (map (fun _ => 1%R) l) = INR (length l)).
  { induction l as [|x l IH]; [reflexivity|].
    cbn [map]. rewrite Rsum_cons, IH.
    change (length (x :: l)) with (S (length l)). rewrite S_INR. lra. }
  rewrite G, INR_IZR_INZ, HN. apply Rdiv_diag.
  unfold CV.empty in Hne. apply Z.eqb_neq in Hne. now apply not_0_IZR.
Qed.

(** X26: [computeSSIM] reads the first channel only: two matrices [B] and [B']
    that agree on the samples of the first channel have the same SSIM
    against [A]; in particular a matrix that differs from [A] in its other
    channels only has the SSIM 1 against [A]. *)
Theorem computeSSIM_reads_first_channel_only :
  forall A B B' : CV.Mat,
    CV.Mat_wf A -> CV.Mat_wf B -> CV.Mat_wf B' ->
    comparable A B -> comparable A B' ->
    CV.Mat_finite A -> CV.Mat_finite B -> CV.Mat_finite B' ->
    (forall i, In i (first_channel A) ->
               nth i (CV.data B) NaN = nth i (CV.data B') NaN) ->
    Ssim.computeSSIM A B = Ssim.computeSSIM A B'
    /\ (B' = A -> Ssim.computeSSIM A B = Fin 1).
Proof.
  intros A B B' HwA HwB HwB' Hc Hc' FA FB FB' Hagree.
  assert (E := computeSSIM_first_channel A B B' HwA HwB HwB' Hc Hc' FA FB FB'
                 Hagree).
  split; [exact E|]. intros ->. rewrite E.
  apply computeSSIM_self; try assumption. now destruct Hc.
Qed.

Lemma computeSSIM_reads_first_channel_only_witness :
  Ssim.computeSSIM bgr_1x1 bgr_1x1_first = Fin 1.
Proof.
  apply (proj2 (computeSSIM_reads_first_channel_only bgr_1x1 bgr_1x1_first bgr_1x1
                  bgr_1x1_wf bgr_1x1_first_wf bgr_1x1_wf
                  ltac:(unfold comparable; repeat split)
                  ltac:(unfold comparable; repeat split)
                  (Forall_8U_finite _ bgr_1x1_8U)
                  (Forall_8U_finite _ bgr_1x1_first_8U)
                  (Forall_8U_finite _ bgr_1x1_8U)
                  ltac:(intros i Hi;
                        change (first_channel bgr_1x1) with [0%nat] in Hi;
                        destruct Hi as [<- | []]; reflexivity))).
  reflexivity.
Defined.

(** X24: for two well-formed matrices of 8-bit samples (integers in 0..255)
    that pass the checks, the SSIM map holds, at each sample of the first
    channel, the index
    [(2 mu_a mu_b + C1) (2 cov + C2)
     / ((mu_a^2 + mu_b^2 + C1) (var_a + var_b + C2))]
    of the Gaussian-weighted statistics of the 11 x 11 window of the sample,
    and [computeSSIM] returns the mean of these values over the pixels (as
    real numbers; the code computes them in 32-bit floating point). *)
Theorem computeSSIM_is_mean_of_index :
  forall A B : CV.Mat,
    CV.Mat_wf A -> CV.Mat_wf B -> comparable A B ->
    Forall CV.sample_8U (CV.data A) -> Forall CV.sample_8U (CV.data B) ->
    (forall i, In i (first_channel A) ->
               nth i (CV.data (Ssim.ssimMap A B)) NaN
               = Fin (SsimSpec.at_sample A B i))
    /\ Ssim.computeSSIM A B
       = Fin (CV.Rsum (map (SsimSpec.at_sample A B) (first_channel A))
              / IZR (CV.total A)).
Proof.
  intros A B HwA HwB Hc SA SB.
  pose proof (Forall_8U_finite _ SA) as FA.
  pose proof (Forall_8U_finite _ SB) as FB.
  split.
  - intros i Hi. apply In_first_channel in Hi. destruct Hi as [Hi Hi0].
    apply ssimMap_sample; try assumption.
    + now destruct Hc.
    + now apply comparable_like.
  - now apply computeSSIM_mean.
Qed.

Lemma computeSSIM_is_mean_of_index_witness :
  Ssim.computeSSIM (uniform_4x4 100) (uniform_4x4 110)
  = Fin (CV.Rsum (map (SsimSpec.at_sample (uniform_4x4 100) (uniform_4x4 110))
                      (first_channel (uniform_4x4 100)))
         / IZR (CV.total (uniform_4x4 100))).
Proof.
  apply (proj2 (computeSSIM_is_mean_of_index (uniform_4x4 100) (uniform_4x4 110)
                  (uniform_4x4_wf 100) (uniform_4x4_wf 110)
                  ltac:(unfold comparable; repeat split)
                  (uniform_4x4_8U 100 ltac:(lia))
                  (uniform_4x4_8U 110 ltac:(lia)))).
Defined.





(** ** The metrics of an enhanced image, as [main.cpp] computes them *)

Lemma size_eqb_eq (a b : CV.Mat) :
  CV.size_eqb a b = true -> CV.rows a = CV.rows b /\ CV.cols a = CV.cols b.
Proof.
  unfold CV.size_eqb. intros H. apply andb_prop in H. destruct H as [Hr Hc].
  apply Z.eqb_eq in Hr, Hc. tauto.
Qed.



(** *** A pair of images with a negative index *)

Lemma kernel_sum_upto (n : Z) (sigma : R) :
  (0 < n)%Z ->
  CV.Rsum (map (fun d => nth (Z.to_nat d) (CV.getGaussianKernel n sigma) 0%R)
               (Int.upto n)) = 1%R.
Proof.
  intros Hn. set (k := CV.getGaussianKernel n sigma).
  replace n with (Z.of_nat (length k))
    by (unfold k; rewrite length_getGaussianKernel; lia).
  rewrite map_nth_upto. now apply getGaussianKernel_sum.
Qed.

(** In a matrix of one row the window of a sample is the window of its
    row. *)
Lemma tap_sum_single_row (m : CV.Mat) (n : Z) (sigma : R) (y x c : Z)
    (f : nat -> R) :
  CV.rows m = 1%Z -> (0 < n)%Z ->
  tap_sum f (CV.taps m n sigma y x c)
  = CV.Rsum
      (map (fun dx =>
              nth (Z.to_nat dx) (CV.getGaussianKernel n sigma) 0
              * f (Z.to_nat ((0 * CV.cols m
                              + CV.reflect101 (x + dx - n / 2) (CV.cols m))
                             * CV.channels m + c)))%R
           (Int.upto n)).
Proof.
  intros Hr Hn. unfold CV.taps, tap_sum. rewrite Hr.
  set (K := fun d : Z => nth (Z.to_nat d) (CV.getGaussianKernel n sigma) 0%R).
  set (g := fun dx : Z =>
              f (Z.to_nat ((0 * CV.cols m
                            + CV.reflect101 (x + dx - n / 2) (CV.cols m))
                           * CV.channels m + c))).
  assert (G : forall l : list Z,
             CV.Rsum
               (map (fun wi : R * nat => (fst wi * f (snd wi))%R)
                  (flat_map
                     (fun dy =>
                        map (fun dx =>
                               ((K dy * K dx)%R,
                                Z.to_nat
                                  ((CV.reflect101 (y + dy - n / 2) 1 * CV.cols m
                                    + CV.reflect101 (x + dx - n / 2) (CV.cols m))
                                   * CV.channels m + c)))
                            (Int.upto n)) l))
             = (CV.Rsum (map K l)
                * CV.Rsum (map (fun dx => K dx * g dx)%R (Int.upto n)))%R).
  { induction l as [|dy l IH]; [unfold CV.Rsum; simpl; lra|].
    cbn [flat_map map]. rewrite map_app, Rsum_app, IH, Rsum_cons.
    rewrite map_map. cbn [fst snd].
    rewrite (map_ext _ (fun dx => (K dy * (K dx * g dx))%R)).
    - rewrite Rsum_scale. ring.
    - intros dx. unfold g.
      change (CV.reflect101 (y + dy - n / 2) 1) with 0%Z. ring. }
  rewrite G. unfold K at 1. rewrite kernel_sum_upto by assumption.
  now rewrite Rmult_1_l.
Qed.

Lemma Rsum_ge_term (A : Type) (g : A -> R) (l : list A) (x0 : A) :
  (forall x, In x l -> (0 <= g x)%R) -> In x0 l ->
  (g x0 <= CV.Rsum (map g l))%R.
Proof.
  intros Hpos Hin. induction l as [|x l IH]; [contradiction|].
  cbn [map]. rewrite Rsum_cons.
  assert (Hl : (0 <= CV.Rsum (map g l))%R).
  { clear IH Hin. induction l as [|z l IH]; [unfold CV.Rsum; simpl; lra|].
    cbn [map]. rewrite Rsum_cons.
    pose proof (Hpos z (or_intror (or_introl eq_refl))).
    assert (0 <= CV.Rsum (map g l))%R; [|lra].
    apply IH. intros t [-> | Ht]; apply Hpos; [now left | right; now right]. }
  pose proof (Hpos x (or_introl eq_refl)).
  destruct Hin as [-> | Hin]; [lra|].
  assert (g x0 <= CV.Rsum (map g l))%R; [|lra].
  apply IH; [|assumption]. intros t Ht. apply Hpos. now right.
Qed.

Lemma exp_nonpos_le_1 (t : R) : (t <= 0)%R -> (exp t <= 1)%R.
Proof.
  intros [H | ->]; [|rewrite exp_0; lra].
  rewrite <- exp_0. left. now apply exp_increasing.
Qed.

(** Two weights of the window of [computeSSIM]. *)
Lemma kernel_11_bounds :
  (0.07 <= nth 4 (CV.getGaussianKernel 11 1.5) 0
   /\ 0.09 <= nth 5 (CV.getGaussianKernel 11 1.5) 0)%R.
Proof.
  unfold CV.getGaussianKernel.
  change ((11 - 1) / 2)%Z with 5%Z.
  change (Int.upto 11) with [0; 1; 2; 3; 4; 5; 6; 7; 8; 9; 10]%Z.
  cbn [map nth].
  set (e := fun i : Z => exp (- (IZR (i - 5) * IZR (i - 5)) / (2 * 1.5 * 1.5))).
  change (0.07 <= e 4%Z / CV.Rsum [e 0%Z; e 1%Z; e 2%Z; e 3%Z; e 4%Z; e 5%Z;
                                   e 6%Z; e 7%Z; e 8%Z; e 9%Z; e 10%Z]
          /\ 0.09 <= e 5%Z / CV.Rsum [e 0%Z; e 1%Z; e 2%Z; e 3%Z; e 4%Z; e 5%Z;
                                      e 6%Z; e 7%Z; e 8%Z; e 9%Z; e 10%Z])%R.
  assert (Hle : forall i : Z, (0 < e i <= 1)%R).
  { intros i. unfold e. split; [apply exp_pos|]. apply exp_nonpos_le_1.
    assert (0 <= IZR (i - 5) * IZR (i - 5))%R by apply Rle_0_sqr.
    apply Rmult_le_reg_r with (2 * 1.5 * 1.5)%R; [lra|].
    unfold Rdiv. rewrite Rmult_assoc, Rinv_l by lra. lra. }
  assert (H4 : (0.77 <= e 4%Z)%R).
  { unfold e. change (4 - 5)%Z with (-1)%Z.
    pose proof (exp_ge_1_plus (- (-1 * -1) / (2 * 1.5 * 1.5))) as H.
    lra. }
  assert (H5 : (e 5%Z = 1)%R).
  { unfold e. change (5 - 5)%Z with 0%Z.
    replace (- (0 * 0) / (2 * 1.5 * 1.5))%R with 0%R by (unfold Rdiv; ring).
    apply exp_0. }
  set (S := CV.Rsum _).
  assert (HS : (0 < S <= 11)%R).
  { unfold S. rewrite !Rsum_cons. unfold CV.Rsum. cbn [fold_right].
    pose proof (Hle 0%Z). pose proof (Hle 1%Z). pose proof (Hle 2%Z).
    pose proof (Hle 3%Z). pose proof (Hle 4%Z). pose proof (Hle 5%Z).
    pose proof (Hle 6%Z). pose proof (Hle 7%Z). pose proof (Hle 8%Z).
    pose proof (Hle 9%Z). pose proof (Hle 10%Z). lra. }
  clearbody S. split.
  - apply Rmult_le_reg_r with S; [lra|].
    unfold Rdiv. rewrite Rmult_assoc, Rinv_l by lra. lra.
  - apply Rmult_le_reg_r with S; [lra|].
    unfold Rdiv. rewrite Rmult_assoc, Rinv_l by lra. lra.
Qed.

Lemma value_negative (ma mb eaa ebb eab : R) :
  (0 <= ma)%R -> (0 <= mb)%R ->
  (0 <= eaa - ma * ma)%R -> (0 <= ebb - mb * mb)%R ->
  (2 * (eab - ma * mb) + SsimSpec.c2 < 0)%R ->
  (SsimSpec.index ma mb eaa ebb eab < 0)%R.
Proof.
  intros Ha Hb Hva Hvb Hneg. unfold SsimSpec.index.
  pose proof c1_pos. pose proof c2_pos.
  assert (Hn1 : (0 < 2 * (ma * mb) + SsimSpec.c1)%R).
  { assert (0 <= ma * mb)%R by now apply Rmult_le_pos. lra. }
  assert (Hd1 : (0 < ma * ma + mb * mb + SsimSpec.c1)%R).
  { pose proof (Rle_0_sqr ma). pose proof (Rle_0_sqr mb). unfold Rsqr in *. lra. }
  assert (Hd2 : (0 < eaa - ma * ma + (ebb - mb * mb) + SsimSpec.c2)%R) by lra.
  set (n1 := (2 * (ma * mb) + SsimSpec.c1)%R) in *.
  set (n2 := (2 * (eab - ma * mb) + SsimSpec.c2)%R) in *.
  set (d := ((ma * ma + mb * mb + SsimSpec.c1)
             * (eaa - ma * ma + (ebb - mb * mb) + SsimSpec.c2))%R).
  assert (Hd : (0 < d)%R) by (unfold d; now apply Rmult_lt_0_compat).
  assert (Hn : (n1 * n2 < 0)%R).
  { clearbody n1 n2. nra. }
  clearbody n1 n2 d.
  apply Rmult_lt_reg_r with d; [assumption|].
  unfold Rdiv. rewrite Rmult_assoc, Rinv_l by lra. lra.
Qed.

Lemma dark_then_bright_wf : CV.Mat_wf dark_then_bright.
Proof. unfold CV.Mat_wf. simpl. lia. Qed.

Lemma bright_then_dark_wf : CV.Mat_wf bright_then_dark.
Proof. unfold CV.Mat_wf. simpl. lia. Qed.

Lemma dark_then_bright_8U : Forall CV.sample_8U (CV.data dark_then_bright).
Proof. simpl. repeat constructor; eexists; (split; [reflexivity | lia]). Qed.

Lemma bright_then_dark_8U : Forall CV.sample_8U (CV.data bright_then_dark).
Proof. simpl. repeat constructor; eexists; (split; [reflexivity | lia]). Qed.

Lemma stripes_comparable : comparable dark_then_bright bright_then_dark.
Proof. unfold comparable. repeat split. Qed.

(** The samples of the two buffers, as real numbers. *)
Lemma dark_then_bright_samples (j : nat) :
  to_R (nth j (CV.data dark_then_bright) NaN)
  = match j with 1%nat => 255%R | _ => 0%R end.
Proof. destruct j as [|[|[|j]]]; reflexivity. Qed.

Lemma bright_then_dark_samples (j : nat) :
  to_R (nth j (CV.data bright_then_dark) NaN)
  = match j with 0%nat => 255%R | _ => 0%R end.
Proof. destruct j as [|[|[|j]]]; reflexivity. Qed.

Lemma stripes_row_sum (x : Z) (f : nat -> R) :
  tap_sum f (CV.taps dark_then_bright 11 1.5 0 x 0)
  = CV.Rsum
      (map (fun dx =>
              nth (Z.to_nat dx) (CV.getGaussianKernel 11 1.5) 0
              * f (Z.to_nat (CV.reflect101 (x + dx - 5) 2)))%R
           (Int.upto 11)).
Proof.
  rewrite tap_sum_single_row by (reflexivity || lia).
  f_equal. apply map_ext. intros dx. f_equal. f_equal.
  change (CV.cols dark_then_bright) with 2%Z.
  change (CV.channels dark_then_bright) with 1%Z.
  change (11 / 2)%Z with 5%Z. f_equal. lia.
Qed.

(** The index at a sample of the pair is negative: the two means are
    large, and the products of the samples are all zero. *)
Lemma stripes_sample_negative (i : nat) :
  In i (first_channel dark_then_bright) ->
  (SsimSpec.at_sample dark_then_bright bright_then_dark i < 0)%R.
Proof.
  intros Hi.
  assert (Hi' : i = 0%nat \/ i = 1%nat).
  { change (first_channel dark_then_bright) with [0%nat; 1%nat] in Hi.
    simpl in Hi. intuition. }
  pose (T := SsimSpec.window_taps dark_then_bright i).
  pose (a := fun j => to_R (nth j (CV.data dark_then_bright) NaN)).
  pose (b := fun j => to_R (nth j (CV.data bright_then_dark) NaN)).
  change (SsimSpec.index (tap_sum a T) (tap_sum b T)
            (tap_sum (fun j => a j * a j)%R T) (tap_sum (fun j => b j * b j)%R T)
            (tap_sum (fun j => a j * b j)%R T) < 0)%R.
  destruct (window_covariance a b T
              (fun wi => window_nonneg dark_then_bright i wi)
              (window_sum dark_then_bright i))
    as (Hva & Hvb & _).
  destruct kernel_11_bounds as [K4 K5].
  assert (Ha0 : forall j, (0 <= a j)%R).
  { intros j. unfold a. rewrite dark_then_bright_samples.
    destruct j as [|[|j]]; lra. }
  assert (Hb0 : forall j, (0 <= b j)%R).
  { intros j. unfold b. rewrite bright_then_dark_samples.
    destruct j as [|j]; lra. }
  assert (Hab : tap_sum (fun j => a j * b j)%R T = 0%R).
  { rewrite (tap_sum_ext _ (fun _ => 0%R)).
    - unfold tap_sum. rewrite (map_ext _ (fun _ => 0%R)) by (intros; ring).
      apply Rsum_zero_map.
    - intros wi _. unfold a, b.
      rewrite dark_then_bright_samples, bright_then_dark_samples.
      destruct (snd wi) as [|[|j]]; ring. }
  assert (Hterm : forall (x : Z) (f : nat -> R) (d : Z),
             (forall j, 0 <= f j)%R -> (0 <= d < 11)%Z ->
             (nth (Z.to_nat d) (CV.getGaussianKernel 11 1.5) 0
              * f (Z.to_nat (CV.reflect101 (x + d - 5) 2))
              <= tap_sum f (CV.taps dark_then_bright 11 1.5 0 x 0))%R).
  { intros x f d Hf Hd. rewrite stripes_row_sum.
    apply (Rsum_ge_term Z
             (fun dx => nth (Z.to_nat dx) (CV.getGaussianKernel 11 1.5) 0
                        * f (Z.to_nat (CV.reflect101 (x + dx - 5) 2)))%R).
    - intros dx _. apply Rmult_le_pos; [|apply Hf].
      apply getGaussianKernel_nonneg. lia.
    - now apply In_upto. }
  assert (Hm : (17 <= tap_sum a T /\ 17 <= tap_sum b T)%R).
  { destruct Hi' as [-> | ->].
    - change T with (CV.taps dark_then_bright 11 1.5 0 0 0).
      pose proof (Hterm 0%Z a 4%Z Ha0 ltac:(lia)) as H1.
      pose proof (Hterm 0%Z b 5%Z Hb0 ltac:(lia)) as H2.
      change (Z.to_nat (CV.reflect101 (0 + 4 - 5) 2)) with 1%nat in H1.
      change (Z.to_nat (CV.reflect101 (0 + 5 - 5) 2)) with 0%nat in H2.
      change (Z.to_nat 4) with 4%nat in H1. change (Z.to_nat 5) with 5%nat in H2.
      unfold a in H1 at 1. unfold b in H2 at 1.
      rewrite dark_then_bright_samples in H1.
      rewrite bright_then_dark_samples in H2. lra.
    - change T with (CV.taps dark_then_bright 11 1.5 0 1 0).
      pose proof (Hterm 1%Z a 5%Z Ha0 ltac:(lia)) as H1.
      pose proof (Hterm 1%Z b 4%Z Hb0 ltac:(lia)) as H2.
      change (Z.to_nat (CV.reflect101 (1 + 5 - 5) 2)) with 1%nat in H1.
      change (Z.to_nat (CV.reflect101 (1 + 4 - 5) 2)) with 0%nat in H2.
      change (Z.to_nat 5) with 5%nat in H1. change (Z.to_nat 4) with 4%nat in H2.
      unfold a in H1 at 1. unfold b in H2 at 1.
      rewrite dark_then_bright_samples in H1.
      rewrite bright_then_dark_samples in H2. lra. }
  apply value_negative; try assumption; try lra.
  rewrite Hab. unfold SsimSpec.c2. destruct Hm as [Hma Hmb].
  assert (17 * 17 <= tap_sum a T * tap_sum b T)%R
    by (apply Rmult_le_compat; lra).
  lra.
Qed.

(** X29: the SSIM of two valid images can be negative.  For the 8-bit buffers
    [0, 255] and [255, 0] (one row, two pixels, one channel), which pass
    every check, [computeSSIM] returns a negative number, and
    [calculateCompositeScore] of their PSNR and SSIM returns the sentinel
    -1: the tests [ssim < 0] of [main.cpp] and of [calculateCompositeScore]
    report valid images as an error. *)
Theorem computeSSIM_can_be_negative :
  CV.Mat_wf dark_then_bright /\ CV.Mat_wf bright_then_dark
  /\ Forall CV.sample_8U (CV.data dark_then_bright)
  /\ Forall CV.sample_8U (CV.data bright_then_dark)
  /\ comparable dark_then_bright bright_then_dark
  /\ exists s : R,
      Ssim.computeSSIM dark_then_bright bright_then_dark = Fin s
      /\ (s < 0)%R
      /\ Filters.calculateCompositeScore
           (Psnr.calculatePSNR dark_then_bright bright_then_dark)
           (Ssim.computeSSIM dark_then_bright bright_then_dark)
         = Fin (-1).
Proof.
  split; [exact dark_then_bright_wf|]. split; [exact bright_then_dark_wf|].
  split; [exact dark_then_bright_8U|]. split; [exact bright_then_dark_8U|].
  split; [exact stripes_comparable|].
  rewrite (computeSSIM_mean dark_then_bright bright_then_dark
             dark_then_bright_wf bright_then_dark_wf stripes_comparable
             (Forall_8U_finite _ dark_then_bright_8U)
             (Forall_8U_finite _ bright_then_dark_8U)).
  assert (Hs : (CV.Rsum (map (SsimSpec.at_sample dark_then_bright bright_then_dark)
                             (first_channel dark_then_bright))
                / IZR (CV.total dark_then_bright) < 0)%R).
  { pose proof (stripes_sample_negative 0%nat) as H0.
    pose proof (stripes_sample_negative 1%nat) as H1.
    change (first_channel dark_then_bright) with [0%nat; 1%nat] in *.
    specialize (H0 (or_introl eq_refl)).
    specialize (H1 (or_intror (or_introl eq_refl))).
    cbn [map]. rewrite !Rsum_cons. unfold CV.Rsum. cbn [fold_right].
    change (CV.total dark_then_bright) with 2%Z. lra. }
  eexists. split; [reflexivity|]. split; [exact Hs|].
  unfold Filters.calculateCompositeScore.
  replace (dltb (Fin _) (Fin 0)) with true
    by (symmetry; cbn [dltb]; now apply Rltb_true).
  now rewrite orb_true_r.
Qed.

(** ** [main.cpp]: the exit codes *)

Lemma psnr_not_negative (A B : CV.Mat) :
  loaded A -> loaded B -> CV.size_eqb A B = true ->
  dltb (Psnr.calculatePSNR A B) (Fin 0) = false.
Proof.
  intros (HwA & HA & HdA & H3A & H8A) (HwB & HB & HdB & H3B & H8B) Hs.
  destruct (psnr_8bit A B HwA HwB HA Hs ltac:(congruence) HdA H8A H8B)
    as (m & _ & _ & _ & Hz & Hnz).
  destruct (Req_dec_T m 0) as [E0 | Hne].
  - now rewrite (Hz E0).
  - destruct (Hnz Hne) as [-> Hv]. cbn [dltb]. now apply Rltb_false.
Qed.

Lemma ssim_is_a_number (A B : CV.Mat) :
  loaded A -> loaded B -> CV.size_eqb A B = true ->
  exists s : R, Ssim.computeSSIM A B = Fin s /\ (-1 < s <= 1)%R.
Proof.
  intros (HwA & HA & HdA & H3A & H8A) (HwB & HB & HdB & H3B & H8B) Hs.
  destruct (size_eqb_eq _ _ Hs) as [Hr Hc].
  apply computeSSIM_in_range; try assumption;
    try (now apply Forall_8U_finite).
  unfold comparable, CV.type_eqb. rewrite HdA, HdB, H3A, H3B.
  repeat split; assumption.
Qed.

Lemma enhanced_is_loaded (A B : CV.Mat) (amount threshold : double) :
  loaded A -> CV.empty B = false -> CV.size_eqb A B = true ->
  CV.channels A = CV.channels B ->
  loaded (Filters.applyUnsharpMask A B amount threshold)
  /\ same_shape (Filters.applyUnsharpMask A B amount threshold) A.
Proof.
  intros (HwA & HA & HdA & H3A & H8A) HB Hs Hch.
  destruct (applyUnsharpMask_valid_shape A B amount threshold HA HB Hs Hch)
    as [(Er & Ec & Ech & Ed) El].
  split; [|unfold same_shape; tauto].
  unfold loaded. destruct HwA as (H1 & H2 & H3 & H4).
  split; [unfold CV.Mat_wf; rewrite Er, Ec, Ech, El; repeat split; lia|].
  split; [unfold CV.empty, CV.total in *; now rewrite Er, Ec|].
  split; [congruence|]. split; [congruence|]. apply applyUnsharpMask_8U.
Qed.

Lemma applyGaussianBlur_5 lib (img blurred : CV.Mat) :
  blurs_to lib img blurred ->
  Filters.applyGaussianBlur lib img 5 (Fin 1) = Some blurred.
Proof. intros (H & _). exact H. Qed.

Lemma size_eqb_trans_shape (C A E : CV.Mat) :
  CV.size_eqb C A = true -> same_shape E A -> CV.size_eqb C E = true.
Proof.
  intros Hs (Er & Ec & _). destruct (size_eqb_eq _ _ Hs) as [Hr Hc].
  unfold CV.size_eqb. rewrite Er, Ec, Hr, Hc, !Z.eqb_refl. reflexivity.
Qed.

Lemma main_practical imread lib imwrite (prog mode path : String.string) :
  In mode ["--practical"%string; "-p"%string] ->
  Main.main imread lib imwrite [prog; mode; path]
  = Main.runPracticalMode imread lib imwrite path.
Proof. intros [<- | [<- | []]]; reflexivity. Qed.

Lemma main_test imread lib imwrite (prog mode cleanPath path : String.string) :
  In mode ["--test"%string; "-t"%string] ->
  Main.main imread lib imwrite [prog; mode; cleanPath; path]
  = option_map fst (Main.runTestingMode imread lib imwrite cleanPath path).
Proof. intros [<- | [<- | []]]; reflexivity. Qed.

Lemma flag_in (mode a b : String.string) :
  String.eqb mode a || String.eqb mode b = true -> In mode [a; b].
Proof.
  intros H. apply orb_true_iff in H.
  destruct H as [H | H]; apply String.eqb_eq in H; subst; cbn; tauto.
Qed.

Lemma main_rejects imread lib imwrite (argv : list String.string) :
  (forall prog mode path,
      argv = [prog; mode; path] ->
      ~ In mode ["--practical"%string; "-p"%string]) ->
  (forall prog mode cleanPath path,
      argv = [prog; mode; cleanPath; path] ->
      ~ In mode ["--test"%string; "-t"%string]) ->
  Main.main imread lib imwrite argv = Some (-1)%Z.
Proof.
  intros H3 H4. unfold Main.main.
  destruct (Z.of_nat (length argv) <? 3)%Z eqn:E; [reflexivity|].
  destruct (String.eqb (nth 1 argv String.EmptyString) "--test"
            || String.eqb (nth 1 argv String.EmptyString) "-t") eqn:Et.
  - destruct (Z.of_nat (length argv) =? 4)%Z eqn:E4; [|reflexivity].
    apply Z.eqb_eq in E4.
    destruct argv as [|a0 [|a1 [|a2 [|a3 [|a4 rest]]]]];
      cbn [length] in E4; try lia.
    destruct (H4 a0 a1 a2 a3 eq_refl). now apply flag_in.
  - destruct (String.eqb (nth 1 argv String.EmptyString) "--practical"
              || String.eqb (nth 1 argv String.EmptyString) "-p") eqn:Ep;
      [|reflexivity].
    destruct (Z.of_nat (length argv) =? 3)%Z eqn:E3; [|reflexivity].
    apply Z.eqb_eq in E3.
    destruct argv as [|a0 [|a1 [|a2 [|a3 rest]]]];
      cbn [length] in E3; try lia.
    destruct (H3 a0 a1 a2 eq_refl). now apply flag_in.
Qed.

(** X30: the exit codes of [main.cpp].  Let [cv::imread] return, for the
    two paths, non-empty 8-bit images of three channels, let
    [cv::GaussianBlur] give an 8-bit image of the size and the channels of
    its input, and let [cv::imwrite] not throw.  Then practical mode returns
    -1 when the SSIM of the compressed image and its enhancement is negative
    and 0 otherwise.  Testing mode returns -1 when the two images differ in
    size, or when the SSIM of the clean image with the compressed or with the
    enhanced one is negative; otherwise it returns 0 and its verdict is PASS
    exactly when the composite score of the enhanced image is greater than
    the baseline's.  [main] runs practical mode for [--practical] or [-p]
    with one path, testing mode for [--test] or [-t] with two paths, and
    returns -1 for every other list of arguments. *)
Theorem main_exit_codes :
  forall (imread : String.string -> CV.Mat)
         (lib : CV.Mat -> Z -> Z -> double -> double -> option CV.Mat)
         (imwrite : String.string -> CV.Mat -> option bool)
         (cleanPath path : String.string) (blurred : CV.Mat),
    loaded (imread cleanPath) -> loaded (imread path) ->
    blurs_to lib (imread path) blurred ->
    (forall p m, imwrite p m <> None) ->
    let clean := imread cleanPath in
    let compressed := imread path in
    let enhanced := Filters.applyUnsharpMask compressed blurred (Fin 1.5) (Fin 0) in
    (exists s : R,
        Ssim.computeSSIM compressed enhanced = Fin s
        /\ Main.runPracticalMode imread lib imwrite path
           = Some (if Rltb s 0 then -1 else 0)%Z)
    /\ (CV.size_eqb clean compressed = false ->
        Main.runTestingMode imread lib imwrite cleanPath path
        = Some ((-1)%Z, None))
    /\ (CV.size_eqb clean compressed = true ->
        exists s0 s1 : R,
          Ssim.computeSSIM clean compressed = Fin s0
          /\ Ssim.computeSSIM clean enhanced = Fin s1
          /\ Main.runTestingMode imread lib imwrite cleanPath path
             = Some
                 (if Rltb s0 0 || Rltb s1 0 then ((-1)%Z, None)
                  else
                    (0%Z,
                     Some
                       (if dltb
                             (Filters.calculateCompositeScore
                                (Psnr.calculatePSNR clean compressed) (Fin s0))
                             (Filters.calculateCompositeScore
                                (Psnr.calculatePSNR clean enhanced) (Fin s1))
                        then Main.PASS else Main.FAIL))))
    /\ (forall prog mode : String.string,
          In mode ["--practical"%string; "-p"%string] ->
          Main.main imread lib imwrite [prog; mode; path]
          = Main.runPracticalMode imread lib imwrite path)
    /\ (forall prog mode : String.string,
          In mode ["--test"%string; "-t"%string] ->
          Main.main imread lib imwrite [prog; mode; cleanPath; path]
          = option_map fst
              (Main.runTestingMode imread lib imwrite cleanPath path))
    /\ (forall argv : list String.string,
          (forall prog mode p,
              argv = [prog; mode; p] ->
              ~ In mode ["--practical"%string; "-p"%string]) ->
          (forall prog mode c p,
              argv = [prog; mode; c; p] ->
              ~ In mode ["--test"%string; "-t"%string]) ->
          Main.main imread lib imwrite argv = Some (-1)%Z).
Proof.
  intros imread lib imwrite cleanPath path blurred Lc Lp Lb Hw
         clean compressed enhanced.
  fold clean in Lc. fold compressed in Lp, Lb.
  pose proof Lb as (Hlib & HB & HsB & HchB & HdB).
  pose proof Lp as (HwA & HA & HdA & H3A & H8A).
  pose proof Lc as (HwC & HC & HdC & H3C & H8C).
  destruct (enhanced_is_loaded compressed blurred (Fin 1.5) (Fin 0)
              Lp HB HsB HchB) as [Le Hshape].
  fold enhanced in Le, Hshape.
  pose proof Le as (_ & HE & _).
  assert (HsAE : CV.size_eqb compressed enhanced = true).
  { apply (size_eqb_trans_shape compressed compressed enhanced); [|assumption].
    unfold CV.size_eqb. now rewrite !Z.eqb_refl. }
  assert (Hwr : forall p m, exists b, imwrite p m = Some b).
  { intros p m. destruct (imwrite p m) as [b|] eqn:E; [now exists b|].
    now destruct (Hw p m). }
  split; [|split; [|split; [|split; [|split]]]].
  - destruct (ssim_is_a_number compressed enhanced Lp Le HsAE) as (s & Es & _).
    exists s. split; [exact Es|].
    unfold Main.runPracticalMode. fold compressed. rewrite HA.
    rewrite (applyGaussianBlur_5 lib compressed blurred Lb). rewrite HB.
    fold enhanced. rewrite HE.
    destruct (Hwr "output_blurred.jpg"%string blurred) as [b1 ->].
    destruct (Hwr "output_enhanced.jpg"%string enhanced) as [b2 ->].
    rewrite (psnr_not_negative compressed enhanced Lp Le HsAE).
    rewrite Es. cbn [dltb]. now destruct (Rltb s 0).
  - intros Hs. unfold Main.runTestingMode. fold clean. fold compressed.
    now rewrite HC, HA, Hs.
  - intros Hs.
    assert (HsCE : CV.size_eqb clean enhanced = true)
      by now apply (size_eqb_trans_shape clean compressed enhanced).
    destruct (ssim_is_a_number clean compressed Lc Lp Hs) as (s0 & Es0 & _).
    destruct (ssim_is_a_number clean enhanced Lc Le HsCE) as (s1 & Es1 & _).
    exists s0, s1. split; [exact Es0|]. split; [exact Es1|].
    unfold Main.runTestingMode. fold clean. fold compressed.
    rewrite HC, HA, Hs. cbn [negb].
    rewrite (psnr_not_negative clean compressed Lc Lp Hs).
    rewrite Es0. cbn [dltb]. destruct (Rltb s0 0); [reflexivity|]. cbn [orb].
    rewrite (applyGaussianBlur_5 lib compressed blurred Lb). rewrite HB.
    fold enhanced. rewrite HE.
    destruct (Hwr "output_enhanced.jpg"%string enhanced) as [b2 ->].
    rewrite (psnr_not_negative clean enhanced Lc Le HsCE).
    rewrite Es1. cbn [dltb]. now destruct (Rltb s1 0).
  - intros prog mode. apply main_practical.
  - intros prog mode. apply main_test.
  - intros argv. apply main_rejects.
Qed.

Lemma main_exit_codes_witness :
  exists s : R,
    Ssim.computeSSIM bgr_1x1
      (Filters.applyUnsharpMask bgr_1x1 bgr_1x1 (Fin 1.5) (Fin 0)) = Fin s
    /\ Main.runPracticalMode (fun _ => bgr_1x1) (fun m _ _ _ _ => Some m)
         (fun _ _ => Some true) "compressed.jpg"%string
       = Some (if Rltb s 0 then -1 else 0)%Z.
Proof.
  assert (L : loaded bgr_1x1).
  { unfold loaded. split; [exact bgr_1x1_wf|]. split; [reflexivity|].
    split; [reflexivity|]. split; [reflexivity | exact bgr_1x1_8U]. }
  apply (proj1 (main_exit_codes (fun _ => bgr_1x1) (fun m _ _ _ _ => Some m)
                  (fun _ _ => Some true)
                  "clean.jpg"%string "compressed.jpg"%string
                  bgr_1x1 L L ltac:(unfold blurs_to; repeat split)
                  ltac:(intros; discriminate))).
Defined.
